(** * SRFirst: the accessibility tree engine of [Sources/SRFirstMain.cpp]

    A shallow embedding of the node store, the tree builder, the focus
    manager, the hit tester and the text range provider, together with the
    properties of the engine that the specification states.

    Conventions of the embedding:
    - [UiTree::Id] ([uint64_t]) and [int] are [Z]; [size_t] values are [Z]
      with the wrap-around modulo [2^64] written out where the source does
      arithmetic on them; positions in the columns are [nat].
    - [std::wstring] is a list of [wchar_t] code units.
    - [g_ui], the static locals of [ui_get_index] and the automation events
      raised so far form the [World], threaded through a state and failure
      monad.  A failed [VERIFY] (which calls [std::exit]) is [VerifyFailed].
    - loops that the source does not bound by a counter get a fuel derived
      from the number of nodes; running out of it is [OutOfFuel].
    - logging is left out. *)

From Stdlib Require Import ZArith QArith String Ascii Lia.
From stdpp Require Import base list gmap.

Local Open Scope Z_scope.

(** ** 1. Utilities *)

Abbreviation Id := Z (only parsing).
Abbreviation wchar_t := Z (only parsing).
Abbreviation wstring := (list Z) (only parsing).

Definition size_max : Z := 2 ^ 64.

(** Conversion of an integer to [size_t]. *)
Definition to_size_t (z : Z) : Z := z mod size_max.

(** [static_cast<int>] of a [size_t]. *)
Definition to_int (z : Z) : Z := (z + 2 ^ 31) mod 2 ^ 32 - 2 ^ 31.

(** A wide string literal. *)
Definition L (s : string) : wstring :=
  (fun a => Z.of_N (N_of_ascii a)) <$> list_ascii_of_string s.

Record RECT := mkRECT { left : Z; top : Z; right : Z; bottom : Z }.
Record POINT := mkPOINT { px : Z; py : Z }.

Definition RECT_zero : RECT := mkRECT 0 0 0 0.

(** ** 2. The state *)

Inductive UiType := kNone | kText | kDocument | kButton | kPane.

Global Instance UiType_eq_dec : EqDecision UiType.
Proof. solve_decision. Defined.

(** The callbacks registered by [ui_describe]. *)
Inductive Action := MinimizeApplication | CloseApplication | OtherAction (n : nat).

(** [struct UiTree] *)
Record UiTree := mkUiTree {
  node_ids : list Id;
  node_names : list wstring;
  node_type : list UiType;
  node_parent : list Id;
  node_depth : list Z;
  node_text_len : list Z;
  node_rect : list RECT;
  actions : gmap Z Action;
  (** the cached [AnyElementProvider] of an id, by its reference count *)
  providers : gmap Z Z;
  focused_id : Id;
  depth_for_adding_element : Z;
}.

(** The static locals of [ui_get_index]. *)
Record Fingers := mkFingers {
  fingers_id : Id * Id;
  fingers_index : nat * nat;
  next : Z;
}.

Inductive EventId := UIA_AutomationFocusChangedEventId | UIA_Invoke_InvokedEventId.

Record World := mkWorld {
  g_ui : UiTree;
  fingers : Fingers;
  (** [UiaClientsAreListening() && g_root_provider] *)
  clients_listening : bool;
  (** the calls of [UiaRaiseAutomationEvent], latest first, each with the
      id of the provider it was raised on *)
  raised : list (EventId * Id);
}.

Definition g_ui0 : UiTree :=
  {| node_ids := []; node_names := []; node_type := []; node_parent := [];
     node_depth := []; node_text_len := []; node_rect := [];
     actions := ∅; providers := ∅; focused_id := 0;
     depth_for_adding_element := 0 |}.

Definition fingers0 : Fingers :=
  {| fingers_id := (0, 0); fingers_index := (0%nat, 0%nat); next := 0 |}.

(** The state at program start. *)
Definition World0 (listening : bool) : World :=
  {| g_ui := g_ui0; fingers := fingers0; clients_listening := listening; raised := [] |}.

Definition set_g_ui (u : UiTree) (w : World) : World :=
  {| g_ui := u; fingers := fingers w; clients_listening := clients_listening w;
     raised := raised w |}.

Definition set_fingers (f : Fingers) (w : World) : World :=
  {| g_ui := g_ui w; fingers := f; clients_listening := clients_listening w;
     raised := raised w |}.

Definition add_raised (e : EventId * Id) (w : World) : World :=
  {| g_ui := g_ui w; fingers := fingers w; clients_listening := clients_listening w;
     raised := e :: raised w |}.

Definition set_node_text_len (l : list Z) (u : UiTree) : UiTree :=
  {| node_ids := node_ids u; node_names := node_names u; node_type := node_type u;
     node_parent := node_parent u; node_depth := node_depth u;
     node_text_len := l; node_rect := node_rect u; actions := actions u;
     providers := providers u; focused_id := focused_id u;
     depth_for_adding_element := depth_for_adding_element u |}.

Definition set_node_rect (l : list RECT) (u : UiTree) : UiTree :=
  {| node_ids := node_ids u; node_names := node_names u; node_type := node_type u;
     node_parent := node_parent u; node_depth := node_depth u;
     node_text_len := node_text_len u; node_rect := l; actions := actions u;
     providers := providers u; focused_id := focused_id u;
     depth_for_adding_element := depth_for_adding_element u |}.

Definition set_actions (a : gmap Z Action) (u : UiTree) : UiTree :=
  {| node_ids := node_ids u; node_names := node_names u; node_type := node_type u;
     node_parent := node_parent u; node_depth := node_depth u;
     node_text_len := node_text_len u; node_rect := node_rect u; actions := a;
     providers := providers u; focused_id := focused_id u;
     depth_for_adding_element := depth_for_adding_element u |}.

Definition set_providers (p : gmap Z Z) (u : UiTree) : UiTree :=
  {| node_ids := node_ids u; node_names := node_names u; node_type := node_type u;
     node_parent := node_parent u; node_depth := node_depth u;
     node_text_len := node_text_len u; node_rect := node_rect u; actions := actions u;
     providers := p; focused_id := focused_id u;
     depth_for_adding_element := depth_for_adding_element u |}.

Definition set_focused_id (i : Id) (u : UiTree) : UiTree :=
  {| node_ids := node_ids u; node_names := node_names u; node_type := node_type u;
     node_parent := node_parent u; node_depth := node_depth u;
     node_text_len := node_text_len u; node_rect := node_rect u; actions := actions u;
     providers := providers u; focused_id := i;
     depth_for_adding_element := depth_for_adding_element u |}.

Definition set_depth_for_adding_element (d : Z) (u : UiTree) : UiTree :=
  {| node_ids := node_ids u; node_names := node_names u; node_type := node_type u;
     node_parent := node_parent u; node_depth := node_depth u;
     node_text_len := node_text_len u; node_rect := node_rect u; actions := actions u;
     providers := providers u; focused_id := focused_id u;
     depth_for_adding_element := d |}.

(** The seven [push_back]s of [ui_named_element]. *)
Definition push_node (id : Id) (name : wstring) (type : UiType) (depth : Z)
    (parent_id : Id) (u : UiTree) : UiTree :=
  {| node_ids := node_ids u ++ [id]; node_names := node_names u ++ [name];
     node_type := node_type u ++ [type]; node_parent := node_parent u ++ [parent_id];
     node_depth := node_depth u ++ [depth];
     node_text_len := node_text_len u ++ [0]; node_rect := node_rect u ++ [RECT_zero];
     actions := actions u; providers := providers u; focused_id := focused_id u;
     depth_for_adding_element := depth_for_adding_element u |}.

(** ** 3. The monad of the engine *)

Inductive failure :=
  | VerifyFailed        (** a [VERIFY] failed: the process exits *)
  | Undefined           (** a subscript out of range, a division by zero *)
  | OutOfRange          (** [std::out_of_range] thrown by [std::wstring] *)
  | OutOfFuel.

Inductive outcome (A : Type) :=
  | Done (a : A)
  | Fail (f : failure).
Arguments Done {A} a.
Arguments Fail {A} f.

Definition M (A : Type) : Type := World -> outcome (A * World).

Definition ret {A} (a : A) : M A := fun w => Done (a, w).
Definition fail {A} (f : failure) : M A := fun _ => Fail f.
Definition bind {A B} (c : M A) (k : A -> M B) : M B :=
  fun w => match c w with
           | Done (a, w') => k a w'
           | Fail f => Fail f
           end.

Notation "'let*' x ':=' c 'in' k" := (bind c (fun x => k))
  (at level 10, x pattern, c at level 100, k at level 200).
Notation "c ';;;' k" := (bind c (fun _ => k))
  (at level 100, k at level 200, right associativity).

Definition get : M World := fun w => Done (w, w).
Definition gets {A} (f : UiTree -> A) : M A := fun w => Done (f (g_ui w), w).
Definition modify (f : UiTree -> UiTree) : M unit :=
  fun w => Done (tt, set_g_ui (f (g_ui w)) w).

Definition get_ui : M UiTree := gets (fun u => u).

(** [VERIFY(expr)] *)
Definition VERIFY (b : bool) : M unit :=
  if b then ret tt else fail VerifyFailed.

(** [v[i]] on a [std::vector]: out of range is undefined behaviour. *)
Definition at_ {A} (l : list A) (i : nat) : M A :=
  match l !! i with
  | Some a => ret a
  | None => fail Undefined
  end.

(** The same with an index computed in [size_t]. *)
Definition at_size_t {A} (l : list A) (i : Z) : M A := at_ l (Z.to_nat i).

(** ** 4. Ids and the lookup of an index *)

(** [bool valid_id(UiTree::Id id)] *)
Definition valid_id (id : Id) : bool := (0 <? id) && (id <? size_max - 1).

(** [std::find(v.begin(), v.end(), x) != v.end()] *)
Definition contains_id (ids : list Id) (id : Id) : bool :=
  bool_decide (id ∈ ids).

(** [bool exists_id(UiTree::Id id)] *)
Definition exists_id (id : Id) : M bool :=
  let* ids := gets node_ids in
  ret (valid_id id && contains_id ids id).

(** [for (index = 0; index < size; index++) if (ids[index] == id) break;] *)
Fixpoint scan_ids (ids : list Id) (id : Id) : nat :=
  match ids with
  | [] => 0%nat
  | x :: ids' => if decide (x = id) then 0%nat else S (scan_ids ids' id)
  end.

(** [fingers.id[next & 1] = id; fingers.index[next & 1] = index; next++;] *)
Definition remember (id : Id) (index : nat) (f : Fingers) : Fingers :=
  if decide (Z.land (next f) 1 = 0)
  then {| fingers_id := (id, snd (fingers_id f));
          fingers_index := (index, snd (fingers_index f)); next := next f + 1 |}
  else {| fingers_id := (fst (fingers_id f), id);
          fingers_index := (fst (fingers_index f), index); next := next f + 1 |}.

(** [size_t ui_get_index(UiTree::Id id)] *)
Definition ui_get_index (id : Id) : M nat :=
  VERIFY (valid_id id);;;
  let* w := get in
  let f := fingers w in
  if decide (id = fst (fingers_id f)) then ret (fst (fingers_index f))
  else if decide (id = snd (fingers_id f)) then ret (snd (fingers_index f))
  else
    let index := scan_ids (node_ids (g_ui w)) id in
    VERIFY (bool_decide (index < length (node_ids (g_ui w)))%nat);;;
    (fun w => Done (index, set_fingers (remember id index (fingers w)) w)).

(** [size_t ui_get_parent_index(UiTree::Id id)] *)
Definition ui_get_parent_index (id : Id) : M nat :=
  let* index := ui_get_index id in
  let* parents := gets node_parent in
  let* parent_id := at_ parents index in
  ui_get_index parent_id.

(** ** 5. The tree builder *)

(** [std::find(node_depth.rbegin(), node_depth.rend(), parent_depth)]
    followed by [std::distance(node_depth.rbegin(), parent_pos)]: the
    distance from the last entry to the most recent entry equal to
    [parent_depth], or [None] when the search reaches [rend()]. *)
Definition rfind_depth (depths : list Z) (parent_depth : Z) : option nat :=
  let r := scan_ids (reverse depths) parent_depth in
  if decide (r < length depths)%nat then Some r else None.

(** The walk of [ui_named_element] up the parent links, which adds the
    length of the new name to the [node_text_len] of every ancestor. *)
Fixpoint add_text_len_to_ancestors (fuel : nat) (node_len : Z) (parent_id : Id)
    : M unit :=
  if decide (parent_id = 0) then ret tt
  else match fuel with
       | O => fail OutOfFuel
       | S fuel' =>
           let* parent_index := ui_get_index parent_id in
           let* lens := gets node_text_len in
           let* len := at_ lens parent_index in
           modify (set_node_text_len
                     (<[parent_index := to_size_t (len + node_len)]> lens));;;
           let* parents := gets node_parent in
           let* parent_id' := at_ parents parent_index in
           add_text_len_to_ancestors fuel' node_len parent_id'
       end.

Section Builder.

(** The two functions that the builder takes from the third-party header
    [wyhash.h] are parameters.  [hash name] stands for
    [hash(wcslen(name) * sizeof name[0], name)], that is
    [wyhash(name, num_bytes, 0, _wyp)]. *)
Variable hash : wstring -> Z.
Variable wyhash64 : Z -> Z -> Z.

(** The two lines of [ui_named_element] that make the id of an element:
    the hash of its name, mixed with the id of its parent. *)
Definition make_id (name : wstring) (parent_id : Id) : Id :=
  wyhash64 (hash name) parent_id.

(** The resolution of the parent in [ui_named_element]. *)
Definition resolve_parent : M Id :=
  let* u := get_ui in
  let index := length (node_ids u) in
  let depth := depth_for_adding_element u in
  if decide (depth = 0) then ret 0
  else
    let parent_depth := depth - 1 in
    match rfind_depth (node_depth u) parent_depth with
    | None => fail VerifyFailed
    | Some relative_index =>
        let parent_index :=
          to_size_t (Z.of_nat index - 1 - Z.of_nat relative_index) in
        at_size_t (node_ids u) parent_index
    end.

(** [UiTree::Id ui_named_element(wchar_t const* name, UiTree::Type type)] *)
Definition ui_named_element (name : wstring) (type : UiType) : M Id :=
  let* u := get_ui in
  let index := length (node_ids u) in
  let depth := depth_for_adding_element u in
  let* parent_id := resolve_parent in
  let id := make_id name parent_id in
  VERIFY (valid_id id);;;
  VERIFY (negb (contains_id (node_ids u) id));;;
  modify (push_node id name type depth parent_id);;;
  let* names := gets node_names in
  let* stored := at_ names index in
  let node_len := Z.of_nat (length stored) in
  let* lens := gets node_text_len in
  (if decide (index < length lens)%nat then ret tt else fail Undefined);;;
  modify (set_node_text_len (<[index := node_len]> lens));;;
  let* parents := gets node_parent in
  let* first_parent := at_ parents index in
  add_text_len_to_ancestors (length parents) node_len first_parent;;;
  ret id.

(** [ui_document], [ui_text_paragraph], [ui_pane] *)
Definition ui_document (text : wstring) : M Id := ui_named_element text kDocument.
Definition ui_text_paragraph (text : wstring) : M Id := ui_named_element text kText.
Definition ui_pane (text : wstring) : M Id := ui_named_element text kPane.

(** [ui_button]: [insert_or_assign] assigns in both cases and reports
    whether the key was new, which the [VERIFY] requires. *)
Definition ui_button (text : wstring) (action : Action) : M Id :=
  let* id := ui_named_element text kButton in
  let* acts := gets actions in
  modify (set_actions (<[id := action]> acts));;;
  VERIFY (bool_decide (acts !! id = None));;;
  ret id.

End Builder.

(** [g_ui.depth_for_adding_element++] and [--] *)
Definition depth_inc : M unit :=
  modify (fun u => set_depth_for_adding_element (depth_for_adding_element u + 1) u).
Definition depth_dec : M unit :=
  modify (fun u => set_depth_for_adding_element (depth_for_adding_element u - 1) u).

(** [void ui_set_rect(UiTree::Id id, RECT rect)] *)
Definition ui_set_rect (id : Id) (rect : RECT) : M unit :=
  let* i := ui_get_index id in
  let* rects := gets node_rect in
  let resized := rects ++ replicate (S i - length rects) RECT_zero in
  modify (set_node_rect (<[i := rect]> resized)).

(** ** 6. Element providers *)

(** What a client holds after a query: the root provider or the
    [AnyElementProvider] with the given [id] field. *)
Inductive Fragment :=
  | RootProvider
  | AnyElementProvider (id : Id).

Inductive HRESULT :=
  | S_OK | E_POINTER | E_INVALIDARG | E_NOTIMPL | E_UNEXPECTED
  | E_OUTOFMEMORY | E_ACCESSDENIED | E_NOINTERFACE.

Global Instance HRESULT_eq_dec : EqDecision HRESULT.
Proof. solve_decision. Defined.

(** [ULONG] arithmetic of [AddRef] and [Release]. *)
Definition AddRef (id : Id) : M unit :=
  modify (fun u => set_providers (alter (fun rc => (rc + 1) mod 2 ^ 32) id (providers u)) u).
Definition Release (id : Id) : M unit :=
  modify (fun u => set_providers (alter (fun rc => (rc - 1) mod 2 ^ 32) id (providers u)) u).

(** [IRawElementProviderFragment* create_element_provider(UiTree::Id element_id)] *)
Definition create_element_provider (element_id : Id) : M Fragment :=
  let* e := exists_id element_id in
  VERIFY e;;;
  let* cache := gets providers in
  match cache !! element_id with
  | Some _ => AddRef element_id;;; ret (AnyElementProvider element_id)
  | None =>
      modify (set_providers (<[element_id := 1]> cache));;;
      AddRef element_id;;;
      ret (AnyElementProvider element_id)
  end.

(** [IRawElementProviderSimple* create_simple_element_provider(UiTree::Id element_id)]:
    the provider is made for [g_ui.focused_id]; [QueryInterface] adds a
    reference that [p->Release()] gives back. *)
Definition create_simple_element_provider (element_id : Id) : M Fragment :=
  let* focused := gets focused_id in
  let* p := create_element_provider focused in
  AddRef focused;;;
  Release focused;;;
  ret p.

Definition fragment_id (p : Fragment) : Id :=
  match p with
  | RootProvider => 0
  | AnyElementProvider id => id
  end.

(** ** 7. The focus manager *)

(** [UiaRaiseAutomationEvent(sp, event)] *)
Definition UiaRaiseAutomationEvent (sp : Fragment) (e : EventId) : M unit :=
  fun w => Done (tt, add_raised (e, fragment_id sp) w).

(** [void ui_set_focus_to(UiTree::Id id)] *)
Definition ui_set_focus_to (id : Id) : M unit :=
  let* focused := gets focused_id in
  if decide (id = focused) then ret tt
  else
    modify (set_focused_id id);;;
    let* w := get in
    if clients_listening w then
      let* focused' := gets focused_id in
      let* sp := create_simple_element_provider focused' in
      UiaRaiseAutomationEvent sp UIA_AutomationFocusChangedEventId;;;
      Release (fragment_id sp)
    else ret tt.

(** [void ui_focus_next()] *)
Definition ui_focus_next : M unit :=
  let* focused := gets focused_id in
  let* index := ui_get_index focused in
  let* ids := gets node_ids in
  if decide (to_size_t (Z.of_nat (length ids) - 1) <= Z.of_nat index) then ret tt
  else
    let index := S index in
    let* id := at_ ids index in
    ui_set_focus_to id.

(** [void ui_focus_prev()] *)
Definition ui_focus_prev : M unit :=
  let* focused := gets focused_id in
  let* index := ui_get_index focused in
  let* ids := gets node_ids in
  if decide (Z.of_nat index <= 0) then ret tt
  else
    let index := pred index in
    let* id := at_ ids index in
    ui_set_focus_to id.

(** ** 8. The tree described by [ui_describe] *)

Definition kEnableUiRects : bool := false.

Definition when (b : bool) (c : M unit) : M unit := if b then c else ret tt.

(** The lambda [extend] of [ui_describe]. *)
Definition extend (r : RECT) (p : POINT) : RECT :=
  {| left := Z.min (left r) (px p); top := Z.min (top r) (py p);
     right := Z.max (right r) (px p); bottom := Z.max (bottom r) (py p) |}.

Section Describe.

Variable hash : wstring -> Z.
Variable wyhash64 : Z -> Z -> Z.

(** The body of [ui_describe], for a value [k] of the constant
    [kEnableUiRects]. *)
Definition ui_describe_with (k : bool) : M unit :=
  let width := 1200 in
  let height := 20 in
  let x := 0 in
  let y := 0 in
  let* pane := ui_pane hash wyhash64 (L "Main") in
  let pane_rect := mkRECT x y (x + width) y in
  let x := if k then x + 10 else x in
  depth_inc;;;
  let* document := ui_document hash wyhash64 (L "Main") in
  let document_rect := pane_rect in
  let x := if k then x + 10 else x in
  depth_inc;;;
  let* id := ui_text_paragraph hash wyhash64 (L "This is the first paragraph.") in
  let fid := id in
  when k (ui_set_rect id (mkRECT x y (x + width) (y + height)));;;
  let y := if k then y + height else y in
  let* id := ui_text_paragraph hash wyhash64 (L "Hello, Dreamer of dreams.") in
  when k (ui_set_rect id (mkRECT x y (x + width) (y + height)));;;
  let y := if k then y + height else y in
  let* id := ui_text_paragraph hash wyhash64 (L "Yet another paragraph") in
  when k (ui_set_rect id (mkRECT x y (x + width) (y + height)));;;
  let y := if k then y + height else y in
  depth_dec;;;
  let x := if k then x - 10 else x in
  let document_rect := if k then extend document_rect (mkPOINT x y) else document_rect in
  when k (ui_set_rect document document_rect);;;
  let* id := ui_button hash wyhash64 (L "Minimize Application") MinimizeApplication in
  when k (ui_set_rect id (mkRECT x y (x + width) (y + height)));;;
  let y := if k then y + height else y in
  let* id := ui_button hash wyhash64 (L "Close Application") CloseApplication in
  when k (ui_set_rect id (mkRECT x y (x + width) (y + height)));;;
  let y := if k then y + height else y in
  depth_dec;;;
  let x := if k then x - 10 else x in
  let pane_rect := if k then extend pane_rect (mkPOINT x y) else pane_rect in
  when k (ui_set_rect pane pane_rect);;;
  let* u := get_ui in
  if decide (focused_id u = 0 /\ node_ids u <> []) then ui_set_focus_to fid
  else ret tt.

(** [void ui_describe()] *)
Definition ui_describe : M unit := ui_describe_with kEnableUiRects.

End Describe.

(** ** 9. The hit tester *)

(** The loop of [RootProvider::ElementProviderFromPoint] over
    [g_ui.node_rect], from position [i] on.  The point is in client
    coordinates; a [double] that is a number is a rational. *)
Definition Qltb (a b : Q) : bool := negb (Qle_bool b a).

Fixpoint locate_from (u : UiTree) (x y : Q) (rects : list RECT) (i : nat)
    (depth : Z) (id : Id) : outcome (Z * Id) :=
  match rects with
  | [] => Done (depth, id)
  | r :: rects' =>
      let continue := locate_from u x y rects' (S i) depth id in
      match node_depth u !! i with
      | None => Fail Undefined
      | Some d =>
          if decide (d < depth) then continue
          else if Qltb y (inject_Z (top r)) then continue
          else if Qle_bool (inject_Z (bottom r)) y then continue
          else if Qltb x (inject_Z (left r)) then continue
          else if Qle_bool (inject_Z (right r)) x then continue
          else match node_ids u !! i with
               | None => Fail Undefined
               | Some nid => locate_from u x y rects' (S i) d nid
               end
      end
  end.

(** The element found under a point given in client coordinates. *)
Definition locate (u : UiTree) (x y : Q) : outcome (Z * Id) :=
  locate_from u x y (node_rect u) 0 0 0.

(** [HRESULT RootProvider::ElementProviderFromPoint(double x, double y,
    IRawElementProviderFragment** pRetVal)].  [pRetVal] is [None] for a null
    pointer and else holds the content of the slot; [LeftTop] is what
    [ClientToScreen] answers for the origin of the window.  The
    subtraction of the origin is exact here, where the code rounds it to
    a [double]: the two agree on the points with whole-number coordinates
    of a magnitude below [2^53]; a NaN is not a point. *)
Definition ElementProviderFromPoint (LeftTop : POINT) (x y : Q)
    (pRetVal : option (option Fragment)) : M (HRESULT * option (option Fragment)) :=
  match pRetVal with
  | None => ret (E_POINTER, None)
  | Some _ =>
      let x := (x - inject_Z (px LeftTop))%Q in
      let y := (y - inject_Z (py LeftTop))%Q in
      let* u := get_ui in
      match locate u x y with
      | Fail f => fail f
      | Done (depth, id) =>
          if decide (id <> 0) then
            let* focused := gets focused_id in
            let* p := create_element_provider focused in
            ret (S_OK, Some (Some p))
          else ret (S_OK, Some (Some RootProvider))
      end
  end.

(** ** 10. Text points, text ranges and [std::wstring] *)

(** [struct TextPoint], with its fields [id] and [offset]. *)
Record TextPoint := mkTextPoint { point_id : Id; point_offset : Z }.

(** The fields [start] and [end] of [struct AnyElementTextRangeProvider]. *)
Record AnyElementTextRangeProvider := mkRange { start : TextPoint; end_ : TextPoint }.

Global Instance TextPoint_eq_dec : EqDecision TextPoint.
Proof. solve_decision. Defined.
Global Instance AnyElementTextRangeProvider_eq_dec : EqDecision AnyElementTextRangeProvider.
Proof. solve_decision. Defined.

(** [ITextRangeProvider* create_text_range(TextPoint start, TextPoint end)] *)
Definition create_text_range (s e : TextPoint) : AnyElementTextRangeProvider :=
  {| start := s; end_ := e |}.

Inductive TextUnit :=
  | TextUnit_Character | TextUnit_Format | TextUnit_Word | TextUnit_Line
  | TextUnit_Paragraph | TextUnit_Page | TextUnit_Document.

(** The search of [std::wstring::find] in the suffix [s] that starts at
    position [p]. *)
Fixpoint find_in_suffix (s needle : wstring) (p : nat) : option nat :=
  if decide (take (length needle) s = needle) then Some p
  else match s with
       | [] => None
       | _ :: s' => find_in_suffix s' needle (S p)
       end.

(** [s.find(needle, pos)], with [None] for [npos]. *)
Definition wstring_find (s needle : wstring) (pos : Z) : option nat :=
  if decide (Z.of_nat (length s) < pos) then None
  else find_in_suffix (drop (Z.to_nat pos) s) needle (Z.to_nat pos).

(** [std::wstring(wchar_t const* s)]: the characters of [s] before its
    first null character. *)
Fixpoint wstring_of_c_str (s : wstring) : wstring :=
  match s with
  | [] => []
  | c :: s' => if decide (c = 0) then [] else c :: wstring_of_c_str s'
  end.

(** [text.append(s, pos, len)], which throws when [pos > s.size()]. *)
Definition wstring_append (text s : wstring) (pos len : Z) : M wstring :=
  if decide (Z.of_nat (length s) < pos) then fail OutOfRange
  else ret (text ++ take (Z.to_nat len) (drop (Z.to_nat pos) s)).

(** ** 11. The text range provider *)

(** [VARIANT], with the types of value that the providers store. *)
Inductive VARIANT :=
  | VT_EMPTY
  | VT_BSTR (bstrVal : wstring)
  | VT_I4 (lVal : Z)
  | VT_BOOL (boolVal : bool).

Global Instance VARIANT_eq_dec : EqDecision VARIANT.
Proof. solve_decision. Defined.

Definition AddToSelection (this : AnyElementTextRangeProvider) : HRESULT := E_UNEXPECTED.
Definition RemoveFromSelection (this : AnyElementTextRangeProvider) : HRESULT := E_NOTIMPL.
Definition Select (this : AnyElementTextRangeProvider) : HRESULT := E_NOTIMPL.
Definition ScrollIntoView (this : AnyElementTextRangeProvider) (alignToTop : bool) : HRESULT :=
  E_NOTIMPL.

(** [HRESULT AnyElementTextRangeProvider::FindAttribute(TEXTATTRIBUTEID attributeId,
    VARIANT val, BOOL backward, ITextRangeProvider** pRetVal)]: the
    result and the content of the slot [pRetVal] afterwards. *)
Definition FindAttribute (this : AnyElementTextRangeProvider) (attributeId : Z)
    (val : VARIANT) (backward : bool)
    (pRetVal : option (option AnyElementTextRangeProvider))
    : HRESULT * option (option AnyElementTextRangeProvider) :=
  (E_NOTIMPL, pRetVal).

(** [HRESULT AnyElementTextRangeProvider::GetAttributeValue(TEXTATTRIBUTEID attributeId,
    VARIANT* pRetVal)] *)
Definition GetAttributeValue (this : AnyElementTextRangeProvider) (attributeId : Z)
    (pRetVal : option VARIANT) : HRESULT * option VARIANT :=
  (E_NOTIMPL, pRetVal).
Definition MoveEndpointByRange (this : AnyElementTextRangeProvider) : HRESULT := E_NOTIMPL.
Definition MoveEndpointByUnit (this : AnyElementTextRangeProvider) (unit : TextUnit)
    (count : Z) : HRESULT := E_NOTIMPL.

(** [HRESULT AnyElementTextRangeProvider::Clone(ITextRangeProvider** pRetVal)] *)
Definition Clone (this : AnyElementTextRangeProvider)
    (pRetVal : option (option AnyElementTextRangeProvider))
    : HRESULT * option (option AnyElementTextRangeProvider) :=
  match pRetVal with
  | None => (E_POINTER, None)
  | Some _ => (S_OK, Some (Some (create_text_range (start this) (end_ this))))
  end.

(** The loop of [FindText]; the result is the content of [*pRetVal]. *)
Fixpoint FindText_loop (fuel : nat) (search_text : wstring) (end_id : Id)
    (end_offset : Z) (id : Id) (offset : Z) : M (option AnyElementTextRangeProvider) :=
  match fuel with
  | O => fail OutOfFuel
  | S fuel' =>
      let* i := ui_get_index id in
      let* names := gets node_names in
      let* name := at_ names i in
      let pos := wstring_find name search_text (to_size_t offset) in
      let size := Z.of_nat (length search_text) in
      let reached_end :=
        if decide (id = end_id) then
          match pos with
          | None => true
          | Some p => bool_decide (to_size_t end_offset <= to_size_t (Z.of_nat p + size))
          end
        else false in
      let found :=
        match pos with
        | Some p =>
            if reached_end then None
            else Some (create_text_range
                         {| point_id := id; point_offset := to_int (Z.of_nat p) |}
                         {| point_id := id; point_offset := to_int (to_size_t (Z.of_nat p + size)) |})
        | None => None
        end in
      let* ids := gets node_ids in
      if decide (i + 1 < length ids)%nat then
        let* id' := at_ ids (i + 1) in
        if reached_end || bool_decide (is_Some found) then ret found
        else FindText_loop fuel' search_text end_id end_offset id' 0
      else ret found
  end.

(** [HRESULT AnyElementTextRangeProvider::FindText(BSTR text, BOOL backward,
    BOOL ignoreCase, ITextRangeProvider** pRetVal)]: [text] holds the
    characters of the [BSTR], of which [std::wstring search_text = text]
    keeps those before the first null. *)
Definition FindText (this : AnyElementTextRangeProvider) (text : option wstring)
    (backward ignoreCase : bool) (pRetVal : option (option AnyElementTextRangeProvider))
    : M (HRESULT * option (option AnyElementTextRangeProvider)) :=
  match pRetVal, text with
  | None, _ => ret (E_POINTER, pRetVal)
  | Some _, None => ret (E_POINTER, pRetVal)
  | Some _, Some text =>
      if backward then ret (E_NOTIMPL, pRetVal)
      else if ignoreCase then ret (E_NOTIMPL, pRetVal)
      else
        let search_text := wstring_of_c_str text in
        let* ids := gets node_ids in
        let* r := FindText_loop (S (length ids)) search_text
                    (point_id (end_ this)) (point_offset (end_ this))
                    (point_id (start this)) (point_offset (start this)) in
        ret (S_OK, Some r)
  end.

(** The loop of [GetText]. *)
Fixpoint GetText_loop (fuel : nat) (this : AnyElementTextRangeProvider) (id : Id)
    (offset : Z) (text : wstring) : M wstring :=
  match fuel with
  | O => fail OutOfFuel
  | S fuel' =>
      let* i := ui_get_index id in
      let* names := gets node_names in
      let* name := at_ names i in
      let len := if decide (id = point_id (end_ this))
                 then to_size_t (point_offset (end_ this) - offset)
                 else Z.of_nat (length name) in
      let* text := wstring_append text name (to_size_t offset) len in
      let* ids := gets node_ids in
      if decide (id = point_id (end_ this)) then ret text
      else if decide (length ids <= i + 1)%nat then ret text
      else
        let* id' := at_ ids (i + 1) in
        GetText_loop fuel' this id' 0 text
  end.

(** [HRESULT AnyElementTextRangeProvider::GetText(int maxLength, BSTR* pRetVal)];
    the length handed to [SysAllocStringLen] is a [UINT]. *)
Definition GetText (this : AnyElementTextRangeProvider) (maxLength : Z)
    (pRetVal : option (option wstring)) : M (HRESULT * option (option wstring)) :=
  match pRetVal with
  | None => ret (E_POINTER, None)
  | Some _ =>
      let* ids := gets node_ids in
      let* text := GetText_loop (S (length ids)) this (point_id (start this))
                     (point_offset (start this)) [] in
      let size := Z.of_nat (length text) in
      let normalized_max_len := if decide (maxLength < 0) then size else to_size_t maxLength in
      let str := take (Z.to_nat (Z.min size normalized_max_len mod 2 ^ 32)) text in
      ret (S_OK, Some (Some str))
  end.

(** The first loops of [Move]: up the parent links, from [id] at [index],
    to an element of the type of the unit. *)
Fixpoint Move_normalize (fuel : nat) (type : UiType) (id : Id) (index : nat) : M Id :=
  if decide (id = 0) then ret id
  else
    let* types := gets node_type in
    let* t := at_ types index in
    if decide (t = type) then ret id
    else match fuel with
         | O => fail OutOfFuel
         | S fuel' =>
             let* parents := gets node_parent in
             let* id' := at_ parents index in
             let* index' := ui_get_index id' in
             Move_normalize fuel' type id' index'
         end.

(** [struct AdvanceResult] *)
Record AdvanceResult := mkAdvance { new_id : Id; steps_taken : Z }.

(** The [while] loop of the lambda [advance_by_type]. *)
Fixpoint advance_loop (fuel : nat) (type : UiType) (num_steps iinc : Z)
    (i : Z) (id : Id) (steps : Z) : M (Id * Z) :=
  let* ids := gets node_ids in
  if decide (0 <= i /\ i < Z.of_nat (length ids) /\ steps < num_steps) then
    match fuel with
    | O => fail OutOfFuel
    | S fuel' =>
        let* types := gets node_type in
        let* t := at_ types (Z.to_nat i) in
        if decide (t = type) then
          let* id' := at_ ids (Z.to_nat i) in
          advance_loop fuel' type num_steps iinc (i + iinc) id' (steps + 1)
        else advance_loop fuel' type num_steps iinc (i + iinc) id steps
    end
  else ret (id, steps).

(** The lambda [advance_by_type] of [Move]: [abs] of the least [int] is
    undefined, as is the division by a [num_steps] of [0]. *)
Definition advance_by_type (id : Id) (signed_count : Z) (type : UiType) : M AdvanceResult :=
  let* index := ui_get_index id in
  let* types := gets node_type in
  let* t := at_ types index in
  VERIFY (bool_decide (t = type));;;
  if decide (signed_count = - 2 ^ 31) then fail Undefined
  else
  let num_steps := Z.abs signed_count in
  if decide (num_steps = 0) then fail Undefined
  else
    let iinc := Z.quot signed_count num_steps in
    let* ids := gets node_ids in
    let* r := advance_loop (S (length ids)) type num_steps iinc (Z.of_nat index) id 0 in
    ret {| new_id := fst r; steps_taken := iinc * snd r |}.

(** The type of element that stands for a unit, for the units that [Move]
    handles by elements. *)
Definition unit_type (unit : TextUnit) : option UiType :=
  match unit with
  | TextUnit_Document => Some kDocument
  | TextUnit_Paragraph => Some kText
  | _ => None
  end.

(** [HRESULT AnyElementTextRangeProvider::Move(TextUnit unit, int count, int* pRetVal)]:
    the result, the range afterwards and the content of the slot [pRetVal]
    afterwards. *)
Definition Move (this : AnyElementTextRangeProvider) (unit : TextUnit) (count : Z)
    (pRetVal : option Z) : M (HRESULT * AnyElementTextRangeProvider * option Z) :=
  match pRetVal with
  | None => ret (E_POINTER, this, pRetVal)
  | Some _ =>
      if decide (start this = end_ this) then ret (S_OK, this, pRetVal)
      else
        let this_id := point_id (start this) in
        let this_offset := point_offset (start this) in
        match unit with
        | TextUnit_Line | TextUnit_Word | TextUnit_Character | TextUnit_Format =>
            ret (E_NOTIMPL, this, pRetVal)
        | _ =>
            let* ids := gets node_ids in
            let* this_id :=
              match unit_type unit with
              | Some type =>
                  let* index := ui_get_index this_id in
                  let* id := Move_normalize (length ids) type this_id index in
                  if decide (id <> 0) then ret id else ret this_id
              | None => ret this_id
              end in
            let* advance :=
              match unit_type unit with
              | Some type => advance_by_type this_id count type
              | None => ret {| new_id := this_id; steps_taken := 0 |}
              end in
            let new_start := {| point_id := new_id advance; point_offset := 0 |} in
            let* index := ui_get_index (point_id new_start) in
            let* lens := gets node_text_len in
            let* len := at_ lens index in
            let new_end := {| point_id := point_id new_start; point_offset := to_int len |} in
            ret (S_OK, {| start := new_start; end_ := new_end |}, pRetVal)
        end
  end.

(** [bool ui_is_ancestor(UiTree::Id candidate_ancestor_id, UiTree::Id of_id)],
    from the current [id] on. *)
Fixpoint ui_is_ancestor_from (fuel : nat) (candidate_ancestor_id id : Id) : M bool :=
  if decide (id = 0) then ret false
  else match fuel with
       | O => fail OutOfFuel
       | S fuel' =>
           let* index := ui_get_index id in
           let* parents := gets node_parent in
           let* parent_id := at_ parents index in
           if decide (parent_id = candidate_ancestor_id) then ret true
           else ui_is_ancestor_from fuel' candidate_ancestor_id parent_id
       end.

Definition ui_is_ancestor (candidate_ancestor_id of_id : Id) : M bool :=
  let* ids := gets node_ids in
  ui_is_ancestor_from (S (length ids)) candidate_ancestor_id of_id.

(** [while (node_depth[i] < node_depth[j]) { i = ui_get_parent_index(start_id);
    start_id = node_ids[i]; }]: the result is the final [i] and [start_id]. *)
Fixpoint lift_while_shallower (fuel : nat) (i j : nat) (start_id : Id) : M (nat * Id) :=
  let* depths := gets node_depth in
  let* di := at_ depths i in
  let* dj := at_ depths j in
  if decide (di < dj) then
    match fuel with
    | O => fail OutOfFuel
    | S fuel' =>
        let* i' := ui_get_parent_index start_id in
        let* ids := gets node_ids in
        let* start_id' := at_ ids i' in
        lift_while_shallower fuel' i' j start_id'
    end
  else ret (i, start_id).

(** [while (start_id != end_id) { ... }] of [GetEnclosingElement]. *)
Fixpoint lift_both (fuel : nat) (start_id end_id : Id) : M Id :=
  if decide (start_id <> end_id) then
    match fuel with
    | O => fail OutOfFuel
    | S fuel' =>
        let* i := ui_get_parent_index start_id in
        let* ids := gets node_ids in
        let* start_id' := at_ ids i in
        let* j := ui_get_parent_index end_id in
        let* ids := gets node_ids in
        let* end_id' := at_ ids j in
        lift_both fuel' start_id' end_id'
    end
  else ret start_id.

(** [HRESULT AnyElementTextRangeProvider::GetEnclosingElement(
    IRawElementProviderSimple** pRetVal)] *)
Definition GetEnclosingElement (this : AnyElementTextRangeProvider)
    (pRetVal : option (option Fragment)) : M (HRESULT * option (option Fragment)) :=
  match pRetVal with
  | None => ret (E_POINTER, None)
  | Some _ =>
      if decide (point_id (start this) = point_id (end_ this)) then
        let* sp := create_simple_element_provider (point_id (start this)) in
        ret (S_OK, Some (Some sp))
      else
        let start_id := point_id (start this) in
        let end_id := point_id (end_ this) in
        let* i := ui_get_index start_id in
        let* j := ui_get_index end_id in
        let* ids := gets node_ids in
        let* (i, start_id) := lift_while_shallower (S (length ids)) i j start_id in
        let* (j, end_id) := lift_while_shallower (S (length ids)) j i end_id in
        let* depths := gets node_depth in
        let* di := at_ depths i in
        let* dj := at_ depths j in
        VERIFY (bool_decide (di = dj));;;
        let* enclosing_id := lift_both (S (length ids)) start_id end_id in
        let* a := ui_is_ancestor enclosing_id (point_id (start this)) in
        VERIFY a;;;
        let* b := ui_is_ancestor enclosing_id (point_id (end_ this)) in
        VERIFY b;;;
        let* sp := create_simple_element_provider enclosing_id in
        ret (S_OK, Some (Some sp))
  end.

(** The loop of [GetChildren]; [offset] stays what it is at the start. *)
Fixpoint GetChildren_loop (fuel : nat) (this : AnyElementTextRangeProvider) (id : Id)
    (offset : Z) (children : list Fragment) : M (list Fragment) :=
  match fuel with
  | O => fail OutOfFuel
  | S fuel' =>
      let* i := ui_get_index id in
      let* children :=
        (if decide (offset = 0) then
           let* focused := gets focused_id in
           let* sp := create_simple_element_provider focused in
           ret (children ++ [sp])
         else ret children) in
      let* ids := gets node_ids in
      if decide (id = point_id (end_ this)) then ret children
      else if decide (length ids <= i + 1)%nat then ret children
      else
        let* id' := at_ ids (i + 1) in
        GetChildren_loop fuel' this id' offset children
  end.

(** [HRESULT AnyElementTextRangeProvider::GetChildren(SAFEARRAY** pRetVal)]:
    the loop runs before the pointer is looked at. *)
Definition GetChildren (this : AnyElementTextRangeProvider)
    (pRetVal : option (option (list Fragment)))
    : M (HRESULT * option (option (list Fragment))) :=
  let* ids := gets node_ids in
  let* children := GetChildren_loop (S (length ids)) this (point_id (start this))
                     (point_offset (start this)) [] in
  match pRetVal with
  | None => ret (E_POINTER, None)
  | Some _ => ret (S_OK, Some (Some children))
  end.

(** ** 12. Well-formed stores *)

(** The entries of the two-entry cache of [ui_get_index] agree with
    [node_ids]; an entry with id [0] is never hit. *)
Definition finger_ok (ids : list Id) (id : Id) (index : nat) : Prop :=
  id = 0 \/ (ids !! index = Some id /\ scan_ids ids id = index).

Definition fingers_ok (w : World) : Prop :=
  finger_ok (node_ids (g_ui w)) (fst (fingers_id (fingers w))) (fst (fingers_index (fingers w)))
  /\ finger_ok (node_ids (g_ui w)) (snd (fingers_id (fingers w))) (snd (fingers_index (fingers w))).

(** The columns of the store have one length. *)
Record aligned (u : UiTree) : Prop := mkAligned {
  aligned_names : length (node_names u) = length (node_ids u);
  aligned_type : length (node_type u) = length (node_ids u);
  aligned_parent : length (node_parent u) = length (node_ids u);
  aligned_depth : length (node_depth u) = length (node_ids u);
  aligned_text_len : length (node_text_len u) = length (node_ids u);
  aligned_rect : length (node_rect u) = length (node_ids u);
}.

(** The number of nodes is one that a [size_t] holds. *)
Definition countable_nodes (u : UiTree) : Prop :=
  Z.of_nat (length (node_ids u)) < size_max.

(** Ids are valid and pairwise different; a parent is the root or an
    earlier node; depths are not negative. *)
Record linked (u : UiTree) : Prop := mkLinked {
  linked_valid : Forall (fun id => valid_id id = true) (node_ids u);
  linked_nodup : NoDup (node_ids u);
  linked_parent : forall j p, node_parent u !! j = Some p ->
      p = 0 \/ exists k, (k < j)%nat /\ node_ids u !! k = Some p;
  linked_depth : Forall (fun d => 0 <= d) (node_depth u);
}.

(** The sum of [node_text_len] over the nodes whose parent is [id]. *)
Fixpoint children_text_len (parents : list Id) (lens : list Z) (id : Id) : Z :=
  match parents, lens with
  | p :: parents', l :: lens' =>
      (if decide (p = id) then l else 0) + children_text_len parents' lens' id
  | _, _ => 0
  end.

(** The length of all names together. *)
Definition total_name_len (names : list wstring) : Z :=
  foldr (fun name acc => Z.of_nat (length name) + acc) 0 names.

(** Text aggregation at the node of position [i]. *)
Definition aggregated_at (u : UiTree) (i : nat) : Prop :=
  forall id name len,
    node_ids u !! i = Some id -> node_names u !! i = Some name ->
    node_text_len u !! i = Some len ->
    len = Z.of_nat (length name) + children_text_len (node_parent u) (node_text_len u) id.

Definition aggregated (u : UiTree) : Prop :=
  total_name_len (node_names u) < size_max ->
  (forall i, aggregated_at u i)
  /\ Forall (fun len => 0 <= len <= total_name_len (node_names u)) (node_text_len u).

Record well_formed (w : World) : Prop := mkWellFormed {
  wf_aligned : aligned (g_ui w);
  wf_linked : linked (g_ui w);
  wf_fingers : fingers_ok w;
  wf_aggregated : aggregated (g_ui w);
}.

(** What a step that only reads the tree may change: the cache of
    [ui_get_index] and the reference counts of the providers. *)
Record same_tree (w w' : World) : Prop := mkSameTree {
  same_ids : node_ids (g_ui w') = node_ids (g_ui w);
  same_names : node_names (g_ui w') = node_names (g_ui w);
  same_type : node_type (g_ui w') = node_type (g_ui w);
  same_parent : node_parent (g_ui w') = node_parent (g_ui w);
  same_depth : node_depth (g_ui w') = node_depth (g_ui w);
  same_text_len : node_text_len (g_ui w') = node_text_len (g_ui w);
  same_rect : node_rect (g_ui w') = node_rect (g_ui w);
  same_actions : actions (g_ui w') = actions (g_ui w);
  same_focused : focused_id (g_ui w') = focused_id (g_ui w);
  same_adding : depth_for_adding_element (g_ui w') = depth_for_adding_element (g_ui w);
  same_listening : clients_listening w' = clients_listening w;
  same_raised : raised w' = raised w;
  same_fingers_ok : fingers_ok w -> fingers_ok w';
}.

(** ** 13. A run of the engine *)

(** A stand-in for the two functions of [wyhash.h], to run the engine on
    an example. *)
Definition demo_hash (name : wstring) : Z :=
  foldl (fun acc c => (acc * 131 + c) mod 2 ^ 61) 7 name.
Definition demo_wyhash64 (a b : Z) : Z := (a + 7919 * b) mod 2 ^ 62 + 1.

(** The state a computation ends in, and its result. *)
Definition state_after {A} (c : M A) (w : World) : World :=
  match c w with
  | Done (_, w') => w'
  | Fail _ => w
  end.
Definition result_of {A} (c : M A) (w : World) : option A :=
  match c w with
  | Done (a, _) => Some a
  | Fail _ => None
  end.

(** The state after [ui_describe], at program start, without a client. *)
Definition described : World :=
  state_after (ui_describe demo_hash demo_wyhash64) (World0 false).

(** The id of the node at a position, [0] past the end. *)
Definition id_at (w : World) (i : nat) : Id := default 0 (node_ids (g_ui w) !! i).

Global Instance finger_ok_dec ids id index : Decision (finger_ok ids id index).
Proof. unfold finger_ok. apply _. Defined.
Global Instance fingers_ok_dec w : Decision (fingers_ok w).
Proof. unfold fingers_ok. apply _. Defined.

(** The described tree with the focus on its last and on its first node. *)
Definition described_focus_last : World :=
  state_after (ui_set_focus_to (id_at described 6)) described.
Definition described_focus_first : World :=
  state_after (ui_set_focus_to (id_at described 0)) described.

(** A computation that leaves the tree as it is. *)
Definition keeps_tree {A} (c : M A) : Prop :=
  forall w a w', c w = Done (a, w') -> same_tree w w'.

(** ** 14. Requests that the engine does not implement *)

(** The requests to a text range that the specification lists as not
    implemented on purpose, each with its arguments and the content of
    its output slot. *)
Inductive Request :=
  | Request_FindText (text : option wstring) (backward ignoreCase : bool)
      (pRetVal : option (option AnyElementTextRangeProvider))
  | Request_Move (unit : TextUnit) (count : Z) (pRetVal : option Z)
  | Request_GetAttributeValue (attributeId : Z) (pRetVal : option VARIANT)
  | Request_FindAttribute (attributeId : Z) (val : VARIANT) (backward : bool)
      (pRetVal : option (option AnyElementTextRangeProvider))
  | Request_AddToSelection
  | Request_RemoveFromSelection
  | Request_Select.

(** What the range [this] answers to a request: the [HRESULT], the range
    afterwards, and the request with the content of its output slot
    afterwards. *)
Definition answer (req : Request) (this : AnyElementTextRangeProvider)
    : M (HRESULT * AnyElementTextRangeProvider * Request) :=
  match req with
  | Request_FindText text backward ignoreCase pRetVal =>
      let* r := FindText this text backward ignoreCase pRetVal in
      ret (fst r, this, Request_FindText text backward ignoreCase (snd r))
  | Request_Move unit count pRetVal =>
      let* r := Move this unit count pRetVal in
      ret (fst (fst r), snd (fst r), Request_Move unit count (snd r))
  | Request_GetAttributeValue attributeId pRetVal =>
      let r := GetAttributeValue this attributeId pRetVal in
      ret (fst r, this, Request_GetAttributeValue attributeId (snd r))
  | Request_FindAttribute attributeId val backward pRetVal =>
      let r := FindAttribute this attributeId val backward pRetVal in
      ret (fst r, this, Request_FindAttribute attributeId val backward (snd r))
  | Request_AddToSelection => ret (AddToSelection this, this, req)
  | Request_RemoveFromSelection => ret (RemoveFromSelection this, this, req)
  | Request_Select => ret (Select this, this, req)
  end.

(** Backward or case-insensitive [FindText], [Move] by word, line,
    character or format, attribute lookup and selection mutation. *)
Definition deliberately_unsupported (req : Request) : bool :=
  match req with
  | Request_FindText _ backward ignoreCase _ => backward || ignoreCase
  | Request_Move unit _ _ =>
      match unit with
      | TextUnit_Word | TextUnit_Line | TextUnit_Character | TextUnit_Format => true
      | _ => false
      end
  | _ => true
  end.

(** The request comes with the pointers it needs and, for [Move], on a
    range that is not degenerate. *)
Definition reaches_the_engine (req : Request) (this : AnyElementTextRangeProvider) : bool :=
  match req with
  | Request_FindText text _ _ pRetVal => bool_decide (is_Some text /\ is_Some pRetVal)
  | Request_Move _ _ pRetVal => bool_decide (is_Some pRetVal /\ start this <> end_ this)
  | _ => true
  end.

(** A degenerate range at the root. *)
Definition empty_range : AnyElementTextRangeProvider :=
  {| start := {| point_id := 0; point_offset := 0 |};
     end_ := {| point_id := 0; point_offset := 0 |} |}.

(** The range over the whole name of the node at a position. *)
Definition whole_node (w : World) (i : nat) : AnyElementTextRangeProvider :=
  {| start := {| point_id := id_at w i; point_offset := 0 |};
     end_ := {| point_id := id_at w i;
                point_offset := Z.of_nat (length (default [] (node_names (g_ui w) !! i))) |} |}.

(** What the walk up the ancestors may change besides the cache: the
    values of [node_text_len]. *)
Record same_nodes (w w' : World) : Prop := mkSameNodes {
  sn_ids : node_ids (g_ui w') = node_ids (g_ui w);
  sn_names : node_names (g_ui w') = node_names (g_ui w);
  sn_type : node_type (g_ui w') = node_type (g_ui w);
  sn_parent : node_parent (g_ui w') = node_parent (g_ui w);
  sn_depth : node_depth (g_ui w') = node_depth (g_ui w);
  sn_text_len : length (node_text_len (g_ui w')) = length (node_text_len (g_ui w));
  sn_rect : node_rect (g_ui w') = node_rect (g_ui w);
  sn_actions : actions (g_ui w') = actions (g_ui w);
  sn_providers : providers (g_ui w') = providers (g_ui w);
  sn_focused : focused_id (g_ui w') = focused_id (g_ui w);
  sn_adding : depth_for_adding_element (g_ui w') = depth_for_adding_element (g_ui w);
  sn_listening : clients_listening w' = clients_listening w;
  sn_raised : raised w' = raised w;
  sn_fingers_ok : fingers_ok w -> fingers_ok w';
}.

(** The most recent node at a depth. *)
Definition most_recent_at_depth (depths : list Z) (d : Z) (k : nat) : Prop :=
  depths !! k = Some d /\ forall j, (k < j)%nat -> depths !! j <> Some d.

(** What [ui_named_element] does to the store: one node more, at the end. *)
Record node_added (id : Id) (name : wstring) (type : UiType) (depth : Z)
    (parent_id : Id) (w w' : World) : Prop := mkNodeAdded {
  na_ids : node_ids (g_ui w') = node_ids (g_ui w) ++ [id];
  na_names : node_names (g_ui w') = node_names (g_ui w) ++ [name];
  na_type : node_type (g_ui w') = node_type (g_ui w) ++ [type];
  na_parent : node_parent (g_ui w') = node_parent (g_ui w) ++ [parent_id];
  na_depth : node_depth (g_ui w') = node_depth (g_ui w) ++ [depth];
  na_text_len : length (node_text_len (g_ui w')) = S (length (node_text_len (g_ui w)));
  na_rect : node_rect (g_ui w') = node_rect (g_ui w) ++ [RECT_zero];
  na_actions : actions (g_ui w') = actions (g_ui w);
  na_providers : providers (g_ui w') = providers (g_ui w);
  na_focused : focused_id (g_ui w') = focused_id (g_ui w);
  na_adding : depth_for_adding_element (g_ui w') = depth_for_adding_element (g_ui w);
  na_listening : clients_listening w' = clients_listening w;
  na_raised : raised w' = raised w;
}.

(** The state of [ui_named_element] when it starts the walk up the
    ancestors. *)
Definition before_walk (id : Id) (name : wstring) (type : UiType) (p : Id)
    (node_len : Z) (w : World) : World :=
  let u := push_node id name type (depth_for_adding_element (g_ui w)) p (g_ui w) in
  set_g_ui (set_node_text_len
              (<[length (node_ids (g_ui w)) := node_len]> (node_text_len u)) u) w.

(** The described tree, about to receive a node one level below the root. *)
Definition described_one_level_down : World := state_after depth_inc described.

(** A store with one top-level node, and a pass that starts over. *)
Definition other_pass : World :=
  state_after (ui_pane demo_hash demo_wyhash64 (L "Other")) (World0 true).

(** ** 15. Sequences of calls of the tree builder *)

Inductive BuilderCall :=
  | Call_ui_named_element (name : wstring) (type : UiType)
  | Call_ui_button (text : wstring) (action : Action)
  | Call_depth_inc
  | Call_depth_dec
  | Call_ui_set_rect (id : Id) (rect : RECT).

Section Calls.

Variable hash : wstring -> Z.
Variable wyhash64 : Z -> Z -> Z.

Definition run_call (c : BuilderCall) : M unit :=
  match c with
  | Call_ui_named_element name type =>
      let* _ := ui_named_element hash wyhash64 name type in ret tt
  | Call_ui_button text action =>
      let* _ := ui_button hash wyhash64 text action in ret tt
  | Call_depth_inc => depth_inc
  | Call_depth_dec => depth_dec
  | Call_ui_set_rect id rect => ui_set_rect id rect
  end.

Fixpoint run_calls (cs : list BuilderCall) : M unit :=
  match cs with
  | [] => ret tt
  | c :: cs' => run_call c;;; run_calls cs'
  end.

End Calls.

(** The walk up the ancestors is at the node [c] (at the root when [c] is
    [0]): the length [node_len] of the new name is still to be added to
    the node [c], and to no other node. *)
Definition short_at (u : UiTree) (node_len : Z) (c : Id) : Prop :=
  forall i id name len,
    node_ids u !! i = Some id -> node_names u !! i = Some name ->
    node_text_len u !! i = Some len ->
    len + (if decide (id = c) then node_len else 0)
    = Z.of_nat (length name) + children_text_len (node_parent u) (node_text_len u) id.

(** No aggregate exceeds the length of all names, and the aggregates of
    the nodes up to [c] leave room for [node_len]. *)
Definition bounded_at (u : UiTree) (node_len : Z) (c : Id) : Prop :=
  forall i len,
    node_text_len u !! i = Some len ->
    0 <= len <= total_name_len (node_names u)
    /\ (c <> 0 -> (i <= scan_ids (node_ids u) c)%nat ->
        len + node_len <= total_name_len (node_names u)).

(** The calls of the builder that [ui_describe] makes. *)
Definition describe_calls : list BuilderCall :=
  [ Call_ui_named_element (L "Main") kPane; Call_depth_inc;
    Call_ui_named_element (L "Main") kDocument; Call_depth_inc;
    Call_ui_named_element (L "This is the first paragraph.") kText;
    Call_ui_named_element (L "Hello, Dreamer of dreams.") kText;
    Call_ui_named_element (L "Yet another paragraph") kText;
    Call_depth_dec;
    Call_ui_button (L "Minimize Application") MinimizeApplication;
    Call_ui_button (L "Close Application") CloseApplication;
    Call_depth_dec ].

Definition built_by_calls : World :=
  state_after (run_calls demo_hash demo_wyhash64 describe_calls) (World0 false).

(** ** 16. Hit testing *)

(** The four comparisons of the hit tester: the rectangle holds the point. *)
Definition inside (r : RECT) (x y : Q) : bool :=
  negb (Qltb y (inject_Z (top r))) && negb (Qle_bool (inject_Z (bottom r)) y)
  && negb (Qltb x (inject_Z (left r))) && negb (Qle_bool (inject_Z (right r)) x).

(** The node at position [k] is the deepest of the nodes before position
    [n] whose rectangle holds the point, and the latest of the deepest. *)
Definition deepest_latest (u : UiTree) (x y : Q) (n k : nat) (depth : Z) (id : Id) : Prop :=
  (k < n)%nat
  /\ (exists r, node_rect u !! k = Some r /\ inside r x y = true)
  /\ node_ids u !! k = Some id
  /\ node_depth u !! k = Some depth
  /\ forall j rj dj,
       (j < n)%nat -> node_rect u !! j = Some rj -> inside rj x y = true ->
       node_depth u !! j = Some dj ->
       dj < depth \/ (dj = depth /\ (j <= k)%nat).

(** What the loop of the hit tester has found before position [n]. *)
Definition located (u : UiTree) (x y : Q) (n : nat) (depth : Z) (id : Id) : Prop :=
  (id = 0 /\ depth = 0
   /\ forall j rj, (j < n)%nat -> node_rect u !! j = Some rj -> inside rj x y = false)
  \/ exists k, deepest_latest u x y n k depth id.

(** The tree of [ui_describe] with its rectangles, the focus on the first
    paragraph. *)
Definition described_with_rects : World :=
  state_after (ui_describe_with demo_hash demo_wyhash64 true) (World0 false).

(** ** 17. The result of a search *)

(** [needle] occurs in [name] at position [q]. *)
Definition occurs_at (name needle : wstring) (q : nat) : Prop :=
  (q + length needle <= length name)%nat
  /\ take (length needle) (drop q name) = needle.




(** The first occurrence of [needle] in [name] at or after the position
    [from]; no occurrence there. *)
Definition first_occurrence (name needle : wstring) (from : Z) (q : nat) : Prop :=
  occurs_at name needle q /\ from <= Z.of_nat q
  /\ forall q', from <= Z.of_nat q' -> (q' < q)%nat -> ~ occurs_at name needle q'.

Definition no_occurrence (name needle : wstring) (from : Z) : Prop :=
  forall q, from <= Z.of_nat q -> ~ occurs_at name needle q.







(** The names of the tree that [ui_describe] builds. *)
Definition described_names : list wstring :=
  [ L "Main"; L "Main"; L "This is the first paragraph.";
    L "Hello, Dreamer of dreams."; L "Yet another paragraph";
    L "Minimize Application"; L "Close Application" ].

(** A well-formed store with the given names, types and depths, and the
    given depth for the next node. *)
Record built (names : list wstring) (types : list UiType) (depths : list Z) (d : Z)
    (w : World) : Prop := mkBuilt {
  built_wf : well_formed w;
  built_names : node_names (g_ui w) = names;
  built_types : node_type (g_ui w) = types;
  built_depths : node_depth (g_ui w) = depths;
  built_adding : depth_for_adding_element (g_ui w) = d;
}.

Definition described_types : list UiType :=
  [kPane; kDocument; kText; kText; kText; kButton; kButton].
Definition described_depths : list Z := [0; 1; 2; 2; 2; 1; 1].

(** The range from an offset in the node at one position to an offset in
    the node at another. *)
Definition range_between (w : World) (i : nat) (offset_i : Z) (j : nat) (offset_j : Z)
    : AnyElementTextRangeProvider :=
  {| start := {| point_id := id_at w i; point_offset := offset_i |};
     end_ := {| point_id := id_at w j; point_offset := offset_j |} |}.

(** ** 18. More of the engine

    The rest of the providers of [Sources/SRFirstMain.cpp].  Further
    conventions: an allocation ([new], [SysAllocString],
    [SafeArrayCreateVector]) succeeds; the reference count of the root
    provider is not kept; a [double] that holds an integer is a [Z]; what a
    call of the window system answers is a parameter. *)

(** An outcome of a pure loop, in the monad. *)
Definition lift {A} (o : outcome A) : M A :=
  fun w => match o with
           | Done a => Done (a, w)
           | Fail f => Fail f
           end.

(** [uint64_t bits(uint64_t x, uint64_t start, uint64_t num)]: the sum of
    the [VERIFY] is one of [uint64_t]; a shift by 64 or more is undefined. *)
Definition bits (x start num : Z) : M Z :=
  VERIFY (to_size_t (start + num) <? 64);;;
  if decide (64 <= start \/ 64 <= num) then fail Undefined
  else ret (Z.land (Z.shiftr x start) (Z.shiftl 1 num - 1)).

(** [RECT intersection(RECT const a, RECT const b)] *)
Definition intersection (a b : RECT) : RECT :=
  {| left := Z.max (left a) (left b); top := Z.max (top a) (top b);
     right := Z.min (right a) (right b); bottom := Z.max (bottom a) (bottom b) |}.

(** The sum of two [LONG]s: an overflow is undefined. *)
Definition LONG_add (a b : Z) : outcome Z :=
  if decide (- 2 ^ 31 <= a + b < 2 ^ 31) then Done (a + b) else Fail Undefined.

(** [RECT operator+ (RECT const a, POINT b)] *)
Definition RECT_plus (a : RECT) (b : POINT) : outcome RECT :=
  match LONG_add (left a) (px b), LONG_add (top a) (py b),
        LONG_add (right a) (px b), LONG_add (bottom a) (py b) with
  | Done l, Done t, Done r, Done bt => Done {| left := l; top := t; right := r; bottom := bt |}
  | _, _, _, _ => Fail Undefined
  end.

(** [UiTree::Id element_id = -1] *)
Definition invalid_id : Id := size_max - 1.

(** *** Navigation *)

Inductive NavigateDirection :=
  | NavigateDirection_Parent
  | NavigateDirection_NextSibling
  | NavigateDirection_PreviousSibling
  | NavigateDirection_FirstChild
  | NavigateDirection_LastChild.

(** [for (auto i = index + 1; i < g_ui.node_ids.size() && g_ui.node_depth[i] >= this_depth; i++)
    if (g_ui.node_depth[i] == this_depth) { index = i; break; }], with the
    number [n] of positions from [i] to the end of [node_ids]; the result
    is [index] after the loop. *)
Fixpoint next_sibling_loop (u : UiTree) (this_depth : Z) (n i index : nat) : outcome nat :=
  match n with
  | O => Done index
  | S n' =>
      match node_depth u !! i with
      | None => Fail Undefined
      | Some d =>
          if decide (this_depth <= d) then
            if decide (d = this_depth) then Done i
            else next_sibling_loop u this_depth n' (S i) index
          else Done index
      end
  end.

(** [for (auto ri = index; ri > 0 && g_ui.node_depth[ri-1] >= this_depth; ri--)
    { auto i = ri - 1; if (g_ui.node_depth[i] == this_depth) { index = i; break; } }] *)
Fixpoint prev_sibling_loop (u : UiTree) (this_depth : Z) (ri index : nat) : outcome nat :=
  match ri with
  | O => Done index
  | S i =>
      match node_depth u !! i with
      | None => Fail Undefined
      | Some d =>
          if decide (this_depth <= d) then
            if decide (d = this_depth) then Done i
            else prev_sibling_loop u this_depth i index
          else Done index
      end
  end.

(** The loop of [NavigateDirection_FirstChild], for the depth
    [this_depth + 1] of a child: it stops at the first node of that depth,
    whose parent the [VERIFY] requires to be this element. *)
Fixpoint first_child_loop (u : UiTree) (this_id : Id) (child_depth : Z) (n i index : nat)
    : outcome nat :=
  match n with
  | O => Done index
  | S n' =>
      match node_depth u !! i with
      | None => Fail Undefined
      | Some d =>
          if decide (child_depth <= d) then
            if decide (d = child_depth) then
              match node_parent u !! i with
              | None => Fail Undefined
              | Some p => if decide (p = this_id) then Done i else Fail VerifyFailed
              end
            else first_child_loop u this_id child_depth n' (S i) index
          else Done index
      end
  end.

(** The loop of [NavigateDirection_LastChild], which does not stop at a
    node of the depth of a child. *)
Fixpoint last_child_loop (u : UiTree) (this_id : Id) (child_depth : Z) (n i index : nat)
    : outcome nat :=
  match n with
  | O => Done index
  | S n' =>
      match node_depth u !! i with
      | None => Fail Undefined
      | Some d =>
          if decide (child_depth <= d) then
            if decide (d = child_depth) then
              match node_parent u !! i with
              | None => Fail Undefined
              | Some p =>
                  if decide (p = this_id)
                  then last_child_loop u this_id child_depth n' (S i) i
                  else Fail VerifyFailed
              end
            else last_child_loop u this_id child_depth n' (S i) index
          else Done index
      end
  end.

(** The [switch] of [AnyElementProvider::Navigate]: the [element_id] that
    it leaves. *)
Definition navigate_to (u : UiTree) (this_id : Id) (index : nat) (this_depth : Z)
    (this_parent : Id) (direction : NavigateDirection) : outcome Id :=
  let rest := (length (node_ids u) - (index + 1))%nat in
  (* element_id = g_ui.node_ids[index];
     VERIFY(element_id == this->id || g_ui.node_parent[index] == parent); *)
  let arrive (parent : Id) (index : nat) : outcome Id :=
    match node_ids u !! index with
    | None => Fail Undefined
    | Some element_id =>
        if decide (element_id = this_id) then Done element_id
        else match node_parent u !! index with
             | None => Fail Undefined
             | Some p => if decide (p = parent) then Done element_id else Fail VerifyFailed
             end
    end in
  match direction with
  | NavigateDirection_Parent =>
      match node_parent u !! index with
      | None => Fail Undefined
      | Some element_id =>
          if decide (element_id = this_parent) then Done element_id else Fail VerifyFailed
      end
  | NavigateDirection_NextSibling =>
      match next_sibling_loop u this_depth rest (index + 1) index with
      | Done index => arrive this_parent index
      | Fail f => Fail f
      end
  | NavigateDirection_PreviousSibling =>
      match prev_sibling_loop u this_depth index index with
      | Done index => arrive this_parent index
      | Fail f => Fail f
      end
  | NavigateDirection_FirstChild =>
      match first_child_loop u this_id (this_depth + 1) rest (index + 1) index with
      | Done index => arrive this_id index
      | Fail f => Fail f
      end
  | NavigateDirection_LastChild =>
      match last_child_loop u this_id (this_depth + 1) rest (index + 1) index with
      | Done index => arrive this_id index
      | Fail f => Fail f
      end
  end.

(** [HRESULT AnyElementProvider::Navigate(NavigateDirection direction,
    IRawElementProviderFragment** pRetVal)], for the provider with the
    field [id] equal to [this_id]. *)
Definition Navigate (this_id : Id) (direction : NavigateDirection)
    (pRetVal : option (option Fragment)) : M (HRESULT * option (option Fragment)) :=
  match pRetVal with
  | None => ret (E_INVALIDARG, None)
  | Some _ =>
      let* index := ui_get_index this_id in
      let* u := get_ui in
      let* this_depth := at_ (node_depth u) index in
      let* this_parent := at_ (node_parent u) index in
      let* element_id := lift (navigate_to u this_id index this_depth this_parent direction) in
      if decide (element_id = 0) then ret (S_OK, Some (Some RootProvider))
      else if valid_id element_id && bool_decide (element_id <> this_id) then
        let* p := create_element_provider element_id in
        ret (S_OK, Some (Some p))
      else ret (S_OK, Some None)
  end.

(** The loop of [NavigateDirection_FirstChild] of the root over the
    positions from [index] on, [n] of them. *)
Fixpoint root_first_child_loop (u : UiTree) (n index : nat) : outcome Id :=
  match n with
  | O => Done invalid_id
  | S n' =>
      match node_depth u !! index with
      | None => Fail Undefined
      | Some d =>
          if decide (d = 0) then
            match node_parent u !! index, node_ids u !! index with
            | Some p, Some element_id =>
                if decide (p = 0) then Done element_id else Fail VerifyFailed
            | _, _ => Fail Undefined
            end
          else root_first_child_loop u n' (S index)
      end
  end.

(** The loop of [NavigateDirection_LastChild] of the root, from [ri] down. *)
Fixpoint root_last_child_loop (u : UiTree) (ri : nat) : outcome Id :=
  match ri with
  | O => Done invalid_id
  | S index =>
      match node_depth u !! index with
      | None => Fail Undefined
      | Some d =>
          if decide (d = 0) then
            match node_parent u !! index, node_ids u !! index with
            | Some p, Some element_id =>
                if decide (p = 0) then Done element_id else Fail VerifyFailed
            | _, _ => Fail Undefined
            end
          else root_last_child_loop u index
      end
  end.

(** [HRESULT RootProvider::Navigate(NavigateDirection direction,
    IRawElementProviderFragment** pRetVal)] *)
Definition Root_Navigate (direction : NavigateDirection)
    (pRetVal : option (option Fragment)) : M (HRESULT * option (option Fragment)) :=
  match pRetVal with
  | None => ret (E_INVALIDARG, None)
  | Some _ =>
      let* u := get_ui in
      let* element_id :=
        match direction with
        | NavigateDirection_FirstChild =>
            lift (root_first_child_loop u (length (node_ids u)) 0)
        | NavigateDirection_LastChild =>
            lift (root_last_child_loop u (length (node_ids u)))
        | _ => ret invalid_id
        end in
      if valid_id element_id then
        let* p := create_element_provider element_id in
        ret (S_OK, Some (Some p))
      else ret (S_OK, Some None)
  end.

(** [HRESULT RootProvider::GetFocus(IRawElementProviderFragment** pRetVal)] *)
Definition GetFocus (pRetVal : option (option Fragment))
    : M (HRESULT * option (option Fragment)) :=
  match pRetVal with
  | None => ret (E_POINTER, None)
  | Some _ =>
      let* focused := gets focused_id in
      if decide (focused <> 0) then
        let* p := create_element_provider focused in
        ret (S_OK, Some (Some p))
      else ret (S_OK, Some None)
  end.

(** [HRESULT AnyElementProvider::SetFocus()] *)
Definition SetFocus (this_id : Id) : M HRESULT :=
  ui_set_focus_to this_id;;; ret S_OK.

(** *** Properties of an element *)

(** The property ids that the providers name; [UIA_PropertyId n] is any
    other one. *)
Inductive PROPERTYID :=
  | UIA_NamePropertyId
  | UIA_ControlTypePropertyId
  | UIA_IsControlElementPropertyId
  | UIA_IsContentElementPropertyId
  | UIA_IsEnabledPropertyId
  | UIA_IsKeyboardFocusablePropertyId
  | UIA_LabeledByPropertyId
  | UIA_NativeWindowHandlePropertyId
  | UIA_FrameworkIdPropertyId
  | UIA_AutomationIdPropertyId
  | UIA_ProcessIdPropertyId
  | UIA_HelpTextPropertyId
  | UIA_AccessKeyPropertyId
  | UIA_ProviderDescriptionPropertyId
  | UIA_ClassNamePropertyId
  | UIA_HasKeyboardFocusPropertyId
  | UIA_PropertyId (n : Z).

(** [SysAllocString(psz)] copies the characters before the first null one. *)
Fixpoint SysAllocString (psz : wstring) : wstring :=
  match psz with
  | [] => []
  | c :: psz' => if decide (c = 0) then [] else c :: SysAllocString psz'
  end.

Section ControlTypes.

(** The control type ids of [uiautomationclient.h]. *)
Variable UIA_TextControlTypeId : Z.
Variable UIA_DocumentControlTypeId : Z.
Variable UIA_ButtonControlTypeId : Z.
Variable UIA_PaneControlTypeId : Z.

(** [HRESULT AnyElementProvider::GetPropertyValue(PROPERTYID propertyId,
    VARIANT* pRetVal)]: [pRetVal] is [None] for a null pointer and else the
    content of the [VARIANT]. *)
Definition GetPropertyValue (this_id : Id) (propertyId : PROPERTYID)
    (pRetVal : option VARIANT) : M (HRESULT * option VARIANT) :=
  match pRetVal with
  | None => ret (E_POINTER, None)
  | Some _ =>
      let* index := ui_get_index this_id in
      let* u := get_ui in
      let* type := at_ (node_type u) index in
      VERIFY (bool_decide (type <> kNone));;;
      let* v :=
        match propertyId with
        | UIA_NamePropertyId =>
            let* name := at_ (node_names u) index in
            ret (VT_BSTR (SysAllocString name))
        | UIA_ControlTypePropertyId =>
            match type with
            | kText => ret (VT_I4 UIA_TextControlTypeId)
            | kDocument => ret (VT_I4 UIA_DocumentControlTypeId)
            | kButton => ret (VT_I4 UIA_ButtonControlTypeId)
            | kPane => ret (VT_I4 UIA_PaneControlTypeId)
            | kNone => fail VerifyFailed
            end
        | UIA_IsControlElementPropertyId => ret (VT_BOOL true)
        | UIA_IsContentElementPropertyId => ret (VT_BOOL true)
        | UIA_IsEnabledPropertyId => ret (VT_BOOL true)
        | UIA_IsKeyboardFocusablePropertyId => ret (VT_BOOL true)
        | UIA_LabeledByPropertyId =>
            if decide (type = kDocument) then
              let* name := at_ (node_names u) index in
              ret (VT_BSTR (SysAllocString name))
            else ret VT_EMPTY
        | UIA_NativeWindowHandlePropertyId => ret (VT_I4 0)
        | UIA_ProviderDescriptionPropertyId => ret (VT_BSTR (L "UU::RootProvider"))
        | UIA_ClassNamePropertyId => ret (VT_BSTR (L "UU::RootProvider"))
        | UIA_HasKeyboardFocusPropertyId =>
            ret (VT_BOOL (bool_decide (focused_id u = this_id)))
        | _ => ret VT_EMPTY
        end in
      ret (S_OK, Some v)
  end.

End ControlTypes.

(** [HRESULT RootProvider::GetPropertyValue(PROPERTYID propertyId, VARIANT* pRetVal)] *)
Definition Root_GetPropertyValue (propertyId : PROPERTYID) (pRetVal : option VARIANT)
    : M (HRESULT * option VARIANT) :=
  match pRetVal with
  | None => ret (E_POINTER, None)
  | Some _ =>
      let* u := get_ui in
      let v :=
        match propertyId with
        | UIA_NamePropertyId => VT_BSTR (L "SRFirstRoot")
        | UIA_ProviderDescriptionPropertyId => VT_BSTR (L "UU::AnyElementProvider")
        | UIA_ClassNamePropertyId => VT_BSTR (L "UU::AnyElementProvider")
        | UIA_HasKeyboardFocusPropertyId => VT_BOOL (bool_decide (focused_id u = 0))
        | _ => VT_EMPTY
        end in
      ret (S_OK, Some v)
  end.

(** [struct UiaRect] *)
Record UiaRect := mkUiaRect {
  uia_left : Z; uia_top : Z; uia_width : Z; uia_height : Z
}.

Section Window.

(** What [ClientToScreen(g_hwnd, &p)] leaves in [p], and what
    [GetClientRect(g_hwnd, &r)] leaves in [r]; both calls succeed. *)
Variable ClientToScreen : POINT -> POINT.
Variable ClientRect : RECT.

(** [HRESULT AnyElementProvider::get_BoundingRectangle(UiaRect* pRetVal)] *)
Definition get_BoundingRectangle (this_id : Id) (pRetVal : option UiaRect)
    : M (HRESULT * option UiaRect) :=
  match pRetVal with
  | None => ret (E_INVALIDARG, None)
  | Some _ =>
      let* index := ui_get_index this_id in
      let* rects := gets node_rect in
      let* r := at_ rects index in
      let LeftTop := ClientToScreen {| px := left r; py := top r |} in
      ret (S_OK, Some {| uia_left := px LeftTop; uia_top := py LeftTop;
                         uia_width := right r - left r;
                         uia_height := bottom r - top r |})
  end.

(** The loop of [GetBoundingRectangles]. *)
Fixpoint GetBoundingRectangles_loop (fuel : nat) (LeftTop : POINT)
    (this : AnyElementTextRangeProvider) (id : Id) (rects : list RECT) : M (list RECT) :=
  match fuel with
  | O => fail OutOfFuel
  | S fuel' =>
      let* i := ui_get_index id in
      let* node_rects := gets node_rect in
      let* nr := at_ node_rects i in
      let r := intersection nr ClientRect in
      let* rects :=
        (if decide (left r <= right r /\ top r <= bottom r) then
           let* moved := lift (RECT_plus r LeftTop) in
           ret (rects ++ [moved])
         else ret rects) in
      let* ids := gets node_ids in
      if decide (i + 1 < length ids)%nat then
        let* id' := at_ ids (i + 1) in
        if decide (id = point_id (end_ this)) then ret rects
        else GetBoundingRectangles_loop fuel' LeftTop this id' rects
      else ret rects
  end.

(** [HRESULT AnyElementTextRangeProvider::GetBoundingRectangles(SAFEARRAY** pRetVal)]:
    the array holds four numbers for each rectangle. *)
Definition GetBoundingRectangles (this : AnyElementTextRangeProvider)
    (pRetVal : option (option (list Z))) : M (HRESULT * option (option (list Z))) :=
  let LeftTop := ClientToScreen {| px := left ClientRect; py := top ClientRect |} in
  let* ids := gets node_ids in
  let* rects := GetBoundingRectangles_loop (S (length ids)) LeftTop this
                  (point_id (start this)) [] in
  match pRetVal with
  | None => ret (E_POINTER, None)
  | Some _ =>
      ret (S_OK, Some (Some (rects ≫= fun r => [left r; top r; right r; bottom r])))
  end.

End Window.

Section RuntimeId.

(** [UiaAppendRuntimeId] of [uiautomationcoreapi.h]. *)
Variable UiaAppendRuntimeId : Z.

(** [HRESULT AnyElementProvider::GetRuntimeId(SAFEARRAY** pRetVal)] *)
Definition GetRuntimeId (this_id : Id) (pRetVal : option (option (list Z)))
    : M (HRESULT * option (option (list Z))) :=
  match pRetVal with
  | None => ret (E_INVALIDARG, None)
  | Some _ =>
      let* low := bits this_id 0 32 in
      ret (S_OK, Some (Some [UiaAppendRuntimeId; to_int low]))
  end.

End RuntimeId.

(** *** Pattern providers *)

(** The pattern ids that [GetPatternProvider] compares with;
    [UIA_PatternId n] is any other one. *)
Inductive PATTERNID :=
  | UIA_ValuePatternId
  | UIA_TextPatternId
  | UIA_InvokePatternId
  | UIA_PatternId (n : Z).

(** The pattern providers, each with its field [id]. *)
Inductive PatternProvider :=
  | AnyElementTextProvider (id : Id)
  | AnyElementValueProvider (id : Id)
  | AnyElementInvokeProvider (id : Id).

(** [ITextProvider* create_element_text_provider(UiTree::Id element_id)] *)
Definition create_element_text_provider (element_id : Id) : M PatternProvider :=
  let* e := exists_id element_id in
  VERIFY e;;;
  ret (AnyElementTextProvider element_id).

(** [IValueProvider* create_element_value_provider(UiTree::Id element_id)] *)
Definition create_element_value_provider (element_id : Id) : M PatternProvider :=
  let* e := exists_id element_id in
  VERIFY e;;;
  ret (AnyElementValueProvider element_id).

(** [IInvokeProvider* create_element_invoke_provider(UiTree::Id element_id)] *)
Definition create_element_invoke_provider (element_id : Id) : M PatternProvider :=
  let* e := exists_id element_id in
  VERIFY e;;;
  ret (AnyElementInvokeProvider element_id).

(** [HRESULT AnyElementProvider::GetPatternProvider(PATTERNID patternId,
    IUnknown** pRetVal)] *)
Definition GetPatternProvider (this_id : Id) (patternId : PATTERNID)
    (pRetVal : option (option PatternProvider))
    : M (HRESULT * option (option PatternProvider)) :=
  match pRetVal with
  | None => ret (E_POINTER, None)
  | Some _ =>
      let* index := ui_get_index this_id in
      let* types := gets node_type in
      let* type := at_ types index in
      VERIFY (bool_decide (type <> kNone));;;
      let* p :=
        match type, patternId with
        | kDocument, UIA_TextPatternId =>
            let* p := create_element_text_provider this_id in ret (Some p)
        | kDocument, UIA_ValuePatternId =>
            let* p := create_element_value_provider this_id in ret (Some p)
        | kText, UIA_TextPatternId =>
            let* p := create_element_text_provider this_id in ret (Some p)
        | kButton, UIA_InvokePatternId =>
            let* p := create_element_invoke_provider this_id in ret (Some p)
        | _, _ => ret None
        end in
      ret (S_OK, Some p)
  end.

(** [HRESULT AnyElementValueProvider::get_IsReadOnly(BOOL* pRetVal)] *)
Definition get_IsReadOnly (this_id : Id) (pRetVal : option bool) : HRESULT * option bool :=
  match pRetVal with
  | None => (E_INVALIDARG, None)
  | Some _ => (S_OK, Some true)
  end.

(** [HRESULT AnyElementValueProvider::get_Value(BSTR* pRetVal)] *)
Definition get_Value (this_id : Id) (pRetVal : option (option wstring))
    : M (HRESULT * option (option wstring)) :=
  match pRetVal with
  | None => ret (E_INVALIDARG, None)
  | Some _ =>
      let* index := ui_get_index this_id in
      let* names := gets node_names in
      let* name := at_ names index in
      ret (S_OK, Some (Some (SysAllocString name)))
  end.

(** [HRESULT AnyElementValueProvider::SetValue(LPCWSTR val)] *)
Definition SetValue (this_id : Id) (val : wstring) : HRESULT := E_ACCESSDENIED.

(** [HRESULT AnyElementTextProvider::get_DocumentRange(ITextRangeProvider** pRetVal)] *)
Definition get_DocumentRange (this_id : Id)
    (pRetVal : option (option AnyElementTextRangeProvider))
    : M (HRESULT * option (option AnyElementTextRangeProvider)) :=
  match pRetVal with
  | None => ret (E_INVALIDARG, None)
  | Some _ =>
      let* this_index := ui_get_index this_id in
      let* types := gets node_type in
      let* type := at_ types this_index in
      if decide (type = kDocument) then
        let* lens := gets node_text_len in
        let* len := at_ lens this_index in
        ret (S_OK, Some (Some (create_text_range
                                 {| point_id := this_id; point_offset := 0 |}
                                 {| point_id := this_id; point_offset := to_int len |})))
      else ret (S_OK, Some None)
  end.

(** *** Activation *)

(** [bool ui_activate(UiTree::Id id)]: the result, and the callback that
    it ran. *)
Definition ui_activate (id : Id) : M (bool * option Action) :=
  let* acts := gets actions in
  match acts !! id with
  | None => ret (false, None)
  | Some fn =>
      let* w := get in
      (if clients_listening w then
         let* focused := gets focused_id in
         let* sp := create_simple_element_provider focused in
         UiaRaiseAutomationEvent sp UIA_Invoke_InvokedEventId;;;
         Release (fragment_id sp)
       else ret tt);;;
      ret (true, Some fn)
  end.

(** [void ui_activate()]: the callback that it ran. *)
Definition ui_activate_focused : M (option Action) :=
  let* focused := gets focused_id in
  if decide (focused <> 0) then
    let* r := ui_activate focused in ret (snd r)
  else ret None.

(** [HRESULT AnyElementInvokeProvider::Invoke()] *)
Definition Invoke (this_id : Id) : M (HRESULT * option Action) :=
  let* r := ui_activate this_id in
  VERIFY (fst r);;;
  ret (S_OK, snd r).

(** The loop of [wWinMain] after the message loop:
    [for (auto& x : g_ui.providers) VERIFY(x.second->Release() == 0);],
    over the ids of the cached providers. *)
Fixpoint release_each (ids : list Id) : M unit :=
  match ids with
  | [] => ret tt
  | id :: ids' =>
      Release id;;;
      let* cache := gets providers in
      VERIFY (bool_decide (cache !! id = Some 0));;;
      release_each ids'
  end.

Definition release_providers : M unit :=
  let* cache := gets providers in
  release_each (map_to_list cache).*1.

(** *** More of the text range provider *)

Inductive TextPatternRangeEndpoint :=
  | TextPatternRangeEndpoint_Start
  | TextPatternRangeEndpoint_End.

(** [std::strong_ordering operator<=>(TextPoint const a, TextPoint const b)] *)
Definition TextPoint_compare (a b : TextPoint) : M comparison :=
  if decide (point_id a = point_id b) then ret (point_offset a ?= point_offset b)
  else
    let* i := ui_get_index (point_id a) in
    let* j := ui_get_index (point_id b) in
    ret (Nat.compare i j).

(** The lambda [get_endpoint] of [CompareEndpoints]. *)
Definition get_endpoint (range : AnyElementTextRangeProvider) (kind : TextPatternRangeEndpoint)
    : TextPoint :=
  match kind with
  | TextPatternRangeEndpoint_Start => start range
  | TextPatternRangeEndpoint_End => end_ range
  end.

(** [HRESULT AnyElementTextRangeProvider::Compare(ITextRangeProvider* range,
    BOOL* pRetVal)] *)
Definition Compare (this : AnyElementTextRangeProvider)
    (range : option AnyElementTextRangeProvider) (pRetVal : option bool)
    : HRESULT * option bool :=
  match pRetVal, range with
  | None, _ => (E_POINTER, pRetVal)
  | Some _, None => (E_POINTER, pRetVal)
  | Some _, Some other =>
      (S_OK, Some (bool_decide (start other = start this) && bool_decide (end_ other = end_ this)))
  end.

(** [HRESULT AnyElementTextRangeProvider::CompareEndpoints(
    TextPatternRangeEndpoint endpoint, ITextRangeProvider* targetRange,
    TextPatternRangeEndpoint targetEndpoint, int* pRetVal)] *)
Definition CompareEndpoints (this : AnyElementTextRangeProvider)
    (endpoint : TextPatternRangeEndpoint) (targetRange : option AnyElementTextRangeProvider)
    (targetEndpoint : TextPatternRangeEndpoint) (pRetVal : option Z)
    : M (HRESULT * option Z) :=
  match targetRange, pRetVal with
  | None, _ => ret (E_POINTER, pRetVal)
  | Some _, None => ret (E_POINTER, pRetVal)
  | Some other, Some _ =>
      let* compare_result :=
        TextPoint_compare (get_endpoint this endpoint) (get_endpoint other targetEndpoint) in
      ret (S_OK, Some (match compare_result with Lt => -1 | Eq => 0 | Gt => 1 end))
  end.

(** [HRESULT AnyElementTextRangeProvider::ExpandToEnclosingUnit(TextUnit unit)]:
    the result and the range afterwards. *)
Definition ExpandToEnclosingUnit (this : AnyElementTextRangeProvider) (unit : TextUnit)
    : M (HRESULT * AnyElementTextRangeProvider) :=
  let new_start := {| point_id := point_id (start this); point_offset := 0 |} in
  let* index := ui_get_index (point_id (end_ this)) in
  let* names := gets node_names in
  let* name := at_ names index in
  let new_end := {| point_id := point_id (end_ this);
                    point_offset := to_int (Z.of_nat (length name)) |} in
  ret (S_OK, {| start := new_start; end_ := new_end |}).

(** ** 19. Nested stores *)

(** The parent of a node of depth [0] is the root; the parent of a node
    of another depth [d] is the nearest node before it of depth [d - 1]. *)
Definition nested_at (u : UiTree) (j : nat) (d : Z) (p : Id) : Prop :=
  (d = 0 /\ p = 0)
  \/ (d <> 0
      /\ exists k, (k < j)%nat /\ node_ids u !! k = Some p
           /\ node_depth u !! k = Some (d - 1)
           /\ forall m, (k < m < j)%nat -> node_depth u !! m <> Some (d - 1)).

Definition nested (u : UiTree) : Prop :=
  forall j d p, node_depth u !! j = Some d -> node_parent u !! j = Some p ->
    nested_at u j d p.

(** A store as the builder leaves it. *)
Record tidy (w : World) : Prop := mkTidy {
  tidy_wf : well_formed w;
  tidy_nested : nested (g_ui w);
}.

(** The node at a position, with its depth and its parent. *)
Record node_at (u : UiTree) (i : nat) (id : Id) (d : Z) (p : Id) : Prop := mkNodeAt {
  at_id : node_ids u !! i = Some id;
  at_depth : node_depth u !! i = Some d;
  at_parent : node_parent u !! i = Some p;
}.

(** What a client holds after [Navigate] answered [S_OK]: the provider of
    the element with the given id, [0] for the root; nothing. *)
Definition fragment_of (id : Id) : Fragment :=
  if decide (id = 0) then RootProvider else AnyElementProvider id.

(** The cached providers are held by the cache only. *)
Definition balanced (u : UiTree) : Prop :=
  map_Forall (fun _ rc => rc = 1) (providers u).

(** The position of a point: that of its node, then its offset. *)
Definition lexicographic (i : nat) (a : Z) (j : nat) (b : Z) : comparison :=
  match Nat.compare i j with
  | Eq => a ?= b
  | c => c
  end.

(** The node [id] has no ancestor, itself included, of the given type. *)
Inductive no_such_ancestor (u : UiTree) (type : UiType) : Id -> Prop :=
  | no_such_ancestor_root : no_such_ancestor u type 0
  | no_such_ancestor_node id i t p :
      node_ids u !! i = Some id -> node_type u !! i = Some t -> t <> type ->
      node_parent u !! i = Some p -> no_such_ancestor u type p ->
      no_such_ancestor u type id.

(** The rectangle holds no point. *)
Definition empty_rect (r : RECT) : Prop := right r <= left r \/ bottom r <= top r.

(** The nodes strictly between two positions are deeper than [d]. *)
Definition deeper_between (u : UiTree) (d : Z) (i j : nat) : Prop :=
  forall m dm, (i < m < j)%nat -> node_depth u !! m = Some dm -> d < dm.

(** Where [Navigate] arrives from the node at position [i], of id [id],
    depth [d] and parent [p]: the id [e] is that of the node itself when
    there is no node to go to. *)
Definition navigated (u : UiTree) (i : nat) (id : Id) (d : Z) (p : Id)
    (direction : NavigateDirection) (e : Id) : Prop :=
  match direction with
  | NavigateDirection_Parent => e = p
  | NavigateDirection_NextSibling =>
      (e = id /\ forall j, (i < j)%nat -> node_depth u !! j = Some d ->
                   ~ deeper_between u d i j)
      \/ exists j, (i < j)%nat /\ node_at u j e d p /\ deeper_between u d i j
  | NavigateDirection_PreviousSibling =>
      (e = id /\ forall j, (j < i)%nat -> node_depth u !! j = Some d ->
                   ~ deeper_between u d j i)
      \/ exists j, (j < i)%nat /\ node_at u j e d p /\ deeper_between u d j i
  | NavigateDirection_FirstChild | NavigateDirection_LastChild =>
      e = id \/ exists j, (i < j)%nat /\ node_at u j e (d + 1) id
  end.

(** What the client receives when [Navigate] arrives at [e]. *)
Definition handed (this_id e : Id) : option Fragment :=
  if decide (e = 0) then Some RootProvider
  else if decide (e = this_id) then None
  else Some (AnyElementProvider e).

(** What a change of the focus leaves as it is. *)
Record same_but_focus (w w' : World) : Prop := mkSameButFocus {
  sbf_ids : node_ids (g_ui w') = node_ids (g_ui w);
  sbf_names : node_names (g_ui w') = node_names (g_ui w);
  sbf_type : node_type (g_ui w') = node_type (g_ui w);
  sbf_parent : node_parent (g_ui w') = node_parent (g_ui w);
  sbf_depth : node_depth (g_ui w') = node_depth (g_ui w);
  sbf_text_len : node_text_len (g_ui w') = node_text_len (g_ui w);
  sbf_rect : node_rect (g_ui w') = node_rect (g_ui w);
  sbf_actions : actions (g_ui w') = actions (g_ui w);
  sbf_adding : depth_for_adding_element (g_ui w') = depth_for_adding_element (g_ui w);
  sbf_listening : clients_listening w' = clients_listening w;
  sbf_fingers_ok : fingers_ok w -> fingers_ok w';
}.

(** The event that a client is told when it listens. *)
Definition told (w : World) (e : EventId) (id : Id) : list (EventId * Id) :=
  if clients_listening w then [(e, id)] else [].

(** ** 20. More predicates *)

(** A call of the builder other than [ui_set_rect]. *)
Definition sets_no_rect (c : BuilderCall) : bool :=
  match c with
  | Call_ui_set_rect _ _ => false
  | _ => true
  end.

(** The number is one that a [LONG] holds. *)
Definition fits_LONG (z : Z) : Prop := - 2 ^ 31 <= z < 2 ^ 31.

(** The described tree, its third paragraph given a rectangle below a
    window of height [30]. *)
Definition described_third_placed : World :=
  state_after (ui_set_rect (id_at described 4) (mkRECT 20 40 1220 60)) described.

(** [c] is the parent of the node [id], or the parent of an ancestor of
    it; the root, of id [0], has no parent. *)
Inductive ancestor_of (u : UiTree) (c : Id) : Id -> Prop :=
  | ancestor_parent id i :
      node_ids u !! i = Some id -> node_parent u !! i = Some c -> ancestor_of u c id
  | ancestor_further id i p :
      node_ids u !! i = Some id -> node_parent u !! i = Some p ->
      ancestor_of u c p -> ancestor_of u c id.

(** * Properties *)

(** ** The monad *)

Lemma bind_Done {A B} (c : M A) (k : A -> M B) w r :
  bind c k w = Done r -> exists a w1, c w = Done (a, w1) /\ k a w1 = Done r.
Proof.
  unfold bind. destruct (c w) as [[a w1]|f]; [|discriminate]. eauto.
Qed.

Lemma bind_eq {A B} (c : M A) (k : A -> M B) w a w1 :
  c w = Done (a, w1) -> bind c k w = k a w1.
Proof. unfold bind. intros ->. reflexivity. Qed.

Lemma VERIFY_Done b w r : VERIFY b w = Done r -> b = true /\ r = (tt, w).
Proof. destruct b; simpl; [intros [= <-]; auto | discriminate]. Qed.

Lemma at_Done {A} (l : list A) i w r :
  at_ l i w = Done r -> exists a, l !! i = Some a /\ r = (a, w).
Proof.
  unfold at_. destruct (l !! i); [intros [= <-]; eauto | discriminate].
Qed.

Lemma at_eq {A} (l : list A) i a w : l !! i = Some a -> at_ l i w = Done (a, w).
Proof. unfold at_. intros ->. reflexivity. Qed.


(** ** The lookup of an index *)

Lemma scan_ids_lookup ids id :
  (scan_ids ids id < length ids)%nat -> ids !! scan_ids ids id = Some id.
Proof.
  induction ids as [|x ids IH]; simpl; [lia|].
  case_decide; simpl; [congruence|]. intros. apply IH. lia.
Qed.

Lemma scan_ids_elem ids id : id ∈ ids -> (scan_ids ids id < length ids)%nat.
Proof.
  induction ids as [|x ids IH]; simpl.
  - intros H. inversion H.
  - intros H. case_decide; [lia|].
    apply elem_of_cons in H as [->|H]; [congruence|]. specialize (IH H). lia.
Qed.

Lemma scan_ids_first ids id k :
  ids !! k = Some id -> (scan_ids ids id <= k)%nat.
Proof.
  revert k. induction ids as [|x ids IH]; intros k; simpl; [discriminate|].
  case_decide; [lia|]. destruct k as [|k]; simpl.
  - intros [= ->]. congruence.
  - intros H'. specialize (IH _ H'). lia.
Qed.

Lemma scan_ids_nodup ids id k :
  NoDup ids -> ids !! k = Some id -> scan_ids ids id = k.
Proof.
  intros Hnd Hk.
  pose proof (scan_ids_first _ _ _ Hk) as Hle.
  assert (scan_ids ids id < length ids)%nat as Hlt.
  { apply lookup_lt_Some in Hk. lia. }
  apply scan_ids_lookup in Hlt.
  eapply NoDup_lookup; eauto.
Qed.

Lemma scan_ids_app ids l id :
  id ∈ ids -> scan_ids (ids ++ l) id = scan_ids ids id.
Proof.
  induction ids as [|x ids IH]; simpl.
  - intros H. inversion H.
  - intros H. case_decide; [reflexivity|].
    apply elem_of_cons in H as [->|H]; [congruence|]. f_equal. auto.
Qed.

Lemma scan_ids_fresh ids id : id ∉ ids -> scan_ids ids id = length ids.
Proof.
  induction ids as [|x ids IH]; simpl; [reflexivity|].
  intros H. apply not_elem_of_cons in H as [Hne H].
  case_decide; [congruence|]. f_equal. auto.
Qed.

Lemma valid_id_nonzero id : valid_id id = true -> id <> 0.
Proof. unfold valid_id. intros H ->. discriminate. Qed.

Lemma finger_ok_hit ids id index :
  finger_ok ids id index -> valid_id id = true ->
  ids !! index = Some id /\ scan_ids ids id = index.
Proof.
  intros [->|H] Hv; [discriminate|assumption].
Qed.

Lemma finger_ok_app ids l id index :
  finger_ok ids id index -> finger_ok (ids ++ l) id index.
Proof.
  intros [->|[H1 H2]]; [left; reflexivity|right]. split.
  - apply lookup_app_l_Some. assumption.
  - rewrite scan_ids_app; [assumption|]. eapply list_elem_of_lookup_2; eauto.
Qed.

Lemma fingers_ok_remember w id :
  fingers_ok w -> id ∈ node_ids (g_ui w) ->
  fingers_ok (set_fingers (remember id (scan_ids (node_ids (g_ui w)) id) (fingers w)) w).
Proof.
  intros [H0 H1] Hin.
  assert (finger_ok (node_ids (g_ui w)) id (scan_ids (node_ids (g_ui w)) id)) as Hnew.
  { right. split; [|reflexivity]. apply scan_ids_lookup, scan_ids_elem, Hin. }
  unfold fingers_ok, remember. case_decide; simpl; auto.
Qed.

Lemma same_tree_refl w : same_tree w w.
Proof. constructor; auto. Qed.

Lemma same_tree_trans w1 w2 w3 : same_tree w1 w2 -> same_tree w2 w3 -> same_tree w1 w3.
Proof.
  intros [] []. constructor; try congruence. auto.
Qed.

(** A successful lookup answers the first position of the id, which holds
    it, and changes the cache only. *)
Lemma ui_get_index_Done id w i w' :
  fingers_ok w -> ui_get_index id w = Done (i, w') ->
  valid_id id = true /\ i = scan_ids (node_ids (g_ui w)) id
  /\ node_ids (g_ui w) !! i = Some id /\ g_ui w' = g_ui w /\ same_tree w w'.
Proof.
  intros [H0 H1] H. unfold ui_get_index in H.
  apply bind_Done in H as ([] & w1 & Hv & H).
  apply VERIFY_Done in Hv as [Hv [= <-]]. unfold bind, get in H.
  case_decide as E0; [|case_decide as E1].
  - injection H as <- <-. subst id.
    destruct (finger_ok_hit _ _ _ H0 Hv) as [? ?].
    repeat split; auto using same_tree_refl.
  - injection H as <- <-. subst id.
    destruct (finger_ok_hit _ _ _ H1 Hv) as [? ?].
    repeat split; auto using same_tree_refl.
  - destruct (bool_decide _) eqn:Ev; simpl in H; [|discriminate].
    injection H as <- <-.
    apply bool_decide_eq_true in Ev.
    pose proof (scan_ids_lookup _ _ Ev) as Hl.
    split; [assumption|]. split; [reflexivity|]. split; [assumption|].
    split; [reflexivity|]. constructor; try reflexivity.
    intros Hf. apply fingers_ok_remember; [assumption|].
    eapply list_elem_of_lookup_2; eauto.
Qed.

(** The lookup of a valid id of the store succeeds. *)
Lemma ui_get_index_total id w :
  fingers_ok w -> valid_id id = true -> id ∈ node_ids (g_ui w) ->
  exists w', ui_get_index id w = Done (scan_ids (node_ids (g_ui w)) id, w')
             /\ g_ui w' = g_ui w /\ same_tree w w'.
Proof.
  intros Hf Hv Hin.
  assert (exists i w', ui_get_index id w = Done (i, w')) as (i & w' & H).
  { unfold ui_get_index, bind, get. rewrite Hv. simpl.
    repeat case_decide; eauto.
    rewrite bool_decide_eq_true_2 by (apply scan_ids_elem, Hin). simpl. eauto. }
  destruct (ui_get_index_Done _ _ _ _ Hf H) as (_ & -> & _ & ? & ?). eauto.
Qed.

(** An invalid id is refused by the [VERIFY]. *)
Lemma ui_get_index_invalid id w :
  valid_id id = false -> ui_get_index id w = Fail VerifyFailed.
Proof. intros H. unfold ui_get_index, bind. rewrite H. reflexivity. Qed.


(** ** The focus manager *)

Lemma ui_focus_next_unfocused w :
  focused_id (g_ui w) = 0 -> ui_focus_next w = Fail VerifyFailed.
Proof.
  intros H. unfold ui_focus_next, bind, gets. rewrite H.
  rewrite ui_get_index_invalid; reflexivity.
Qed.

Lemma ui_focus_prev_unfocused w :
  focused_id (g_ui w) = 0 -> ui_focus_prev w = Fail VerifyFailed.
Proof.
  intros H. unfold ui_focus_prev, bind, gets. rewrite H.
  rewrite ui_get_index_invalid; reflexivity.
Qed.

Lemma ui_focus_next_Done w r :
  fingers_ok w -> ui_focus_next w = Done r ->
  valid_id (focused_id (g_ui w)) = true /\ focused_id (g_ui w) ∈ node_ids (g_ui w).
Proof.
  intros Hf H. unfold ui_focus_next in H.
  apply bind_Done in H as (focused & w1 & [= <- <-] & H).
  apply bind_Done in H as (i & w2 & Hi & _).
  apply ui_get_index_Done in Hi as (Hv & _ & Hl & _); [|assumption].
  split; [assumption|]. eapply list_elem_of_lookup_2; eauto.
Qed.

Lemma ui_focus_prev_Done w r :
  fingers_ok w -> ui_focus_prev w = Done r ->
  valid_id (focused_id (g_ui w)) = true /\ focused_id (g_ui w) ∈ node_ids (g_ui w).
Proof.
  intros Hf H. unfold ui_focus_prev in H.
  apply bind_Done in H as (focused & w1 & [= <- <-] & H).
  apply bind_Done in H as (i & w2 & Hi & _).
  apply ui_get_index_Done in Hi as (Hv & _ & Hl & _); [|assumption].
  split; [assumption|]. eapply list_elem_of_lookup_2; eauto.
Qed.

(** C10: with no element focused ([focused_id] is [0]) [ui_focus_next] and
    [ui_focus_prev] stop at the [VERIFY] of [ui_get_index], which refuses
    the id [0]; and whenever one of them returns, the focused id was a
    valid id held by the store. *)
Theorem focus_move_requires_focused_element (w : World) :
  fingers_ok w ->
  (focused_id (g_ui w) = 0 ->
     valid_id 0 = false
     /\ ui_get_index 0 w = Fail VerifyFailed
     /\ ui_focus_next w = Fail VerifyFailed
     /\ ui_focus_prev w = Fail VerifyFailed)
  /\ (forall r, ui_focus_next w = Done r \/ ui_focus_prev w = Done r ->
        valid_id (focused_id (g_ui w)) = true
        /\ focused_id (g_ui w) ∈ node_ids (g_ui w)).
Proof.
  intros Hf. split.
  - intros H0. split; [reflexivity|]. split; [apply ui_get_index_invalid; reflexivity|].
    split; [apply ui_focus_next_unfocused | apply ui_focus_prev_unfocused]; assumption.
  - intros r [H|H]; [eapply ui_focus_next_Done | eapply ui_focus_prev_Done]; eauto.
Qed.

Lemma fingers_ok_World0 l : fingers_ok (World0 l).
Proof. split; left; reflexivity. Qed.

Lemma focus_move_requires_focused_element_witness :
  ui_focus_next (World0 false) = Fail VerifyFailed
  /\ ui_focus_prev (World0 false) = Fail VerifyFailed.
Proof.
  destruct (focus_move_requires_focused_element (World0 false)
              (fingers_ok_World0 false)) as [H _].
  destruct (H eq_refl) as (_ & _ & Hn & Hp). split; assumption.
Defined.

(** C8: when the focused element is the last node of the store,
    [ui_focus_next] returns and leaves [g_ui], with its [focused_id], as it
    was and raises no event; so does [ui_focus_prev] when the focused
    element is the first node. *)
Theorem focus_clamped_at_the_ends (w : World) :
  fingers_ok w -> NoDup (node_ids (g_ui w)) ->
  valid_id (focused_id (g_ui w)) = true ->
  (last (node_ids (g_ui w)) = Some (focused_id (g_ui w)) ->
     exists w', ui_focus_next w = Done (tt, w')
                /\ g_ui w' = g_ui w /\ raised w' = raised w)
  /\ (head (node_ids (g_ui w)) = Some (focused_id (g_ui w)) ->
     exists w', ui_focus_prev w = Done (tt, w')
                /\ g_ui w' = g_ui w /\ raised w' = raised w).
Proof.
  intros Hf Hnd Hv. split; intros Hpos.
  - rewrite last_lookup in Hpos.
    assert (focused_id (g_ui w) ∈ node_ids (g_ui w)) as Hin
      by (eapply list_elem_of_lookup_2; eauto).
    destruct (ui_get_index_total _ _ Hf Hv Hin) as (w' & Hi & Hu & Hs).
    rewrite (scan_ids_nodup _ _ _ Hnd Hpos) in Hi.
    exists w'. split; [|split; [assumption|apply Hs]].
    unfold ui_focus_next, bind, gets. rewrite Hi, Hu.
    apply lookup_lt_Some in Hpos.
    case_decide as Hc; [reflexivity|]. exfalso. apply Hc.
    unfold to_size_t, size_max.
    etransitivity; [apply Z.mod_le; lia|]. lia.
  - assert (node_ids (g_ui w) !! 0%nat = Some (focused_id (g_ui w))) as Hl
      by (rewrite <- head_lookup; assumption).
    assert (focused_id (g_ui w) ∈ node_ids (g_ui w)) as Hin
      by (eapply list_elem_of_lookup_2; eauto).
    destruct (ui_get_index_total _ _ Hf Hv Hin) as (w' & Hi & Hu & Hs).
    pose proof (scan_ids_first _ _ _ Hl) as Hz.
    exists w'. split; [|split; [assumption|apply Hs]].
    unfold ui_focus_prev, bind, gets. rewrite Hi, Hu.
    case_decide as Hc; [reflexivity|]. lia.
Qed.

(** A decidable statement about a run of the engine is settled by running it. *)
Ltac by_running :=
  match goal with |- ?P => apply (bool_decide_unpack P) end; vm_compute; exact I.

Lemma focus_clamped_at_the_ends_witness :
  (last (node_ids (g_ui described_focus_last))
     = Some (focused_id (g_ui described_focus_last))
   /\ exists w', ui_focus_next described_focus_last = Done (tt, w')
                 /\ g_ui w' = g_ui described_focus_last
                 /\ raised w' = raised described_focus_last)
  /\ (head (node_ids (g_ui described_focus_first))
        = Some (focused_id (g_ui described_focus_first))
      /\ exists w', ui_focus_prev described_focus_first = Done (tt, w')
                    /\ g_ui w' = g_ui described_focus_first
                    /\ raised w' = raised described_focus_first).
Proof.
  split.
  - split; [vm_compute; reflexivity|].
    apply (focus_clamped_at_the_ends described_focus_last);
      [by_running | by_running | vm_compute; reflexivity | vm_compute; reflexivity].
  - split; [vm_compute; reflexivity|].
    apply (focus_clamped_at_the_ends described_focus_first);
      [by_running | by_running | vm_compute; reflexivity | vm_compute; reflexivity].
Defined.

(** ** Computations that leave the tree as it is *)

Lemma keeps_ret {A} (a : A) : keeps_tree (ret a).
Proof. intros w a' w' [= <- <-]. apply same_tree_refl. Qed.

Lemma keeps_fail {A} f : keeps_tree (@fail A f).
Proof. intros w a w' H. discriminate H. Qed.

Lemma keeps_gets {A} (f : UiTree -> A) : keeps_tree (gets f).
Proof. intros w a' w' [= <- <-]. apply same_tree_refl. Qed.

Lemma keeps_get : keeps_tree get.
Proof. intros w a' w' [= <- <-]. apply same_tree_refl. Qed.

Lemma keeps_get_ui : keeps_tree get_ui.
Proof. apply keeps_gets. Qed.

Lemma keeps_VERIFY b : keeps_tree (VERIFY b).
Proof. destruct b; [apply keeps_ret | apply keeps_fail]. Qed.

Lemma keeps_at {A} (l : list A) i : keeps_tree (at_ l i).
Proof. unfold at_. destruct (l !! i); [apply keeps_ret | apply keeps_fail]. Qed.

Lemma keeps_bind {A B} (c : M A) (k : A -> M B) :
  keeps_tree c -> (forall a, keeps_tree (k a)) -> keeps_tree (bind c k).
Proof.
  intros Hc Hk w b w' H. apply bind_Done in H as (a & w1 & H1 & H2).
  eapply same_tree_trans; [eapply Hc | eapply Hk]; eauto.
Qed.

Lemma keeps_ui_get_index id : keeps_tree (ui_get_index id).
Proof.
  intros w i w' H. unfold ui_get_index, bind, get in H.
  destruct (VERIFY _ w) as [[[] w1]|] eqn:Ev; [|discriminate].
  apply VERIFY_Done in Ev as [Ev [= <-]].
  case_decide; [injection H as <- <-; apply same_tree_refl|].
  case_decide; [injection H as <- <-; apply same_tree_refl|].
  destruct (bool_decide _) eqn:Eb; simpl in H; [|discriminate].
  injection H as <- <-. apply bool_decide_eq_true in Eb.
  constructor; try reflexivity.
  intros Hf. apply fingers_ok_remember; [assumption|].
  eapply list_elem_of_lookup_2, scan_ids_lookup; eauto.
Qed.

Lemma keeps_modify_providers (f : UiTree -> gmap Z Z) :
  keeps_tree (modify (fun u => set_providers (f u) u)).
Proof.
  intros w a w' [= <- <-]. constructor; try reflexivity. intros H; exact H.
Qed.

Lemma keeps_set_providers p : keeps_tree (modify (set_providers p)).
Proof. apply (keeps_modify_providers (fun _ => p)). Qed.

Lemma keeps_AddRef id : keeps_tree (AddRef id).
Proof. apply (keeps_modify_providers (fun u => alter _ id (providers u))). Qed.

Lemma keeps_Release id : keeps_tree (Release id).
Proof. apply (keeps_modify_providers (fun u => alter _ id (providers u))). Qed.

Create HintDb keeps.
#[local] Hint Resolve keeps_ret keeps_fail keeps_gets keeps_get keeps_get_ui
  keeps_VERIFY keeps_at keeps_ui_get_index keeps_AddRef keeps_Release
  keeps_set_providers : keeps.

(** Splits a computation into its steps, each of which keeps the tree. *)
Ltac keeps :=
  repeat first
    [ progress auto with keeps
    | apply keeps_bind; [|intros ?]
    | match goal with
      | |- keeps_tree (if decide ?P then _ else _) => destruct (decide P)
      | |- keeps_tree (if ?b then _ else _) => destruct b
      | |- keeps_tree (match ?x with _ => _ end) => destruct x
      end ].

Lemma keeps_exists_id id : keeps_tree (exists_id id).
Proof. unfold exists_id. keeps. Qed.
#[local] Hint Resolve keeps_exists_id : keeps.

Lemma keeps_create_element_provider id : keeps_tree (create_element_provider id).
Proof.
  unfold create_element_provider. keeps.
Qed.
#[local] Hint Resolve keeps_create_element_provider : keeps.

Lemma keeps_create_simple_element_provider x :
  keeps_tree (create_simple_element_provider x).
Proof. unfold create_simple_element_provider. keeps. Qed.
#[local] Hint Resolve keeps_create_simple_element_provider : keeps.

Lemma keeps_ui_get_parent_index id : keeps_tree (ui_get_parent_index id).
Proof. unfold ui_get_parent_index. keeps. Qed.
#[local] Hint Resolve keeps_ui_get_parent_index : keeps.

Lemma keeps_ui_is_ancestor_from fuel c id : keeps_tree (ui_is_ancestor_from fuel c id).
Proof.
  revert id. induction fuel as [|fuel IH]; intros id; simpl; keeps.
Qed.
#[local] Hint Resolve keeps_ui_is_ancestor_from : keeps.

Lemma keeps_ui_is_ancestor c id : keeps_tree (ui_is_ancestor c id).
Proof. unfold ui_is_ancestor. keeps. Qed.
#[local] Hint Resolve keeps_ui_is_ancestor : keeps.

Lemma keeps_lift_while_shallower fuel i j id :
  keeps_tree (lift_while_shallower fuel i j id).
Proof.
  revert i id. induction fuel as [|fuel IH]; intros i id; simpl; keeps.
Qed.
#[local] Hint Resolve keeps_lift_while_shallower : keeps.

Lemma keeps_lift_both fuel s e : keeps_tree (lift_both fuel s e).
Proof.
  revert s e. induction fuel as [|fuel IH]; intros s e; simpl; keeps.
Qed.
#[local] Hint Resolve keeps_lift_both : keeps.

(** One step of a computation that is [Done]: its first part kept the tree. *)
Ltac kstep H :=
  let a := fresh "a" in
  let w1 := fresh "w" in
  let Hk := fresh "Hk" in
  let Hs := fresh "Hs" in
  apply bind_Done in H; destruct H as (a & w1 & Hk & H);
  match type of Hk with
  | ?c ?w = Done (_, ?w') =>
      assert (same_tree w w') as Hs
        by (let Hc := fresh in assert (keeps_tree c) as Hc by keeps; exact (Hc _ _ _ Hk))
  end.

(** ** Element providers *)

Lemma create_element_provider_Done id w p w' :
  create_element_provider id w = Done (p, w') -> p = AnyElementProvider id.
Proof.
  unfold create_element_provider. intros H.
  apply bind_Done in H as (e & w1 & _ & H).
  apply bind_Done in H as ([] & w2 & _ & H).
  apply bind_Done in H as (cache & w3 & _ & H).
  destruct (cache !! id).
  - apply bind_Done in H as ([] & w4 & _ & [= <- _]). reflexivity.
  - apply bind_Done in H as ([] & w4 & _ & H).
    apply bind_Done in H as ([] & w5 & _ & [= <- _]). reflexivity.
Qed.

Lemma create_element_provider_total id w :
  valid_id id = true -> id ∈ node_ids (g_ui w) ->
  exists w', create_element_provider id w = Done (AnyElementProvider id, w').
Proof.
  intros Hv Hin.
  unfold create_element_provider, exists_id, contains_id, bind, gets, ret.
  rewrite Hv, bool_decide_eq_true_2 by assumption. simpl.
  destruct (providers (g_ui w) !! id); simpl; eauto.
Qed.

Lemma create_simple_element_provider_Done x w p w' :
  create_simple_element_provider x w = Done (p, w') ->
  p = AnyElementProvider (focused_id (g_ui w)).
Proof.
  unfold create_simple_element_provider. intros H.
  apply bind_Done in H as (focused & w1 & [= <- <-] & H).
  apply bind_Done in H as (p' & w2 & Hp & H).
  apply create_element_provider_Done in Hp as ->.
  apply bind_Done in H as ([] & w3 & _ & H).
  apply bind_Done in H as ([] & w4 & _ & [= <- _]). reflexivity.
Qed.

Lemma create_simple_element_provider_total x w :
  valid_id (focused_id (g_ui w)) = true ->
  focused_id (g_ui w) ∈ node_ids (g_ui w) ->
  exists w', create_simple_element_provider x w
             = Done (AnyElementProvider (focused_id (g_ui w)), w').
Proof.
  intros Hv Hin.
  destruct (create_element_provider_total _ w Hv Hin) as (w1 & H1).
  unfold create_simple_element_provider, bind at 1. unfold gets at 1.
  unfold bind at 1. rewrite H1. unfold bind, AddRef, Release, modify, ret. eauto.
Qed.

Lemma GetEnclosingElement_Done this slot w hr out w' :
  GetEnclosingElement this (Some slot) w = Done (hr, out, w') ->
  hr = S_OK /\ out = Some (Some (AnyElementProvider (focused_id (g_ui w)))).
Proof.
  unfold GetEnclosingElement. intros H. case_decide.
  - apply bind_Done in H as (sp & w1 & Hsp & [= <- <- _]).
    apply create_simple_element_provider_Done in Hsp as ->. auto.
  - do 3 kstep H. kstep H. destruct a2 as [i start_id].
    kstep H. destruct a2 as [j end_id].
    do 9 kstep H.
    apply bind_Done in H as (sp & wz & Hsp & [= <- <- _]).
    apply create_simple_element_provider_Done in Hsp as ->.
    split; [reflexivity|]. do 3 f_equal.
    repeat match goal with Hs : same_tree _ _ |- _ =>
      rewrite (same_focused _ _ Hs); clear Hs end.
    reflexivity.
Qed.

Lemma GetChildren_loop_Done fuel this id offset children w r w' :
  GetChildren_loop fuel this id offset children w = Done (r, w') ->
  Forall (fun p => p = AnyElementProvider (focused_id (g_ui w))) children ->
  Forall (fun p => p = AnyElementProvider (focused_id (g_ui w))) r.
Proof.
  revert id children w. induction fuel as [|fuel IH]; intros id children w H Hall;
    simpl in H; [discriminate|].
  kstep H.
  apply bind_Done in H as (children' & w1 & Hch & H).
  assert (Forall (fun p => p = AnyElementProvider (focused_id (g_ui w))) children'
          /\ same_tree w0 w1) as [Hall' Hs1].
  { destruct (decide (offset = 0)).
    - assert (same_tree w0 w1) as Hs1.
      { assert (keeps_tree (let* focused := gets focused_id in
                            let* sp := create_simple_element_provider focused in
                            ret (children ++ [sp])))
          as Hc by keeps. exact (Hc _ _ _ Hch). }
      split; [|assumption].
      apply bind_Done in Hch as (focused & w2 & [= <- <-] & Hch).
      apply bind_Done in Hch as (sp & w3 & Hsp & [= <- _]).
      apply create_simple_element_provider_Done in Hsp as ->.
      apply Forall_app. split; [assumption|]. constructor; [|constructor].
      rewrite (same_focused _ _ Hs). reflexivity.
    - injection Hch as <- <-. split; [assumption | apply same_tree_refl]. }
  kstep H.
  case_decide; [injection H as <- _; assumption|].
  case_decide; [injection H as <- _; assumption|].
  kstep H.
  assert (focused_id (g_ui w3) = focused_id (g_ui w)) as Hfoc.
  { rewrite (same_focused _ _ Hs2), (same_focused _ _ Hs0), (same_focused _ _ Hs1),
      (same_focused _ _ Hs). reflexivity. }
  rewrite <- Hfoc. eapply IH; [eassumption|]. rewrite Hfoc. assumption.
Qed.

Lemma GetChildren_Done this slot w hr out w' :
  GetChildren this (Some slot) w = Done (hr, out, w') ->
  hr = S_OK
  /\ exists children, out = Some (Some children)
       /\ Forall (fun p => p = AnyElementProvider (focused_id (g_ui w))) children.
Proof.
  unfold GetChildren. intros H.
  apply bind_Done in H as (ids & w1 & [= <- <-] & H).
  apply bind_Done in H as (children & w2 & Hl & [= <- <- _]).
  split; [reflexivity|]. exists children. split; [reflexivity|].
  eapply GetChildren_loop_Done; [eassumption | constructor].
Qed.

(** C9: [create_simple_element_provider] does not look at its argument:
    when the focused id is a valid id of the store it returns the provider
    of the focused element, and it returns no other provider; so
    [GetEnclosingElement] and [GetChildren], whenever they return, hand
    back the provider of the focused element, for the enclosing element
    and for each element of the range. *)
Theorem create_simple_element_provider_hands_back_focused :
  (forall x y w, create_simple_element_provider x w = create_simple_element_provider y w)
  /\ (forall x w,
        valid_id (focused_id (g_ui w)) = true ->
        focused_id (g_ui w) ∈ node_ids (g_ui w) ->
        exists w', create_simple_element_provider x w
                   = Done (AnyElementProvider (focused_id (g_ui w)), w'))
  /\ (forall x w p w',
        create_simple_element_provider x w = Done (p, w') ->
        p = AnyElementProvider (focused_id (g_ui w)))
  /\ (forall this slot w hr out w',
        GetEnclosingElement this (Some slot) w = Done (hr, out, w') ->
        hr = S_OK /\ out = Some (Some (AnyElementProvider (focused_id (g_ui w)))))
  /\ (forall this slot w hr out w',
        GetChildren this (Some slot) w = Done (hr, out, w') ->
        hr = S_OK
        /\ exists children, out = Some (Some children)
             /\ Forall (fun p => p = AnyElementProvider (focused_id (g_ui w))) children).
Proof.
  split; [reflexivity|].
  split; [apply create_simple_element_provider_total|].
  split; [apply create_simple_element_provider_Done|].
  split; [apply GetEnclosingElement_Done | apply GetChildren_Done].
Qed.

Lemma create_simple_element_provider_hands_back_focused_witness :
  (exists w', create_simple_element_provider (id_at described 1) described
              = Done (AnyElementProvider (id_at described 2), w'))
  /\ result_of (GetEnclosingElement
                  {| start := start (whole_node described 2);
                     end_ := end_ (whole_node described 4) |} (Some None)) described
     = Some (S_OK, Some (Some (AnyElementProvider (id_at described 2))))
  /\ result_of (GetChildren
                  {| start := start (whole_node described 3);
                     end_ := end_ (whole_node described 4) |} (Some None)) described
     = Some (S_OK, Some (Some [AnyElementProvider (id_at described 2);
                               AnyElementProvider (id_at described 2)])).
Proof.
  destruct create_simple_element_provider_hands_back_focused as (_ & H & _).
  split; [|split; vm_compute; reflexivity].
  apply (H (id_at described 1) described); [vm_compute; reflexivity | by_running].
Defined.

(** ** Move *)

(** C2 (what the code does): [Move] never stores into the slot [pRetVal]:
    whenever it returns, the slot holds what it held before, whatever the
    number of steps that [advance_by_type] counted. *)
Theorem Move_leaves_the_slot_untouched
    (this : AnyElementTextRangeProvider) (unit : TextUnit) (count : Z)
    (pRetVal : option Z) (w : World) hr this' out w' :
  Move this unit count pRetVal w = Done (hr, this', out, w') -> out = pRetVal.
Proof.
  unfold Move. intros H. destruct pRetVal as [v|]; [|injection H as _ _ <- _; reflexivity].
  case_decide; [injection H as _ _ <- _; reflexivity|].
  destruct unit; try (injection H as _ _ <- _; reflexivity).
  all: repeat (apply bind_Done in H; destruct H as (? & ? & _ & H)).
  all: injection H as _ _ <- _; reflexivity.
Qed.

Lemma Move_leaves_the_slot_untouched_witness :
  result_of (advance_by_type (id_at described 2) 2 kText) described
    = Some {| new_id := id_at described 3; steps_taken := 2 |}
  /\ result_of (Move (whole_node described 2) TextUnit_Paragraph 2 (Some 0)) described
     = Some (S_OK, whole_node described 3, Some 0).
Proof.
  split; [vm_compute; reflexivity|].
  destruct (Move (whole_node described 2) TextUnit_Paragraph 2 (Some 0) described)
    as [[[[hr this'] out] w']|f] eqn:E; [|vm_compute in E; discriminate E].
  pose proof (Move_leaves_the_slot_untouched _ _ _ _ _ _ _ _ _ E) as ->.
  vm_compute in E. injection E as <- <- _. vm_compute. reflexivity.
Defined.

(** ** Requests that are not implemented *)

(** C4, as the specification states it, fails: [Move] by word answers
    [S_OK] on a degenerate range, and [AddToSelection] answers
    [E_UNEXPECTED]. *)
Lemma unsupported_requests_counterexample :
  deliberately_unsupported (Request_Move TextUnit_Word 1 (Some 0)) = true
  /\ answer (Request_Move TextUnit_Word 1 (Some 0)) empty_range (World0 false)
     = Done (S_OK, empty_range, Request_Move TextUnit_Word 1 (Some 0), World0 false)
  /\ deliberately_unsupported Request_AddToSelection = true
  /\ answer Request_AddToSelection empty_range (World0 false)
     = Done (E_UNEXPECTED, empty_range, Request_AddToSelection, World0 false).
Proof. repeat split. Qed.

(** C4, amended: a request that the engine does not implement on purpose
    (backward or case-insensitive [FindText], [Move] by word, line,
    character or format, [GetAttributeValue], [FindAttribute],
    [RemoveFromSelection], [Select]), that comes with the pointers it
    needs and, for [Move], on a range that is not degenerate, is answered
    with [E_NOTIMPL] and changes nothing: the range, the content of the
    output slot and the store are what they were.  [FindText] answers
    [E_POINTER] to a null slot and to a null text, [Move] to a null slot,
    and [Move] answers [S_OK] on a degenerate range, whatever the unit and
    the count; these change nothing either. *)
Theorem unsupported_requests_are_not_implemented
    (this : AnyElementTextRangeProvider) (w : World) :
  (forall req,
     deliberately_unsupported req = true ->
     req <> Request_AddToSelection ->
     reaches_the_engine req this = true ->
     answer req this w = Done (E_NOTIMPL, this, req, w))
  /\ (forall text backward ignoreCase slot,
        backward = true \/ ignoreCase = true ->
        FindText this (Some text) backward ignoreCase (Some slot) w
        = Done (E_NOTIMPL, Some slot, w))
  /\ (forall unit count slot,
        start this <> end_ this ->
        unit = TextUnit_Word \/ unit = TextUnit_Line
        \/ unit = TextUnit_Character \/ unit = TextUnit_Format ->
        Move this unit count (Some slot) w = Done (E_NOTIMPL, this, Some slot, w))
  /\ (forall unit count slot,
        start this = end_ this ->
        Move this unit count (Some slot) w = Done (S_OK, this, Some slot, w))
  /\ (forall unit count, Move this unit count None w = Done (E_POINTER, this, None, w))
  /\ (forall text backward ignoreCase,
        FindText this text backward ignoreCase None w = Done (E_POINTER, None, w))
  /\ (forall backward ignoreCase slot,
        FindText this None backward ignoreCase (Some slot) w
        = Done (E_POINTER, Some slot, w)).
Proof.
  split; [|split; [|split; [|split; [|split; [|split]]]]].
  - intros req Hu Hne Hr.
    destruct req as [text backward ignoreCase pRetVal|unit count pRetVal| | | | | ];
      simpl in *; try reflexivity; try congruence.
    + apply bool_decide_eq_true in Hr as [[search_text ->] [slot ->]].
      unfold FindText, bind, ret. destruct backward; [reflexivity|].
      destruct ignoreCase; [reflexivity|discriminate].
    + apply bool_decide_eq_true in Hr as [[v ->] Hnd].
      unfold Move, bind, ret. rewrite decide_False by assumption.
      destruct unit; try discriminate; reflexivity.
  - intros text backward ignoreCase slot Hb. unfold FindText.
    destruct backward; [reflexivity|]. destruct ignoreCase; [reflexivity|].
    destruct Hb; discriminate.
  - intros unit count slot Hnd Hunit. unfold Move. rewrite decide_False by assumption.
    destruct Hunit as [->|[->|[->| ->]]]; reflexivity.
  - intros unit count slot Hd. unfold Move. rewrite decide_True by assumption. reflexivity.
  - intros unit count. reflexivity.
  - intros text backward ignoreCase. reflexivity.
  - intros backward ignoreCase slot. reflexivity.
Qed.

Lemma unsupported_requests_are_not_implemented_witness :
  answer (Request_Move TextUnit_Word 1 (Some 0)) (whole_node described 2) described
    = Done (E_NOTIMPL, whole_node described 2, Request_Move TextUnit_Word 1 (Some 0),
            described)
  /\ FindText (whole_node described 2) (Some (L "Dreamer")) true false (Some None) described
     = Done (E_NOTIMPL, Some None, described)
  /\ Move (whole_node described 2) TextUnit_Line (-3) (Some 7) described
     = Done (E_NOTIMPL, whole_node described 2, Some 7, described)
  /\ Move empty_range TextUnit_Paragraph 2 (Some 7) described
     = Done (S_OK, empty_range, Some 7, described).
Proof.
  destruct (unsupported_requests_are_not_implemented (whole_node described 2) described)
    as (Hreq & Hfind & Hmove & _).
  destruct (unsupported_requests_are_not_implemented empty_range described)
    as (_ & _ & _ & Hdeg & _).
  split; [|split; [|split]].
  - apply Hreq; [reflexivity | discriminate | vm_compute; reflexivity].
  - apply Hfind. left. reflexivity.
  - apply Hmove; [vm_compute; discriminate | right; left; reflexivity].
  - apply Hdeg. reflexivity.
Defined.

(** ** The tree builder *)

Lemma same_nodes_refl w : same_nodes w w.
Proof. constructor; auto. Qed.

Lemma same_nodes_trans w1 w2 w3 : same_nodes w1 w2 -> same_nodes w2 w3 -> same_nodes w1 w3.
Proof. intros [] []. constructor; try congruence. auto. Qed.

Lemma ui_get_index_same_nodes id w i w' :
  ui_get_index id w = Done (i, w') -> g_ui w' = g_ui w /\ same_nodes w w'.
Proof.
  intros H. pose proof (keeps_ui_get_index _ _ _ _ H) as Hs.
  assert (g_ui w' = g_ui w) as Hu.
  { unfold ui_get_index, bind, get in H.
    destruct (VERIFY _ w) as [[[] w1]|] eqn:Ev; [|discriminate].
    apply VERIFY_Done in Ev as [Ev [= <-]].
    case_decide; [injection H as <- <-; reflexivity|].
    case_decide; [injection H as <- <-; reflexivity|].
    destruct (bool_decide _); simpl in H; [|discriminate].
    injection H as <- <-. reflexivity. }
  split; [assumption|]. constructor; try (rewrite Hu; reflexivity); apply Hs.
Qed.

Lemma set_text_len_same_nodes w lens :
  length lens = length (node_text_len (g_ui w)) ->
  same_nodes w (set_g_ui (set_node_text_len lens (g_ui w)) w).
Proof. intros Hl. constructor; try reflexivity; [assumption | intros H; exact H]. Qed.

(** The walk up the ancestors changes values of [node_text_len] only. *)
Lemma add_text_len_same_nodes fuel node_len parent_id w w' :
  add_text_len_to_ancestors fuel node_len parent_id w = Done (tt, w') ->
  same_nodes w w'.
Proof.
  revert parent_id w. induction fuel as [|fuel IH]; intros c w H; simpl in H.
  - case_decide; [injection H as <-; apply same_nodes_refl | discriminate].
  - case_decide; [injection H as <-; apply same_nodes_refl|].
    apply bind_Done in H as (k & w1 & Hk & H).
    apply ui_get_index_same_nodes in Hk as [Hu Hs1].
    apply bind_Done in H as (lens & w2 & [= <- <-] & H).
    apply bind_Done in H as (len & w3 & Hat & H).
    apply at_Done in Hat as (len' & Hlen & [= <- <-]).
    apply bind_Done in H as ([] & w4 & [= <-] & H).
    apply bind_Done in H as (parents & w5 & [= <- <-] & H).
    apply bind_Done in H as (p' & w6 & Hat & H).
    apply at_Done in Hat as (p'' & Hp & Heq). injection Heq as -> ->.
    apply IH in H.
    eapply same_nodes_trans; [exact Hs1|].
    eapply same_nodes_trans; [|exact H].
    apply set_text_len_same_nodes. apply length_insert.
Qed.

Lemma resolve_parent_pure w p w' :
  resolve_parent w = Done (p, w') -> w' = w.
Proof.
  unfold resolve_parent, bind, get_ui, gets. case_decide; [intros [= _ <-]; reflexivity|].
  destruct (rfind_depth _ _); [|discriminate].
  unfold at_size_t, at_. destruct (_ !! _); [intros [= _ <-]; reflexivity | discriminate].
Qed.

Section BuilderFacts.

Variable hash : wstring -> Z.
Variable wyhash64 : Z -> Z -> Z.

(** The steps of a call of [ui_named_element] that returns. *)
Lemma ui_named_element_steps name type w id w' :
  ui_named_element hash wyhash64 name type w = Done (id, w') ->
  exists p stored first_parent,
    resolve_parent w = Done (p, w)
    /\ id = make_id hash wyhash64 name p
    /\ valid_id id = true
    /\ (id ∉ node_ids (g_ui w))
    /\ (node_names (g_ui w) ++ [name]) !! length (node_ids (g_ui w)) = Some stored
    /\ (length (node_ids (g_ui w)) < S (length (node_text_len (g_ui w))))%nat
    /\ (node_parent (g_ui w) ++ [p]) !! length (node_ids (g_ui w)) = Some first_parent
    /\ add_text_len_to_ancestors (S (length (node_parent (g_ui w))))
         (Z.of_nat (length stored)) first_parent
         (before_walk id name type p (Z.of_nat (length stored)) w) = Done (tt, w').
Proof.
  unfold ui_named_element. intros H.
  apply bind_Done in H as (u & w0 & [= <- <-] & H).
  apply bind_Done in H as (p & w1 & Hp & H).
  pose proof (resolve_parent_pure _ _ _ Hp) as ->.
  apply bind_Done in H as ([] & w2 & Hv & H).
  apply VERIFY_Done in Hv as [Hv [= <-]].
  apply bind_Done in H as ([] & w3 & Hfresh & H).
  apply VERIFY_Done in Hfresh as [Hfresh [= <-]].
  apply negb_true_iff, bool_decide_eq_false in Hfresh.
  apply bind_Done in H as ([] & w4 & [= <-] & H).
  apply bind_Done in H as (names & w5 & [= <- <-] & H).
  apply bind_Done in H as (stored & w6 & Hat & H).
  apply at_Done in Hat as (stored' & Hstored & Heq). injection Heq as -> ->.
  apply bind_Done in H as (lens & w7 & [= <- <-] & H).
  apply bind_Done in H as ([] & w8 & Hlt & H).
  case_decide as Hlen; [|discriminate]. injection Hlt as <-.
  apply bind_Done in H as ([] & w9 & [= <-] & H).
  apply bind_Done in H as (parents & w10 & [= <- <-] & H).
  apply bind_Done in H as (fp & w11 & Hat & H).
  apply at_Done in Hat as (fp' & Hfp & Heq). injection Heq as -> ->.
  apply bind_Done in H as ([] & w12 & Hloop & [= <- <-]).
  simpl in Hstored, Hlen, Hfp, Hloop, Hfresh.
  rewrite length_app in Hlen. rewrite length_app in Hloop.
  rewrite Nat.add_1_r in Hlen, Hloop.
  exists p, stored', fp'. repeat (split; [first [assumption|reflexivity|lia]|]).
  exact Hloop.
Qed.

(** A call of [ui_named_element] that returns has added one node, whose
    id is made of its name and of the parent that [resolve_parent] found. *)
Lemma ui_named_element_Done name type w id w' :
  ui_named_element hash wyhash64 name type w = Done (id, w') ->
  exists p,
    resolve_parent w = Done (p, w)
    /\ id = make_id hash wyhash64 name p
    /\ valid_id id = true
    /\ (id ∉ node_ids (g_ui w))
    /\ node_added id name type (depth_for_adding_element (g_ui w)) p w w'
    /\ (fingers_ok w -> fingers_ok w').
Proof.
  intros H. apply ui_named_element_steps in H
    as (p & stored & fp & Hp & Hid & Hv & Hfresh & _ & _ & _ & Hloop).
  apply add_text_len_same_nodes in Hloop as [].
  exists p. repeat (split; [assumption|]). split.
  - constructor; simpl in *; try assumption.
    rewrite sn_text_len0, length_insert, length_app. simpl. lia.
  - intros Hf. apply sn_fingers_ok0. destruct Hf as [H0 H1].
    split; simpl; apply finger_ok_app; assumption.
Qed.

End BuilderFacts.

(** ** The resolution of the parent *)

Lemma rfind_depth_Some depths pd r :
  rfind_depth depths pd = Some r ->
  (r < length depths)%nat /\ most_recent_at_depth depths pd (length depths - 1 - r).
Proof.
  unfold rfind_depth. case_decide as Hlt; [|discriminate]. intros [= <-].
  split; [assumption|].
  pose proof Hlt as Hl. rewrite <- (length_reverse depths) in Hl.
  apply scan_ids_lookup in Hl. apply reverse_lookup_Some in Hl as [Hl _].
  split.
  - replace (length depths - 1 - scan_ids (reverse depths) pd)%nat
      with (length depths - S (scan_ids (reverse depths) pd))%nat by lia.
    assumption.
  - intros j Hj Hdj. pose proof (lookup_lt_Some _ _ _ Hdj) as Hjl.
    assert (reverse depths !! (length depths - S j)%nat = Some pd) as Hr.
    { apply reverse_lookup_Some. split; [|lia].
      replace (length depths - S (length depths - S j))%nat with j by lia.
      assumption. }
    apply scan_ids_first in Hr. lia.
Qed.

Lemma most_recent_at_depth_unique depths d k k' :
  most_recent_at_depth depths d k -> most_recent_at_depth depths d k' -> k = k'.
Proof.
  intros [Hk Hlast] [Hk' Hlast'].
  destruct (Nat.lt_trichotomy k k') as [Hlt|[Heq|Hlt]]; [|assumption|].
  - exfalso. eapply Hlast; eauto.
  - exfalso. eapply Hlast'; eauto.
Qed.

Lemma rfind_depth_most_recent depths pd k :
  most_recent_at_depth depths pd k ->
  rfind_depth depths pd = Some (length depths - 1 - k)%nat.
Proof.
  intros Hk. destruct (rfind_depth depths pd) as [r|] eqn:E.
  - apply rfind_depth_Some in E as [Hr Hm].
    pose proof (most_recent_at_depth_unique _ _ _ _ Hk Hm) as ->.
    f_equal. lia.
  - exfalso. unfold rfind_depth in E. case_decide as Hn; [discriminate|].
    apply Hn. rewrite <- (length_reverse depths). apply scan_ids_elem.
    apply elem_of_reverse. destruct Hk as [Hk _]. eapply list_elem_of_lookup_2; eauto.
Qed.

Lemma rfind_depth_None depths pd : pd ∉ depths -> rfind_depth depths pd = None.
Proof.
  intros Hn. unfold rfind_depth. rewrite scan_ids_fresh.
  - rewrite length_reverse. case_decide; [lia|reflexivity].
  - rewrite elem_of_reverse. assumption.
Qed.

Lemma to_size_t_small z : 0 <= z < size_max -> to_size_t z = z.
Proof. intros H. unfold to_size_t. apply Z.mod_small. assumption. Qed.

Lemma resolve_parent_root w :
  depth_for_adding_element (g_ui w) = 0 -> resolve_parent w = Done (0, w).
Proof.
  intros H. unfold resolve_parent, bind, get_ui, gets.
  rewrite decide_True by assumption. reflexivity.
Qed.

Lemma resolve_parent_most_recent w k p :
  aligned (g_ui w) -> countable_nodes (g_ui w) ->
  depth_for_adding_element (g_ui w) <> 0 ->
  most_recent_at_depth (node_depth (g_ui w)) (depth_for_adding_element (g_ui w) - 1) k ->
  node_ids (g_ui w) !! k = Some p ->
  resolve_parent w = Done (p, w).
Proof.
  intros Ha Hsz Hd Hk Hp. unfold resolve_parent, bind, get_ui, gets.
  rewrite decide_False by assumption.
  rewrite (rfind_depth_most_recent _ _ _ Hk).
  pose proof (lookup_lt_Some _ _ _ Hp) as Hlt.
  unfold countable_nodes in Hsz. rewrite (aligned_depth _ Ha).
  unfold at_size_t. rewrite to_size_t_small by lia.
  replace (Z.to_nat _) with k by lia.
  apply at_eq. assumption.
Qed.

Lemma resolve_parent_none w :
  depth_for_adding_element (g_ui w) <> 0 ->
  depth_for_adding_element (g_ui w) - 1 ∉ node_depth (g_ui w) ->
  resolve_parent w = Fail VerifyFailed.
Proof.
  intros Hd Hn. unfold resolve_parent, bind, get_ui, gets.
  rewrite decide_False by assumption. rewrite rfind_depth_None by assumption.
  reflexivity.
Qed.

(** What [resolve_parent] answers is the root or the id of an earlier
    node, one level up. *)
Lemma resolve_parent_Done w p :
  aligned (g_ui w) -> resolve_parent w = Done (p, w) ->
  (depth_for_adding_element (g_ui w) = 0 /\ p = 0)
  \/ (depth_for_adding_element (g_ui w) - 1 ∈ node_depth (g_ui w)
      /\ exists k, node_ids (g_ui w) !! k = Some p).
Proof.
  intros Ha. unfold resolve_parent, bind, get_ui, gets.
  case_decide as Hd; [intros [= <-]; left; auto|]. right.
  destruct (rfind_depth _ _) as [r|] eqn:E; [|discriminate].
  apply rfind_depth_Some in E as [Hr [Hm _]].
  split; [eapply list_elem_of_lookup_2; eauto|].
  unfold at_size_t in H. apply at_Done in H as (p' & Hp & [= <-]). eauto.
Qed.

(** C7: on a store whose columns have one length, with a number of nodes
    that a [size_t] holds: at depth [0] the parent of a new node is the
    root, id [0]; at another depth [d] it is the id of the most recent
    node of depth [d - 1], and when the store has no node of depth [d - 1]
    the [VERIFY] ends the construction; the node that [ui_named_element]
    adds has the parent so resolved. *)
Theorem parent_is_most_recent_node_one_level_up
    (hash : wstring -> Z) (wyhash64 : Z -> Z -> Z) (name : wstring) (type : UiType)
    (w : World) :
  aligned (g_ui w) -> countable_nodes (g_ui w) ->
  (depth_for_adding_element (g_ui w) = 0 -> resolve_parent w = Done (0, w))
  /\ (forall k p,
        depth_for_adding_element (g_ui w) <> 0 ->
        most_recent_at_depth (node_depth (g_ui w))
          (depth_for_adding_element (g_ui w) - 1) k ->
        node_ids (g_ui w) !! k = Some p ->
        resolve_parent w = Done (p, w))
  /\ (depth_for_adding_element (g_ui w) <> 0 ->
      depth_for_adding_element (g_ui w) - 1 ∉ node_depth (g_ui w) ->
      resolve_parent w = Fail VerifyFailed
      /\ ui_named_element hash wyhash64 name type w = Fail VerifyFailed)
  /\ (forall id w',
        ui_named_element hash wyhash64 name type w = Done (id, w') ->
        exists p, resolve_parent w = Done (p, w)
                  /\ node_parent (g_ui w') = node_parent (g_ui w) ++ [p]
                  /\ node_depth (g_ui w')
                     = node_depth (g_ui w) ++ [depth_for_adding_element (g_ui w)]
                  /\ node_ids (g_ui w') = node_ids (g_ui w) ++ [id]).
Proof.
  intros Ha Hsz. split; [apply resolve_parent_root|].
  split; [intros k p; apply resolve_parent_most_recent; assumption|].
  split.
  - intros Hd Hn. pose proof (resolve_parent_none w Hd Hn) as Hr.
    split; [assumption|].
    unfold ui_named_element, bind at 1. unfold get_ui, gets. unfold bind at 1.
    rewrite Hr. reflexivity.
  - intros id w' H. apply ui_named_element_Done in H as (p & Hp & _ & _ & _ & Hadd & _).
    exists p. destruct Hadd. auto.
Qed.

Lemma parent_is_most_recent_node_one_level_up_witness :
  depth_for_adding_element (g_ui described_one_level_down) = 1
  /\ node_depth (g_ui described_one_level_down) = [0; 1; 2; 2; 2; 1; 1]
  /\ resolve_parent described_one_level_down
     = Done (id_at described 0, described_one_level_down).
Proof.
  split; [vm_compute; reflexivity|]. split; [vm_compute; reflexivity|].
  assert (aligned (g_ui described_one_level_down)) as Ha
    by (constructor; vm_compute; reflexivity).
  assert (countable_nodes (g_ui described_one_level_down)) as Hsz
    by (vm_compute; reflexivity).
  destruct (parent_is_most_recent_node_one_level_up demo_hash demo_wyhash64
              (L "Main") kPane described_one_level_down Ha Hsz) as (_ & H & _).
  apply (H 0%nat).
  - vm_compute. discriminate.
  - assert (node_depth (g_ui described_one_level_down) = [0; 1; 2; 2; 2; 1; 1]) as ->
      by (vm_compute; reflexivity).
    split; [vm_compute; reflexivity|].
    intros j Hj. do 7 (destruct j as [|j]; [first [lia | vm_compute; discriminate]|]).
    vm_compute. discriminate.
  - vm_compute. reflexivity.
Defined.

(** ** The identity of an element *)

(** C6: the id that [ui_named_element] gives to a node is [make_id] of
    its name and of the id of its parent: two calls with the same name
    under the same parent id, in any two states of the store, return the
    same id. *)
Theorem element_id_depends_on_name_and_parent_only
    (hash : wstring -> Z) (wyhash64 : Z -> Z -> Z) (name : wstring)
    (type1 type2 : UiType) (w1 w2 : World) (parent_id id1 id2 : Id) (w1' w2' : World) :
  resolve_parent w1 = Done (parent_id, w1) ->
  resolve_parent w2 = Done (parent_id, w2) ->
  ui_named_element hash wyhash64 name type1 w1 = Done (id1, w1') ->
  ui_named_element hash wyhash64 name type2 w2 = Done (id2, w2') ->
  id1 = make_id hash wyhash64 name parent_id /\ id2 = id1.
Proof.
  intros Hp1 Hp2 H1 H2.
  apply ui_named_element_Done in H1 as (p1 & Hq1 & -> & _).
  apply ui_named_element_Done in H2 as (p2 & Hq2 & -> & _).
  rewrite Hp1 in Hq1. rewrite Hp2 in Hq2.
  injection Hq1 as <-. injection Hq2 as <-. auto.
Qed.

Lemma element_id_depends_on_name_and_parent_only_witness :
  node_ids (g_ui other_pass) <> node_ids (g_ui (World0 false))
  /\ result_of (ui_pane demo_hash demo_wyhash64 (L "Main")) other_pass
     = result_of (ui_document demo_hash demo_wyhash64 (L "Main")) (World0 false).
Proof.
  split; [vm_compute; discriminate|].
  destruct (ui_pane demo_hash demo_wyhash64 (L "Main") other_pass)
    as [[id1 w1']|f1] eqn:E1; [|vm_compute in E1; discriminate E1].
  destruct (ui_document demo_hash demo_wyhash64 (L "Main") (World0 false))
    as [[id2 w2']|f2] eqn:E2; [|vm_compute in E2; discriminate E2].
  unfold result_of. rewrite E1, E2.
  destruct (element_id_depends_on_name_and_parent_only demo_hash demo_wyhash64
              (L "Main") kDocument kPane (World0 false) other_pass 0 id2 id1 w2' w1')
    as [_ ->]; [reflexivity | reflexivity | exact E2 | exact E1 | reflexivity].
Defined.

(** ** Text aggregation *)

Lemma children_text_len_app parents lens p l id :
  length parents = length lens ->
  children_text_len (parents ++ [p]) (lens ++ [l]) id
  = children_text_len parents lens id + (if decide (p = id) then l else 0).
Proof.
  revert lens. induction parents as [|q parents IH]; intros [|m lens] Hlen;
    simpl in *; try discriminate.
  - lia.
  - rewrite IH by lia. lia.
Qed.

Lemma children_text_len_insert parents lens k pk lk v id :
  parents !! k = Some pk -> lens !! k = Some lk ->
  children_text_len parents (<[k := v]> lens) id
  = children_text_len parents lens id + (if decide (pk = id) then v - lk else 0).
Proof.
  revert lens k. induction parents as [|q parents IH]; intros [|m lens] [|k] Hp Hl;
    simpl in *; try discriminate.
  - injection Hp as ->. injection Hl as ->. case_decide; lia.
  - rewrite (IH _ _ Hp Hl). lia.
Qed.

Lemma children_text_len_none parents lens id :
  (forall j pj, parents !! j = Some pj -> pj <> id) ->
  children_text_len parents lens id = 0.
Proof.
  revert lens. induction parents as [|q parents IH]; intros [|m lens] H;
    simpl; try reflexivity.
  rewrite IH by (intros j pj Hj; apply (H (S j)); assumption).
  rewrite decide_False by (apply (H 0%nat); reflexivity). reflexivity.
Qed.

Lemma total_name_len_app names name :
  total_name_len (names ++ [name]) = total_name_len names + Z.of_nat (length name).
Proof.
  unfold total_name_len. induction names as [|n names IH]; simpl; [lia|].
  rewrite IH. lia.
Qed.

Lemma total_name_len_nonneg names : 0 <= total_name_len names.
Proof.
  unfold total_name_len. induction names as [|n names IH]; simpl; lia.
Qed.

(** A parent is not the node itself. *)
Lemma linked_parent_differs u k c p :
  linked u -> node_ids u !! k = Some c -> node_parent u !! k = Some p -> p <> c.
Proof.
  intros Hl Hc Hp ->. pose proof (linked_valid _ Hl) as Hv.
  destruct (linked_parent _ Hl _ _ Hp) as [->|(k' & Hlt & Hk')].
  - rewrite Forall_lookup in Hv. specialize (Hv _ _ Hc). discriminate.
  - pose proof (NoDup_lookup _ _ _ _ (linked_nodup _ Hl) Hc Hk'). lia.
Qed.

(** The walk up the ancestors, from the node [c] on, completes the
    aggregates, as long as no sum passes [size_max]. *)
Lemma add_text_len_aggregates fuel node_len c w w' :
  aligned (g_ui w) -> linked (g_ui w) -> fingers_ok w -> 0 <= node_len ->
  total_name_len (node_names (g_ui w)) < size_max ->
  short_at (g_ui w) node_len c -> bounded_at (g_ui w) node_len c ->
  add_text_len_to_ancestors fuel node_len c w = Done (tt, w') ->
  short_at (g_ui w') node_len 0 /\ bounded_at (g_ui w') node_len 0.
Proof.
  revert c w. induction fuel as [|fuel IH]; intros c w Ha Hl Hf HL HT Hs Hb H;
    simpl in H.
  { case_decide as Hc; [|discriminate]. injection H as <-. subst c. auto. }
  case_decide as Hc; [injection H as <-; subst c; auto|].
  apply bind_Done in H as (k & w1 & Hk & H).
  apply ui_get_index_Done in Hk as (Hv & Hscan & Hidk & Hu & Hst); [|assumption].
  apply bind_Done in H as (lens & w2 & [= <- <-] & H).
  apply bind_Done in H as (len & w3 & Hat & H).
  apply at_Done in Hat as (len' & Hlen & Heq). injection Heq as -> ->.
  apply bind_Done in H as ([] & w4 & [= <-] & H).
  apply bind_Done in H as (parents & w5 & [= <- <-] & H).
  apply bind_Done in H as (p' & w6 & Hat & H).
  apply at_Done in Hat as (p'' & Hp & Heq). injection Heq as -> ->.
  simpl in Hp. rewrite Hu in Hlen, Hp.
  destruct (Hb _ _ Hlen) as [[Hlen0 _] Htight].
  specialize (Htight Hc ltac:(lia)).
  assert (to_size_t (len' + node_len) = len' + node_len) as Hnowrap
    by (apply to_size_t_small; lia).
  rewrite Hnowrap, Hu in H.
  pose proof (linked_parent_differs _ _ _ _ Hl Hidk Hp) as Hpc.
  assert (p'' <> 0 -> exists k', (k' < k)%nat /\ scan_ids (node_ids (g_ui w)) p'' = k')
    as Hp''.
  { intros Hp0. destruct (linked_parent _ Hl _ _ Hp) as [?|(k' & Hlt & Hk')];
      [contradiction|].
    exists k'. split; [assumption|].
    apply scan_ids_nodup; [apply (linked_nodup _ Hl) | assumption]. }
  eapply IH; [..|exact H]; simpl; try assumption.
  - destruct Ha. constructor; simpl; try assumption.
    rewrite length_insert. assumption.
  - destruct Hl. constructor; simpl; assumption.
  - apply (same_fingers_ok _ _ Hst) in Hf. destruct Hf as [H0 H1].
    split; simpl; rewrite <- Hu; assumption.
  - intros i id name leni Hid Hname Hleni. simpl in *.
    rewrite (children_text_len_insert _ _ _ _ _ _ _ Hp Hlen).
    destruct (decide (i = k)) as [->|Hik].
    + rewrite list_lookup_insert_eq in Hleni by (eapply lookup_lt_Some; eauto).
      injection Hleni as <-. rewrite Hidk in Hid. injection Hid as <-.
      specialize (Hs _ _ _ _ Hidk Hname Hlen).
      rewrite decide_True in Hs by reflexivity.
      rewrite (decide_False (P := c = p'')) by congruence.
      rewrite (decide_False (P := p'' = c)) by congruence. lia.
    + rewrite list_lookup_insert_ne in Hleni by congruence.
      specialize (Hs _ _ _ _ Hid Hname Hleni).
      assert (id <> c) as Hne.
      { intros ->. apply Hik.
        eapply NoDup_lookup; [apply (linked_nodup _ Hl)|eassumption..]. }
      rewrite decide_False in Hs by assumption.
      destruct (decide (id = p'')) as [->|Hne'].
      * rewrite decide_True by reflexivity. lia.
      * rewrite decide_False by congruence. lia.
  - intros i leni Hleni. simpl in *.
    destruct (decide (i = k)) as [->|Hik].
    + rewrite list_lookup_insert_eq in Hleni by (eapply lookup_lt_Some; eauto).
      injection Hleni as <-. split; [lia|].
      intros Hp0 Hle. destruct (Hp'' Hp0) as (k' & Hlt & Hk'). lia.
    + rewrite list_lookup_insert_ne in Hleni by congruence.
      destruct (Hb _ _ Hleni) as [Hb0 Hb1]. split; [assumption|].
      intros Hp0 Hle. destruct (Hp'' Hp0) as (k' & Hlt & Hk').
      apply Hb1; [assumption|lia].
Qed.

(** The state before the walk: the store with the new node, whose
    aggregate is the length of its name. *)
Lemma before_walk_text_len id name type p node_len w :
  length (node_text_len (g_ui w)) = length (node_ids (g_ui w)) ->
  node_text_len (g_ui (before_walk id name type p node_len w))
  = node_text_len (g_ui w) ++ [node_len].
Proof.
  intros Hlen. simpl. rewrite insert_app_r_alt by lia.
  rewrite <- Hlen, Nat.sub_diag. reflexivity.
Qed.

Lemma before_walk_aligned id name type p node_len w :
  aligned (g_ui w) -> aligned (g_ui (before_walk id name type p node_len w)).
Proof.
  intros []. constructor; simpl;
    rewrite ?length_insert, !length_app; simpl; lia.
Qed.

Lemma before_walk_fingers_ok id name type p node_len w :
  fingers_ok w -> fingers_ok (before_walk id name type p node_len w).
Proof. intros [H0 H1]. split; simpl; apply finger_ok_app; assumption. Qed.

Lemma before_walk_linked id name type p node_len w :
  aligned (g_ui w) -> linked (g_ui w) ->
  valid_id id = true -> id ∉ node_ids (g_ui w) ->
  resolve_parent w = Done (p, w) ->
  linked (g_ui (before_walk id name type p node_len w)).
Proof.
  intros Ha Hl Hv Hfresh Hp. destruct Hl as [Hvalid Hnd Hpar Hdep].
  destruct (resolve_parent_Done _ _ Ha Hp) as [[Hd ->]|[Hd [k Hk]]];
    (constructor; simpl;
     [ apply Forall_app; split; [assumption | repeat constructor; assumption]
     | apply NoDup_app; split; [assumption|]; split;
       [ intros x Hx Hx'; apply list_elem_of_singleton in Hx' as ->; contradiction
       | apply NoDup_singleton ]
     | | ]).
  - intros j q Hj. apply lookup_app_Some in Hj as [Hj|[Hlen Hj]].
    + destruct (Hpar _ _ Hj) as [->|(k & Hlt & Hk)]; [left; reflexivity|].
      right. exists k. split; [assumption|]. apply lookup_app_l_Some. assumption.
    + left. apply list_lookup_singleton_Some in Hj as [_ <-]. reflexivity.
  - apply Forall_app. split; [assumption|]. repeat constructor. lia.
  - intros j q Hj. apply lookup_app_Some in Hj as [Hj|[Hlen Hj]].
    + destruct (Hpar _ _ Hj) as [->|(k' & Hlt & Hk')]; [left; reflexivity|].
      right. exists k'. split; [assumption|]. apply lookup_app_l_Some. assumption.
    + right. apply list_lookup_singleton_Some in Hj as [Hj0 <-].
      exists k. split; [|apply lookup_app_l_Some; assumption].
      apply lookup_lt_Some in Hk. rewrite (aligned_parent _ Ha) in Hlen. lia.
  - apply Forall_app. split; [assumption|]. repeat constructor.
    rewrite Forall_forall in Hdep. specialize (Hdep _ Hd). lia.
Qed.

Lemma resolve_parent_known w p :
  aligned (g_ui w) -> resolve_parent w = Done (p, w) ->
  p = 0 \/ p ∈ node_ids (g_ui w).
Proof.
  intros Ha Hp. destruct (resolve_parent_Done _ _ Ha Hp) as [[_ ->]|[_ [k Hk]]];
    [left; reflexivity | right; eapply list_elem_of_lookup_2; eauto].
Qed.

Lemma before_walk_short_at id name type p w :
  aligned (g_ui w) -> linked (g_ui w) ->
  valid_id id = true -> id ∉ node_ids (g_ui w) ->
  p = 0 \/ p ∈ node_ids (g_ui w) ->
  (forall i, aggregated_at (g_ui w) i) ->
  short_at (g_ui (before_walk id name type p (Z.of_nat (length name)) w))
    (Z.of_nat (length name)) p.
Proof.
  intros Ha Hl Hv Hfresh Hp Hagg i id' name' len.
  rewrite before_walk_text_len by apply Ha. simpl.
  rewrite children_text_len_app
    by (rewrite (aligned_parent _ Ha), (aligned_text_len _ Ha); reflexivity).
  assert (id <> p) as Hidp.
  { destruct Hp as [->|Hp]; [apply valid_id_nonzero; assumption|].
    intros ->. contradiction. }
  intros Hid Hname Hlen.
  destruct (decide (i < length (node_ids (g_ui w)))%nat) as [Hlt|Hge].
  - rewrite lookup_app_l in Hid by assumption.
    rewrite lookup_app_l in Hname by (rewrite (aligned_names _ Ha); assumption).
    rewrite lookup_app_l in Hlen by (rewrite (aligned_text_len _ Ha); assumption).
    pose proof (Hagg i _ _ _ Hid Hname Hlen) as ->.
    destruct (decide (id' = p)) as [->|Hne].
    + rewrite decide_True by reflexivity. lia.
    + rewrite decide_False by congruence. lia.
  - assert (i = length (node_ids (g_ui w))) as ->.
    { apply lookup_lt_Some in Hid. rewrite length_app in Hid. simpl in Hid. lia. }
    rewrite list_lookup_middle in Hid by reflexivity.
    rewrite list_lookup_middle in Hname by (symmetry; apply Ha).
    rewrite list_lookup_middle in Hlen by (symmetry; apply Ha).
    injection Hid as <-. injection Hname as <-. injection Hlen as <-.
    rewrite decide_False by assumption. rewrite decide_False by congruence.
    rewrite children_text_len_none; [lia|].
    intros j pj Hj ->.
    destruct (linked_parent _ Hl _ _ Hj) as [->|(k & _ & Hk)].
    + discriminate Hv.
    + apply Hfresh. eapply list_elem_of_lookup_2; eauto.
Qed.

Lemma before_walk_bounded_at id name type p w :
  aligned (g_ui w) ->
  p = 0 \/ p ∈ node_ids (g_ui w) ->
  Forall (fun len => 0 <= len <= total_name_len (node_names (g_ui w)))
    (node_text_len (g_ui w)) ->
  bounded_at (g_ui (before_walk id name type p (Z.of_nat (length name)) w))
    (Z.of_nat (length name)) p.
Proof.
  intros Ha Hp Hb i len.
  rewrite before_walk_text_len by apply Ha. simpl.
  rewrite total_name_len_app.
  pose proof (total_name_len_nonneg (node_names (g_ui w))) as HT.
  intros Hlen. apply lookup_app_Some in Hlen as [Hlen|[Hge Hlen]].
  - rewrite Forall_lookup in Hb. specialize (Hb _ _ Hlen). lia.
  - apply list_lookup_singleton_Some in Hlen as [Hi <-]. split; [lia|].
    intros Hp0 Hle. exfalso. destruct Hp as [->|Hp]; [congruence|].
    rewrite scan_ids_app in Hle by assumption.
    apply scan_ids_elem in Hp. rewrite (aligned_text_len _ Ha) in Hge. lia.
Qed.

Section Preservation.

Variable hash : wstring -> Z.
Variable wyhash64 : Z -> Z -> Z.

(** [ui_named_element] keeps the store well formed. *)
Lemma ui_named_element_well_formed name type w id w' :
  well_formed w ->
  ui_named_element hash wyhash64 name type w = Done (id, w') ->
  well_formed w'.
Proof.
  intros [Ha Hl Hf Hagg] H.
  apply ui_named_element_steps in H
    as (p & stored & fp & Hp & Hid & Hv & Hfresh & Hstored & _ & Hfp & Hloop).
  rewrite list_lookup_middle in Hstored by (symmetry; apply Ha).
  rewrite list_lookup_middle in Hfp by (symmetry; apply Ha).
  injection Hstored as <-. injection Hfp as <-.
  set (wb := before_walk id name type p (Z.of_nat (length name)) w) in *.
  pose proof (before_walk_aligned id name type p (Z.of_nat (length name)) w Ha) as Hab.
  pose proof (before_walk_linked id name type p (Z.of_nat (length name)) w
                Ha Hl Hv Hfresh Hp) as Hlb.
  pose proof (before_walk_fingers_ok id name type p (Z.of_nat (length name)) w Hf)
    as Hfb.
  fold wb in Hab, Hlb, Hfb.
  pose proof (add_text_len_same_nodes _ _ _ _ _ Hloop) as Hsn.
  assert (aligned (g_ui w')) as Ha'.
  { destruct Hsn as [e1 e2 e3 e4 e5 e6 e7 _ _ _ _ _ _ _].
    constructor; rewrite ?e1, ?e2, ?e3, ?e4, ?e5, ?e6, ?e7; apply Hab. }
  assert (linked (g_ui w')) as Hl'.
  { destruct Hsn as [e1 e2 e3 e4 e5 e6 e7 _ _ _ _ _ _ _].
    constructor; rewrite ?e1, ?e2, ?e3, ?e4, ?e5, ?e6, ?e7; apply Hlb. }
  constructor; [assumption | assumption | apply (sn_fingers_ok _ _ Hsn Hfb) |].
  intros HT'. rewrite (sn_names _ _ Hsn) in HT'.
  assert (total_name_len (node_names (g_ui w)) < size_max) as HT.
  { simpl in HT'. rewrite total_name_len_app in HT'. lia. }
  destruct (Hagg HT) as [Hat Hbd].
  pose proof (resolve_parent_known _ _ Ha Hp) as Hpk.
  destruct (add_text_len_aggregates _ _ _ _ _ Hab Hlb Hfb (Nat2Z.is_nonneg _) HT'
              (before_walk_short_at id name type p w Ha Hl Hv Hfresh Hpk Hat)
              (before_walk_bounded_at id name type p w Ha Hpk Hbd) Hloop)
    as [Hs' Hb'].
  split.
  - intros i id' name' len Hid' Hname' Hlen'.
    specialize (Hs' _ _ _ _ Hid' Hname' Hlen').
    rewrite decide_False in Hs'; [lia|].
    apply valid_id_nonzero.
    pose proof (linked_valid _ Hl') as Hvs. rewrite Forall_lookup in Hvs. eauto.
  - apply Forall_lookup. intros i len Hlen. apply (Hb' _ _ Hlen).
Qed.

End Preservation.

(** The walk up the ancestors ends: the fuel of [ui_named_element], the
    number of nodes, is enough on a well-formed store. *)
Lemma add_text_len_total fuel node_len c w :
  aligned (g_ui w) -> linked (g_ui w) -> fingers_ok w ->
  c = 0 \/ (exists k, node_ids (g_ui w) !! k = Some c /\ (k < fuel)%nat) ->
  exists w', add_text_len_to_ancestors fuel node_len c w = Done (tt, w').
Proof.
  revert c w. induction fuel as [|fuel IH]; intros c w Ha Hl Hf Hc.
  { destruct Hc as [->|(k & _ & Hk)]; [simpl; eauto | lia]. }
  destruct Hc as [->|(k & Hid & Hk)]; [simpl; eauto|].
  assert (valid_id c = true) as Hv.
  { pose proof (linked_valid _ Hl) as Hvs. rewrite Forall_lookup in Hvs. eauto. }
  assert (c ∈ node_ids (g_ui w)) as Hin by (eapply list_elem_of_lookup_2; eauto).
  destruct (ui_get_index_total _ _ Hf Hv Hin) as (w1 & Hi & Hu & Hs).
  rewrite (scan_ids_nodup _ _ _ (linked_nodup _ Hl) Hid) in Hi.
  pose proof (lookup_lt_Some _ _ _ Hid) as Hlt.
  destruct (lookup_lt_is_Some_2 (node_text_len (g_ui w)) k) as [len Hlen];
    [rewrite (aligned_text_len _ Ha); assumption|].
  destruct (lookup_lt_is_Some_2 (node_parent (g_ui w)) k) as [p Hp];
    [rewrite (aligned_parent _ Ha); assumption|].
  simpl. rewrite decide_False by (apply valid_id_nonzero; assumption).
  rewrite (bind_eq _ _ _ _ _ Hi).
  unfold bind at 1. unfold gets at 1. unfold bind at 1. rewrite Hu, (at_eq _ _ _ _ Hlen).
  unfold bind at 1. unfold modify at 1. unfold bind at 1. unfold gets at 1.
  unfold bind at 1. simpl. rewrite Hu, (at_eq _ _ _ _ Hp).
  apply IH; simpl.
  - destruct Ha. constructor; simpl; try assumption. rewrite length_insert. assumption.
  - destruct Hl. constructor; simpl; assumption.
  - apply (same_fingers_ok _ _ Hs) in Hf. destruct Hf as [H0 H1].
    split; simpl; rewrite <- Hu; assumption.
  - destruct (linked_parent _ Hl _ _ Hp) as [->|(k' & Hlt' & Hk')]; [left; reflexivity|].
    right. exists k'. split; [assumption|lia].
Qed.

Section Returns.

Variable hash : wstring -> Z.
Variable wyhash64 : Z -> Z -> Z.

(** On a well-formed store [ui_named_element] returns as soon as its
    [VERIFY]s hold: the parent is found, and the id is valid and new. *)
Lemma ui_named_element_returns name type w p :
  well_formed w ->
  resolve_parent w = Done (p, w) ->
  valid_id (make_id hash wyhash64 name p) = true ->
  make_id hash wyhash64 name p ∉ node_ids (g_ui w) ->
  exists w', ui_named_element hash wyhash64 name type w
             = Done (make_id hash wyhash64 name p, w').
Proof.
  intros [Ha Hl Hf _] Hp Hv Hfresh.
  set (id := make_id hash wyhash64 name p) in *.
  set (node_len := Z.of_nat (length name)).
  destruct (add_text_len_total (S (length (node_parent (g_ui w)))) node_len p
              (before_walk id name type p node_len w)) as (w' & Hloop).
  { apply before_walk_aligned. assumption. }
  { apply before_walk_linked; assumption. }
  { apply before_walk_fingers_ok. assumption. }
  { destruct (resolve_parent_known _ _ Ha Hp) as [->|Hin]; [left; reflexivity|].
    right. apply list_elem_of_lookup_1 in Hin as [k Hk]. exists k. split.
    - simpl. apply lookup_app_l_Some. assumption.
    - apply lookup_lt_Some in Hk. rewrite (aligned_parent _ Ha). lia. }
  exists w'. unfold ui_named_element.
  erewrite bind_eq by reflexivity.
  erewrite bind_eq by exact Hp.
  fold id. erewrite bind_eq by (rewrite Hv; reflexivity).
  erewrite bind_eq
    by (unfold contains_id; rewrite bool_decide_eq_false_2 by assumption; reflexivity).
  erewrite bind_eq by reflexivity.
  erewrite bind_eq by reflexivity.
  erewrite bind_eq
    by (apply at_eq; simpl; apply list_lookup_middle; symmetry; apply Ha).
  erewrite bind_eq by reflexivity.
  erewrite bind_eq
    by (rewrite decide_True;
        [reflexivity | simpl; rewrite length_app, (aligned_text_len _ Ha); simpl; lia]).
  erewrite bind_eq by reflexivity.
  erewrite bind_eq by reflexivity.
  erewrite bind_eq
    by (apply at_eq; simpl; apply list_lookup_middle; symmetry; apply Ha).
  erewrite bind_eq
    by (simpl node_parent; rewrite length_app, Nat.add_1_r; exact Hloop).
  reflexivity.
Qed.

End Returns.

(** A change of the rectangles, the actions, the providers, the focus or
    the depth for adding keeps the store well formed. *)
Lemma well_formed_same_columns w w' :
  node_ids (g_ui w') = node_ids (g_ui w) ->
  node_names (g_ui w') = node_names (g_ui w) ->
  node_type (g_ui w') = node_type (g_ui w) ->
  node_parent (g_ui w') = node_parent (g_ui w) ->
  node_depth (g_ui w') = node_depth (g_ui w) ->
  node_text_len (g_ui w') = node_text_len (g_ui w) ->
  length (node_rect (g_ui w')) = length (node_rect (g_ui w)) ->
  (fingers_ok w -> fingers_ok w') ->
  well_formed w -> well_formed w'.
Proof.
  intros e1 e2 e3 e4 e5 e6 e7 Hf [Ha Hl Hfo Hagg].
  constructor.
  - constructor; rewrite ?e1, ?e2, ?e3, ?e4, ?e5, ?e6, ?e7; apply Ha.
  - constructor; rewrite ?e1, ?e2, ?e3, ?e4, ?e5, ?e6, ?e7; apply Hl.
  - auto.
  - unfold aggregated, aggregated_at. rewrite e1, e2, e4, e6. exact Hagg.
Qed.

Lemma well_formed_same_tree w w' : same_tree w w' -> well_formed w -> well_formed w'.
Proof.
  intros Hs. apply well_formed_same_columns; try apply Hs.
  rewrite (same_rect _ _ Hs). reflexivity.
Qed.

Lemma well_formed_World0 l : well_formed (World0 l).
Proof.
  constructor.
  - constructor; reflexivity.
  - constructor; simpl; try constructor. discriminate.
  - apply fingers_ok_World0.
  - intros _. split; [|constructor]. intros i id name len Hid. discriminate Hid.
Qed.

Lemma ui_set_rect_well_formed id rect w w' :
  well_formed w -> ui_set_rect id rect w = Done (tt, w') -> well_formed w'.
Proof.
  intros Hw H. unfold ui_set_rect in H.
  apply bind_Done in H as (i & w1 & Hi & H).
  pose proof (well_formed_same_tree _ _ (keeps_ui_get_index _ _ _ _ Hi) Hw) as Hw1.
  apply ui_get_index_Done in Hi as (_ & _ & Hl & Hu & _); [|apply Hw].
  apply bind_Done in H as (rects & w2 & [= <- <-] & [= <-]).
  apply lookup_lt_Some in Hl. rewrite <- Hu in Hl.
  rewrite <- (aligned_rect _ (wf_aligned _ Hw1)) in Hl.
  revert Hw1. apply well_formed_same_columns; try reflexivity; [|intros Hf; exact Hf].
  simpl. rewrite length_insert, length_app, length_replicate. lia.
Qed.

Section Calls.

Variable hash : wstring -> Z.
Variable wyhash64 : Z -> Z -> Z.

Lemma ui_button_well_formed text action w id w' :
  well_formed w -> ui_button hash wyhash64 text action w = Done (id, w') ->
  well_formed w'.
Proof.
  intros Hw H. unfold ui_button in H.
  apply bind_Done in H as (id' & w1 & Hn & H).
  apply (ui_named_element_well_formed _ _ _ _ _ _ _ Hw) in Hn.
  unfold bind, gets, modify, ret in H. simpl in H.
  destruct (bool_decide _); simpl in H; [|discriminate]. injection H as _ <-.
  revert Hn. apply well_formed_same_columns; try reflexivity. intros Hf; exact Hf.
Qed.

Lemma run_call_well_formed c w w' :
  well_formed w -> run_call hash wyhash64 c w = Done (tt, w') -> well_formed w'.
Proof.
  intros Hw H. destruct c as [name type|text action| | |id rect]; simpl in H.
  - apply bind_Done in H as (id & w1 & Hn & [= <-]).
    eapply ui_named_element_well_formed; eauto.
  - apply bind_Done in H as (id & w1 & Hn & [= <-]).
    eapply ui_button_well_formed; eauto.
  - injection H as <-. revert Hw.
    apply well_formed_same_columns; try reflexivity. intros Hf; exact Hf.
  - injection H as <-. revert Hw.
    apply well_formed_same_columns; try reflexivity. intros Hf; exact Hf.
  - eapply ui_set_rect_well_formed; eauto.
Qed.

(** Every sequence of calls of the builder keeps the store well formed. *)
Lemma run_calls_well_formed cs w w' :
  well_formed w -> run_calls hash wyhash64 cs w = Done (tt, w') -> well_formed w'.
Proof.
  revert w. induction cs as [|c cs IH]; intros w Hw H; simpl in H.
  - injection H as <-. assumption.
  - apply bind_Done in H as ([] & w1 & Hc & H).
    eapply IH; [|exact H]. eapply run_call_well_formed; eauto.
Qed.

(** C3: after every sequence of calls of the tree builder, started on
    the empty store, the [node_text_len] of every node is the length of
    its name plus the sum of the [node_text_len] of the nodes whose
    parent it is, when the names together are no longer than a [size_t]
    can tell. *)
Theorem text_len_is_aggregated
    (cs : list BuilderCall) (listening : bool) (w : World) :
  run_calls hash wyhash64 cs (World0 listening) = Done (tt, w) ->
  total_name_len (node_names (g_ui w)) < size_max ->
  forall i id name len,
    node_ids (g_ui w) !! i = Some id ->
    node_names (g_ui w) !! i = Some name ->
    node_text_len (g_ui w) !! i = Some len ->
    len = Z.of_nat (length name)
          + children_text_len (node_parent (g_ui w)) (node_text_len (g_ui w)) id.
Proof.
  intros Hrun HT.
  pose proof (run_calls_well_formed _ _ _ (well_formed_World0 listening) Hrun) as Hw.
  destruct (wf_aggregated _ Hw HT) as [Hagg _]. exact Hagg.
Qed.

End Calls.

Lemma text_len_is_aggregated_witness :
  node_text_len (g_ui built_by_calls) = [119; 78; 28; 25; 21; 20; 17]
  /\ 78 = 4 + children_text_len (node_parent (g_ui built_by_calls))
                 (node_text_len (g_ui built_by_calls)) (id_at built_by_calls 1).
Proof.
  split; [vm_compute; reflexivity|].
  apply (text_len_is_aggregated demo_hash demo_wyhash64 describe_calls false
           built_by_calls) with (i := 1%nat) (name := L "Main");
    vm_compute; reflexivity.
Defined.

(** ** The hit tester *)

Lemma locate_from_cons u x y r rects i depth id :
  locate_from u x y (r :: rects) i depth id
  = match node_depth u !! i with
    | None => Fail Undefined
    | Some d =>
        if decide (d < depth) then locate_from u x y rects (S i) depth id
        else if inside r x y then
          match node_ids u !! i with
          | None => Fail Undefined
          | Some nid => locate_from u x y rects (S i) d nid
          end
        else locate_from u x y rects (S i) depth id
    end.
Proof.
  simpl. destruct (node_depth u !! i) as [d|]; [|reflexivity].
  case_decide; [reflexivity|]. unfold inside.
  destruct (Qltb y _), (Qle_bool _ y), (Qltb x _), (Qle_bool _ x); reflexivity.
Qed.

Lemma located_skip_shallower u x y n depth id r d :
  located u x y n depth id -> node_rect u !! n = Some r ->
  node_depth u !! n = Some d -> 0 <= d -> d < depth ->
  located u x y (S n) depth id.
Proof.
  intros [(-> & -> & _)|(k & Hk & Hin & Hid & Hd & Hbest)] Hr Hdn Hd0 Hlt; [lia|].
  right. exists k. split; [lia|]. repeat (split; [assumption|]).
  intros j rj dj Hj Hrj Hinj Hdj.
  destruct (decide (j = n)) as [->|Hne]; [|apply (Hbest j rj); auto; lia].
  rewrite Hdn in Hdj. injection Hdj as <-. left. assumption.
Qed.

Lemma located_skip_outside u x y n depth id r :
  located u x y n depth id -> node_rect u !! n = Some r -> inside r x y = false ->
  located u x y (S n) depth id.
Proof.
  intros [(-> & -> & Hnone)|(k & Hk & Hin & Hid & Hd & Hbest)] Hr Hout.
  - left. repeat (split; [reflexivity|]). intros j rj Hj Hrj.
    destruct (decide (j = n)) as [->|Hne]; [congruence|]. apply (Hnone j); [lia|assumption].
  - right. exists k. split; [lia|]. repeat (split; [assumption|]).
    intros j rj dj Hj Hrj Hinj Hdj.
    destruct (decide (j = n)) as [->|Hne]; [congruence|]. apply (Hbest j rj); auto; lia.
Qed.

Lemma located_take u x y n depth id r d nid :
  located u x y n depth id -> node_rect u !! n = Some r -> inside r x y = true ->
  node_depth u !! n = Some d -> node_ids u !! n = Some nid -> ~ d < depth ->
  located u x y (S n) d nid.
Proof.
  intros Hloc Hr Hin Hd Hid Hge. right. exists n. split; [lia|].
  split; [eauto|]. repeat (split; [assumption|]).
  intros j rj dj Hj Hrj Hinj Hdj.
  destruct (decide (j = n)) as [->|Hne].
  { rewrite Hd in Hdj. injection Hdj as <-. right. split; [reflexivity|lia]. }
  destruct Hloc as [(-> & -> & Hnone)|(k & Hk & _ & _ & _ & Hbest)].
  - rewrite (Hnone j rj) in Hinj by (assumption || lia). discriminate.
  - destruct (Hbest j rj dj) as [Hlt|[-> Hjk]]; try assumption; [lia|left; lia|].
    destruct (decide (depth = d)) as [->|Hdd]; [right; split; [reflexivity|lia]|left; lia].
Qed.

Lemma locate_from_located u x y rects pre i depth id depth' id' :
  node_rect u = pre ++ rects -> length pre = i ->
  Forall (fun d => 0 <= d) (node_depth u) ->
  located u x y i depth id ->
  locate_from u x y rects i depth id = Done (depth', id') ->
  located u x y (length (node_rect u)) depth' id'.
Proof.
  intros Hsplit Hi Hnn. revert pre i depth id Hsplit Hi.
  induction rects as [|r rects IH]; intros pre i depth id Hsplit Hi Hloc H.
  - injection H as <- <-. rewrite Hsplit, app_nil_r, Hi. assumption.
  - rewrite locate_from_cons in H.
    assert (node_rect u !! i = Some r) as Hr
      by (rewrite Hsplit; apply list_lookup_middle; auto).
    assert (node_rect u = (pre ++ [r]) ++ rects) as Hsplit'
      by (rewrite Hsplit, <- app_assoc; reflexivity).
    assert (length (pre ++ [r]) = S i) as Hi'
      by (rewrite length_app; simpl; lia).
    destruct (node_depth u !! i) as [d|] eqn:Hd; [|discriminate].
    assert (0 <= d) as Hd0 by (rewrite Forall_lookup in Hnn; eauto).
    case_decide as Hlt.
    { eapply IH; [exact Hsplit'|exact Hi'| |exact H].
      eapply located_skip_shallower; eauto. }
    destruct (inside r x y) eqn:Hin.
    + destruct (node_ids u !! i) as [nid|] eqn:Hid; [|discriminate].
      eapply IH; [exact Hsplit'|exact Hi'| |exact H].
      eapply located_take; eauto.
    + eapply IH; [exact Hsplit'|exact Hi'| |exact H].
      eapply located_skip_outside; eauto.
Qed.

(** The element that the loop of the hit tester selects: the root when no
    rectangle holds the point, and else the deepest node whose rectangle
    holds it, the latest of the deepest. *)
Lemma locate_deepest_latest u x y depth id :
  Forall (fun d => 0 <= d) (node_depth u) ->
  locate u x y = Done (depth, id) ->
  located u x y (length (node_rect u)) depth id.
Proof.
  intros Hnn H. unfold locate in H.
  eapply (locate_from_located u x y (node_rect u) []); eauto.
  left. repeat (split; [reflexivity|]). intros j rj Hj. simpl in Hj. lia.
Qed.

Lemma locate_from_total u x y rects pre i depth id :
  aligned u -> node_rect u = pre ++ rects -> length pre = i ->
  exists res, locate_from u x y rects i depth id = Done res.
Proof.
  intros Ha. revert pre i depth id.
  induction rects as [|r rects IH]; intros pre i depth id Hsplit Hi; [simpl; eauto|].
  rewrite locate_from_cons.
  assert (node_rect u = (pre ++ [r]) ++ rects) as Hsplit'
    by (rewrite Hsplit, <- app_assoc; reflexivity).
  assert (length (pre ++ [r]) = S i) as Hi'
    by (rewrite length_app; simpl; lia).
  assert (i < length (node_ids u))%nat as Hlt.
  { rewrite <- (aligned_rect _ Ha), Hsplit, length_app. simpl. lia. }
  destruct (lookup_lt_is_Some_2 (node_depth u) i) as [d ->];
    [rewrite (aligned_depth _ Ha); assumption|].
  destruct (lookup_lt_is_Some_2 (node_ids u) i) as [nid ->]; [assumption|].
  case_decide; [eapply IH; eauto|]. destruct (inside r x y); eapply IH; eauto.
Qed.

(** On a store with aligned columns the loop of the hit tester ends. *)
Lemma locate_total u x y : aligned u -> exists res, locate u x y = Done res.
Proof. intros Ha. eapply (locate_from_total u x y (node_rect u) []); eauto. Qed.

(** What [ElementProviderFromPoint] hands back when the loop has selected
    an element: the provider of the focused element. *)
Lemma ElementProviderFromPoint_Done LeftTop x y slot w hr out w' :
  ElementProviderFromPoint LeftTop x y (Some slot) w = Done (hr, out, w') ->
  exists depth id,
    locate (g_ui w) (x - inject_Z (px LeftTop))%Q (y - inject_Z (py LeftTop))%Q
      = Done (depth, id)
    /\ hr = S_OK
    /\ out = Some (Some (if decide (id = 0) then RootProvider
                         else AnyElementProvider (focused_id (g_ui w)))).
Proof.
  unfold ElementProviderFromPoint. intros H.
  apply bind_Done in H as (u & w1 & [= <- <-] & H).
  destruct (locate _ _ _) as [[depth id]|f]; [|discriminate].
  exists depth, id. split; [reflexivity|].
  case_decide as Hid.
  - apply bind_Done in H as (focused & w2 & [= <- <-] & H).
    apply bind_Done in H as (p & w3 & Hp & [= <- <- _]).
    apply create_element_provider_Done in Hp as ->.
    rewrite decide_False by assumption. auto.
  - injection H as <- <- _. rewrite decide_True by (destruct (decide (id = 0)); tauto).
    auto.
Qed.

(** C5 (what the code does): on the described tree with its rectangles,
    the focus being on the first paragraph, the loop of the hit tester
    selects the second paragraph for a point in its rectangle, the deepest
    and latest node that holds the point, and [ElementProviderFromPoint]
    hands back the provider of the first paragraph. *)
Theorem hit_test_hands_back_the_focused_element :
  locate (g_ui described_with_rects) (30 # 1) (25 # 1)
    = Done (2, id_at described_with_rects 3)
  /\ deepest_latest (g_ui described_with_rects) (30 # 1) (25 # 1) 7 3 2
       (id_at described_with_rects 3)
  /\ focused_id (g_ui described_with_rects) = id_at described_with_rects 2
  /\ id_at described_with_rects 2 <> id_at described_with_rects 3
  /\ result_of (ElementProviderFromPoint (mkPOINT 100 200) (130 # 1) (225 # 1) (Some None))
       described_with_rects
     = Some (S_OK, Some (Some (AnyElementProvider (id_at described_with_rects 2)))).
Proof.
  assert (locate (g_ui described_with_rects) (30 # 1) (25 # 1)
          = Done (2, id_at described_with_rects 3)) as Hloc
    by (vm_compute; reflexivity).
  split; [exact Hloc|]. split; [|repeat split; vm_compute; congruence].
  assert (Forall (fun d => 0 <= d) (node_depth (g_ui described_with_rects))) as Hnn
    by by_running.
  destruct (locate_deepest_latest _ _ _ _ _ Hnn Hloc) as [(H0 & _)|(k & Hk)].
  - vm_compute in H0. discriminate H0.
  - assert (k = 3%nat) as ->; [|exact Hk].
    destruct Hk as (Hlt & _ & Hid & _). revert Hlt Hid. vm_compute.
    intros Hlt Hid. do 7 (destruct k as [|k]; [try discriminate Hid; try reflexivity|]).
    lia.
Qed.

(** ** Searching a name *)

Lemma take_eq_length {A} (l needle : list A) :
  take (length needle) l = needle -> (length needle <= length l)%nat.
Proof.
  intros H. apply (f_equal length) in H. rewrite length_take in H. lia.
Qed.

Lemma find_in_suffix_Some s needle p q :
  find_in_suffix s needle p = Some q ->
  (p <= q)%nat /\ occurs_at s needle (q - p).
Proof.
  revert p. induction s as [|c s IH]; intros p; simpl.
  - case_decide as E; [|discriminate]. intros [= <-].
    split; [lia|]. unfold occurs_at. rewrite Nat.sub_diag.
    split; [apply take_eq_length in E; simpl in *; lia | assumption].
  - case_decide as E.
    + intros [= <-]. split; [lia|]. unfold occurs_at. rewrite Nat.sub_diag.
      split; [apply take_eq_length in E; simpl in *; lia | assumption].
    + intros H. apply IH in H as [Hle [Hlen Hocc]]. split; [lia|].
      unfold occurs_at. replace (q - p)%nat with (S (q - S p)) by lia.
      split; [simpl; lia | assumption].
Qed.

Lemma wstring_find_Some s needle pos q :
  0 <= pos -> wstring_find s needle pos = Some q ->
  pos <= Z.of_nat q /\ occurs_at s needle q.
Proof.
  intros Hpos. unfold wstring_find. case_decide as Hlen; [discriminate|].
  intros H. apply find_in_suffix_Some in H as [Hle [Hfit Hocc]]. split; [lia|].
  rewrite length_drop in Hfit. rewrite drop_drop in Hocc.
  replace (Z.to_nat pos + (q - Z.to_nat pos))%nat with q in Hocc by lia.
  split; [lia | assumption].
Qed.


Lemma occurs_at_0 (s needle : wstring) :
  occurs_at s needle 0 <-> take (length needle) s = needle.
Proof.
  unfold occurs_at. rewrite drop_0. split; [intros [_ H]; exact H|].
  intros H. split; [|exact H]. apply take_eq_length in H. lia.
Qed.

Lemma occurs_at_cons (c : Z) (s needle : wstring) q :
  occurs_at (c :: s) needle (S q) <-> occurs_at s needle q.
Proof. unfold occurs_at. simpl. split; intros [H1 H2]; (split; [lia | assumption]). Qed.

Lemma occurs_at_drop (s needle : wstring) p q :
  (p <= length s)%nat -> occurs_at (drop p s) needle q <-> occurs_at s needle (p + q).
Proof.
  intros Hp. unfold occurs_at. rewrite length_drop, drop_drop.
  split; intros [H1 H2]; (split; [lia | assumption]).
Qed.

(** [find] answers the first occurrence. *)
Lemma find_in_suffix_first s needle p q :
  find_in_suffix s needle p = Some q ->
  forall q', (q' < q - p)%nat -> ~ occurs_at s needle q'.
Proof.
  revert p. induction s as [|c s IH]; intros p; simpl.
  - case_decide as E; [|discriminate]. intros [= <-] q' Hq'. lia.
  - case_decide as E; [intros [= <-] q' Hq'; lia|].
    intros H q' Hq'. destruct q' as [|q'].
    + rewrite occurs_at_0. exact E.
    + rewrite occurs_at_cons. apply (IH _ H). lia.
Qed.


Lemma wstring_find_first s needle pos q :
  0 <= pos -> wstring_find s needle pos = Some q -> first_occurrence s needle pos q.
Proof.
  intros Hpos H. destruct (wstring_find_Some _ _ _ _ Hpos H) as [Hle Hocc].
  split; [assumption|]. split; [assumption|].
  intros q' Hq' Hlt Hocc'.
  unfold wstring_find in H. case_decide as Hlen; [discriminate|].
  apply (find_in_suffix_first _ _ _ _ H (q' - Z.to_nat pos)); [lia|].
  apply occurs_at_drop; [lia|].
  replace (Z.to_nat pos + (q' - Z.to_nat pos))%nat with q' by lia. exact Hocc'.
Qed.




Lemma wstring_find_of_none s needle pos :
  0 <= pos -> no_occurrence s needle pos -> wstring_find s needle pos = None.
Proof.
  intros Hpos Hno. destruct (wstring_find s needle pos) as [q|] eqn:E; [|reflexivity].
  exfalso. destruct (wstring_find_first _ _ _ _ Hpos E) as (Ho & Hf & _).
  exact (Hno q Hf Ho).
Qed.

(** ** FindText *)


Lemma well_formed_lookup w i id :
  well_formed w -> node_ids (g_ui w) !! i = Some id ->
  valid_id id = true /\ scan_ids (node_ids (g_ui w)) id = i
  /\ exists name, node_names (g_ui w) !! i = Some name.
Proof.
  intros Hw Hid. split; [|split].
  - pose proof (linked_valid _ (wf_linked _ Hw)) as Hv.
    rewrite Forall_lookup in Hv. eauto.
  - apply scan_ids_nodup; [apply (linked_nodup _ (wf_linked _ Hw))|assumption].
  - apply lookup_lt_is_Some_2. rewrite (aligned_names _ (wf_aligned _ Hw)).
    eapply lookup_lt_Some; eauto.
Qed.








(** ** GetText *)

(** [GetText] without a limit, on a range inside one node. *)
Lemma GetText_within_node this maxLength slot w k name :
  well_formed w ->
  point_id (end_ this) = point_id (start this) ->
  node_ids (g_ui w) !! k = Some (point_id (start this)) ->
  node_names (g_ui w) !! k = Some name ->
  to_size_t (point_offset (start this)) <= Z.of_nat (length name) ->
  maxLength < 0 ->
  let text := take (Z.to_nat (to_size_t (point_offset (end_ this)
                                         - point_offset (start this))))
                (drop (Z.to_nat (to_size_t (point_offset (start this)))) name) in
  exists w',
    GetText this maxLength (Some slot) w
    = Done (S_OK, Some (Some (take (Z.to_nat (Z.of_nat (length text) mod 2 ^ 32)) text)), w')
    /\ same_tree w w'.
Proof.
  intros Hw Heq Hid Hname Hoff Hmax text.
  destruct (well_formed_lookup _ _ _ Hw Hid) as (Hv & Hscan & _).
  assert (point_id (start this) ∈ node_ids (g_ui w)) as Hin
    by (eapply list_elem_of_lookup_2; eauto).
  destruct (ui_get_index_total _ _ (wf_fingers _ Hw) Hv Hin) as (w1 & Hi & Hu & Hs).
  rewrite Hscan in Hi. exists w1. split; [|assumption].
  unfold GetText, bind at 1. unfold gets at 1. unfold bind at 1.
  simpl. rewrite (bind_eq _ _ _ _ _ Hi).
  unfold bind at 1. unfold gets at 1. unfold bind at 1. rewrite Hu, (at_eq _ _ _ _ Hname).
  rewrite !decide_True by (symmetry; assumption).
  unfold bind at 1. unfold wstring_append. rewrite decide_False by lia.
  unfold bind, gets, ret. simpl. fold text.
  rewrite decide_True by (symmetry; assumption).
  rewrite decide_True by assumption. rewrite Z.min_id. reflexivity.
Qed.

Lemma to_int_small z : 0 <= z < 2 ^ 31 -> to_int z = z.
Proof. intros H. unfold to_int. rewrite Z.mod_small; lia. Qed.


(** ** The focus after a change *)

Lemma ui_set_focus_to_Done id w w' :
  ui_set_focus_to id w = Done (tt, w') ->
  node_ids (g_ui w') = node_ids (g_ui w)
  /\ node_names (g_ui w') = node_names (g_ui w)
  /\ node_type (g_ui w') = node_type (g_ui w)
  /\ node_parent (g_ui w') = node_parent (g_ui w)
  /\ node_depth (g_ui w') = node_depth (g_ui w)
  /\ node_text_len (g_ui w') = node_text_len (g_ui w)
  /\ node_rect (g_ui w') = node_rect (g_ui w)
  /\ focused_id (g_ui w') = id
  /\ (fingers_ok w -> fingers_ok w').
Proof.
  unfold ui_set_focus_to. intros H.
  apply bind_Done in H as (focused & w0 & [= <- <-] & H).
  case_decide as Hsame.
  { injection H as <-. subst id. repeat (split; [reflexivity|]). auto. }
  apply bind_Done in H as ([] & w1 & [= <-] & H).
  apply bind_Done in H as (w2 & w3 & [= <- <-] & H).
  simpl in H. destruct (clients_listening w).
  - apply bind_Done in H as (focused' & w4 & [= <- <-] & H).
    kstep H.
    apply bind_Done in H as ([] & w5 & Hr & H). injection Hr as <-.
    pose proof (keeps_Release _ _ _ _ H) as Hs1.
    destruct Hs as [e1 e2 e3 e4 e5 e6 e7 _ e9 _ _ _ ef].
    destruct Hs1 as [d1 d2 d3 d4 d5 d6 d7 _ d9 _ _ _ df].
    simpl in *. repeat (split; [congruence|]).
    intros Hf. apply df. destruct (ef Hf) as [H0 H1]. split; assumption.
  - injection H as <-. simpl. repeat (split; [reflexivity|]). auto.
Qed.

(** ** The tree of [ui_describe] *)

Section DescribeFacts.

Variable hash : wstring -> Z.
Variable wyhash64 : Z -> Z -> Z.

Lemma built_named names types depths d w name type id w' :
  built names types depths d w ->
  ui_named_element hash wyhash64 name type w = Done (id, w') ->
  built (names ++ [name]) (types ++ [type]) (depths ++ [d]) d w'.
Proof.
  intros [Hw <- <- <- <-] H.
  pose proof (ui_named_element_well_formed _ _ _ _ _ _ _ Hw H) as Hw'.
  apply ui_named_element_Done in H as (p & _ & _ & _ & _ & [] & _).
  constructor; assumption.
Qed.

Lemma built_button names types depths d w text action id w' :
  built names types depths d w ->
  ui_button hash wyhash64 text action w = Done (id, w') ->
  built (names ++ [text]) (types ++ [kButton]) (depths ++ [d]) d w'.
Proof.
  intros Hb H. unfold ui_button in H.
  apply bind_Done in H as (id' & w1 & Hn & H).
  apply (built_named _ _ _ _ _ _ _ _ _ Hb) in Hn as [Hw <- <- <- <-].
  unfold bind, gets, modify, ret in H. simpl in H.
  destruct (bool_decide _); simpl in H; [|discriminate]. injection H as _ <-.
  constructor; try reflexivity.
  revert Hw. apply well_formed_same_columns; try reflexivity. intros Hf; exact Hf.
Qed.

Lemma built_depth_inc names types depths d w w' :
  built names types depths d w -> depth_inc w = Done (tt, w') ->
  built names types depths (d + 1) w'.
Proof.
  intros [Hw <- <- <- <-] [= <-]. constructor; try reflexivity.
  revert Hw. apply well_formed_same_columns; try reflexivity. intros Hf; exact Hf.
Qed.

Lemma built_depth_dec names types depths d w w' :
  built names types depths d w -> depth_dec w = Done (tt, w') ->
  built names types depths (d - 1) w'.
Proof.
  intros [Hw <- <- <- <-] [= <-]. constructor; try reflexivity.
  revert Hw. apply well_formed_same_columns; try reflexivity. intros Hf; exact Hf.
Qed.

Lemma built_World0 l : built [] [] [] 0 (World0 l).
Proof. constructor; try reflexivity. apply well_formed_World0. Qed.

(** The store that [ui_describe] leaves, at program start. *)
Lemma ui_describe_Done listening w :
  ui_describe hash wyhash64 (World0 listening) = Done (tt, w) ->
  well_formed w
  /\ node_names (g_ui w) = described_names
  /\ node_type (g_ui w) = described_types
  /\ node_depth (g_ui w) = described_depths.
Proof.
  unfold ui_describe, ui_describe_with, kEnableUiRects, when,
    ui_pane, ui_document, ui_text_paragraph.
  intros H. pose proof (built_World0 listening) as Hb.
  apply bind_Done in H as (pane & w1 & Hs & H).
  apply (built_named _ _ _ _ _ _ _ _ _ Hb) in Hs. clear Hb.
  apply bind_Done in H as ([] & w2 & Hd & H).
  apply (built_depth_inc _ _ _ _ _ _ Hs) in Hd. clear Hs.
  apply bind_Done in H as (document & w3 & Hs & H).
  apply (built_named _ _ _ _ _ _ _ _ _ Hd) in Hs. clear Hd.
  apply bind_Done in H as ([] & w4 & Hd & H).
  apply (built_depth_inc _ _ _ _ _ _ Hs) in Hd. clear Hs.
  apply bind_Done in H as (id1 & w5 & Hs & H).
  apply (built_named _ _ _ _ _ _ _ _ _ Hd) in Hs. clear Hd.
  apply bind_Done in H as ([] & w6 & [= <-] & H).
  apply bind_Done in H as (id2 & w7 & Hd & H).
  apply (built_named _ _ _ _ _ _ _ _ _ Hs) in Hd. clear Hs.
  apply bind_Done in H as ([] & w8 & [= <-] & H).
  apply bind_Done in H as (id3 & w9 & Hs & H).
  apply (built_named _ _ _ _ _ _ _ _ _ Hd) in Hs. clear Hd.
  apply bind_Done in H as ([] & w10 & [= <-] & H).
  apply bind_Done in H as ([] & w11 & Hd & H).
  apply (built_depth_dec _ _ _ _ _ _ Hs) in Hd. clear Hs.
  apply bind_Done in H as ([] & w12 & [= <-] & H).
  apply bind_Done in H as (id4 & w13 & Hs & H).
  apply (built_button _ _ _ _ _ _ _ _ _ Hd) in Hs. clear Hd.
  apply bind_Done in H as ([] & w14 & [= <-] & H).
  apply bind_Done in H as (id5 & w15 & Hd & H).
  apply (built_button _ _ _ _ _ _ _ _ _ Hs) in Hd. clear Hs.
  apply bind_Done in H as ([] & w16 & [= <-] & H).
  apply bind_Done in H as ([] & w17 & Hs & H).
  apply (built_depth_dec _ _ _ _ _ _ Hd) in Hs. clear Hd.
  apply bind_Done in H as ([] & w18 & [= <-] & H).
  apply bind_Done in H as (u & w19 & [= <- <-] & H).
  destruct Hs as [Hw Hn Ht Hdp _]. simpl in Hn, Ht, Hdp.
  case_decide.
  - apply ui_set_focus_to_Done in H
      as (e1 & e2 & e3 & e4 & e5 & e6 & e7 & _ & ef).
    rewrite e2, e3, e5. split; [|auto].
    revert Hw. apply well_formed_same_columns; try assumption.
    rewrite e7. reflexivity.
  - injection H as <-. auto.
Qed.

End DescribeFacts.





Section Scenario.

Variable hash : wstring -> Z.
Variable wyhash64 : Z -> Z -> Z.
Variable listening : bool.
Variable w : World.
Hypothesis Hdescribed : ui_describe hash wyhash64 (World0 listening) = Done (tt, w).

Lemma described_well_formed : well_formed w.
Proof. apply (ui_describe_Done _ _ _ _ Hdescribed). Qed.





End Scenario.




(** * More properties *)

(** ** Stores that the builder leaves *)

Lemma lift_Done {A} (o : outcome A) w r :
  lift o w = Done r -> exists a, o = Done a /\ r = (a, w).
Proof. unfold lift. destruct o; [intros [= <-]; eauto | discriminate]. Qed.

Lemma lift_eq {A} (o : outcome A) a w : o = Done a -> lift o w = Done (a, w).
Proof. intros ->. reflexivity. Qed.

Lemma keeps_lift {A} (o : outcome A) : keeps_tree (lift o).
Proof. intros w a w' H. apply lift_Done in H as (a' & _ & [= _ <-]). apply same_tree_refl. Qed.
#[local] Hint Resolve keeps_lift : keeps.

(** The lookup of the id at a position of a well-formed store. *)
Lemma ui_get_index_at w i id :
  well_formed w -> node_ids (g_ui w) !! i = Some id ->
  exists w', ui_get_index id w = Done (i, w')
             /\ g_ui w' = g_ui w /\ same_tree w w' /\ well_formed w'.
Proof.
  intros Hw Hid.
  destruct (well_formed_lookup _ _ _ Hw Hid) as (Hv & Hscan & _).
  assert (id ∈ node_ids (g_ui w)) as Hin by (eapply list_elem_of_lookup_2; eauto).
  destruct (ui_get_index_total _ _ (wf_fingers _ Hw) Hv Hin) as (w' & Hi & Hu & Hs).
  rewrite Hscan in Hi. exists w'. repeat (split; [assumption|]).
  eapply well_formed_same_tree; eauto.
Qed.

(** What [resolve_parent] answers, on a store of a size that a [size_t]
    holds. *)
Lemma resolve_parent_nearest w p :
  aligned (g_ui w) -> countable_nodes (g_ui w) ->
  resolve_parent w = Done (p, w) ->
  (depth_for_adding_element (g_ui w) = 0 /\ p = 0)
  \/ (depth_for_adding_element (g_ui w) <> 0
      /\ exists k, most_recent_at_depth (node_depth (g_ui w))
                     (depth_for_adding_element (g_ui w) - 1) k
                   /\ node_ids (g_ui w) !! k = Some p).
Proof.
  intros Ha Hsz. unfold resolve_parent, bind, get_ui, gets.
  case_decide as Hd; [intros [= <-]; left; auto|]. right. split; [assumption|].
  destruct (rfind_depth _ _) as [r|] eqn:E; [|discriminate].
  apply rfind_depth_Some in E as [Hr Hm].
  exists (length (node_depth (g_ui w)) - 1 - r)%nat. split; [assumption|].
  unfold at_size_t in H. apply at_Done in H as (p' & Hp & [= <-]).
  unfold countable_nodes in Hsz. rewrite (aligned_depth _ Ha) in Hr |- *.
  rewrite to_size_t_small in Hp by lia.
  replace (Z.to_nat _) with (length (node_ids (g_ui w)) - 1 - r)%nat in Hp by lia.
  assumption.
Qed.

Lemma nested_at_app u u' j d p :
  (j < length (node_ids u))%nat ->
  (forall k, (k < length (node_ids u))%nat -> node_ids u' !! k = node_ids u !! k) ->
  (forall k, (k < length (node_ids u))%nat -> node_depth u' !! k = node_depth u !! k) ->
  nested_at u j d p -> nested_at u' j d p.
Proof.
  intros Hj Hids Hdepth [H|(Hd & k & Hk & Hp & Hkd & Hbetween)]; [left; assumption|].
  right. split; [assumption|]. exists k. split; [assumption|].
  split; [rewrite Hids by lia; assumption|].
  split; [rewrite Hdepth by lia; assumption|].
  intros m Hm. rewrite Hdepth by lia. apply Hbetween. assumption.
Qed.

(** A new node keeps the store nested. *)
Lemma nested_node_added id name type p w w' :
  aligned (g_ui w) -> countable_nodes (g_ui w) -> nested (g_ui w) ->
  resolve_parent w = Done (p, w) ->
  node_added id name type (depth_for_adding_element (g_ui w)) p w w' ->
  nested (g_ui w').
Proof.
  intros Ha Hsz Hn Hp Hadd j d q Hd Hq.
  destruct Hadd as [e1 _ _ e4 e5 _ _ _ _ _ _ _ _].
  assert (forall k, (k < length (node_ids (g_ui w)))%nat ->
            node_ids (g_ui w') !! k = node_ids (g_ui w) !! k) as Hids.
  { intros k Hk. rewrite e1. apply lookup_app_l. assumption. }
  assert (forall k, (k < length (node_ids (g_ui w)))%nat ->
            node_depth (g_ui w') !! k = node_depth (g_ui w) !! k) as Hdepth.
  { intros k Hk. rewrite e5. apply lookup_app_l. rewrite (aligned_depth _ Ha). assumption. }
  destruct (Nat.lt_trichotomy j (length (node_ids (g_ui w)))) as [Hj|[Hj|Hj]].
  - apply (nested_at_app (g_ui w)); try assumption.
    apply Hn.
    + rewrite <- Hdepth by assumption. assumption.
    + rewrite e4 in Hq. rewrite lookup_app_l in Hq; [assumption|].
      rewrite (aligned_parent _ Ha). assumption.
  - subst j. rewrite e5 in Hd. rewrite e4 in Hq.
    rewrite list_lookup_middle in Hd by (symmetry; apply Ha).
    rewrite list_lookup_middle in Hq by (symmetry; apply Ha).
    injection Hd as <-. injection Hq as <-.
    destruct (resolve_parent_nearest _ _ Ha Hsz Hp) as [H|(Hne & k & [Hk Hlast] & Hpk)];
      [left; assumption|].
    right. split; [assumption|].
    pose proof (lookup_lt_Some _ _ _ Hpk) as Hlt.
    exists k. split; [assumption|]. split; [rewrite Hids by lia; assumption|].
    split; [rewrite Hdepth by lia; assumption|].
    intros m Hm. rewrite Hdepth by lia. apply Hlast. lia.
  - apply lookup_lt_Some in Hd. rewrite e5, length_app, (aligned_depth _ Ha) in Hd.
    simpl in Hd. lia.
Qed.

Lemma nested_same_columns u u' :
  node_ids u' = node_ids u -> node_depth u' = node_depth u ->
  node_parent u' = node_parent u -> nested u -> nested u'.
Proof.
  intros e1 e2 e3 Hn j d p. unfold nested_at. rewrite e1, e2, e3. apply Hn.
Qed.

Lemma nested_same_tree w w' : same_tree w w' -> nested (g_ui w) -> nested (g_ui w').
Proof. intros Hs. apply nested_same_columns; apply Hs. Qed.

Lemma tidy_same_tree w w' : same_tree w w' -> tidy w -> tidy w'.
Proof.
  intros Hs [Hw Hn]. split; [eapply well_formed_same_tree | eapply nested_same_tree]; eauto.
Qed.

Section Nesting.

Variable hash : wstring -> Z.
Variable wyhash64 : Z -> Z -> Z.

Lemma ui_named_element_nested name type w id w' :
  well_formed w -> countable_nodes (g_ui w) -> nested (g_ui w) ->
  ui_named_element hash wyhash64 name type w = Done (id, w') ->
  nested (g_ui w').
Proof.
  intros Hw Hsz Hn H.
  apply ui_named_element_Done in H as (p & Hp & _ & _ & _ & Hadd & _).
  eapply nested_node_added; eauto. apply Hw.
Qed.

Lemma ui_button_columns text action w id w' :
  ui_button hash wyhash64 text action w = Done (id, w') ->
  exists w1, ui_named_element hash wyhash64 text kButton w = Done (id, w1)
             /\ g_ui w' = set_actions (<[id := action]> (actions (g_ui w1))) (g_ui w1)
             /\ actions (g_ui w1) !! id = None
             /\ fingers w' = fingers w1
             /\ clients_listening w' = clients_listening w1 /\ raised w' = raised w1.
Proof.
  unfold ui_button. intros H.
  apply bind_Done in H as (id' & w1 & Hn & H).
  unfold bind, gets, modify, ret in H. simpl in H.
  destruct (bool_decide _) eqn:E; simpl in H; [|discriminate]. injection H as <- <-.
  apply bool_decide_eq_true in E. exists w1.
  split; [assumption|]. split; [reflexivity|]. split; [assumption|].
  split; [reflexivity|]. split; reflexivity.
Qed.

(** The number of nodes after a call of the builder. *)
Lemma run_call_grows c w w' :
  run_call hash wyhash64 c w = Done (tt, w') ->
  (length (node_ids (g_ui w)) <= length (node_ids (g_ui w')))%nat.
Proof.
  intros H. destruct c as [name type|text action| | |id rect]; simpl in H.
  - apply bind_Done in H as (id & w1 & Hn & [= <-]).
    apply ui_named_element_Done in Hn as (p & _ & _ & _ & _ & Hadd & _).
    rewrite (na_ids _ _ _ _ _ _ _ Hadd), length_app. lia.
  - apply bind_Done in H as (id & w1 & Hn & [= <-]).
    apply ui_button_columns in Hn as (w2 & Hn & -> & _).
    apply ui_named_element_Done in Hn as (p & _ & _ & _ & _ & Hadd & _).
    simpl. rewrite (na_ids _ _ _ _ _ _ _ Hadd), length_app. lia.
  - injection H as <-. reflexivity.
  - injection H as <-. reflexivity.
  - unfold ui_set_rect in H.
    apply bind_Done in H as (i & w1 & Hi & H).
    apply ui_get_index_same_nodes in Hi as [Hu _].
    apply bind_Done in H as (rects & w2 & [= <- <-] & [= <-]). simpl. rewrite Hu. lia.
Qed.

Lemma run_calls_grows cs w w' :
  run_calls hash wyhash64 cs w = Done (tt, w') ->
  (length (node_ids (g_ui w)) <= length (node_ids (g_ui w')))%nat.
Proof.
  revert w. induction cs as [|c cs IH]; intros w H; simpl in H.
  - injection H as <-. reflexivity.
  - apply bind_Done in H as ([] & w1 & Hc & H).
    apply run_call_grows in Hc. apply IH in H. lia.
Qed.

Lemma run_call_nested c w w' :
  well_formed w -> countable_nodes (g_ui w) -> nested (g_ui w) ->
  run_call hash wyhash64 c w = Done (tt, w') -> nested (g_ui w').
Proof.
  intros Hw Hsz Hn H. destruct c as [name type|text action| | |id rect]; simpl in H.
  - apply bind_Done in H as (id & w1 & Hc & [= <-]).
    eapply ui_named_element_nested; eauto.
  - apply bind_Done in H as (id & w1 & Hc & [= <-]).
    apply ui_button_columns in Hc as (w2 & Hc & -> & _).
    apply (nested_same_columns (g_ui w2)); try reflexivity.
    eapply ui_named_element_nested; eauto.
  - injection H as <-. revert Hn. apply nested_same_columns; reflexivity.
  - injection H as <-. revert Hn. apply nested_same_columns; reflexivity.
  - unfold ui_set_rect in H.
    apply bind_Done in H as (i & w1 & Hi & H).
    apply ui_get_index_same_nodes in Hi as [Hu _].
    apply bind_Done in H as (rects & w2 & [= <- <-] & [= <-]).
    revert Hn. apply nested_same_columns; simpl; rewrite Hu; reflexivity.
Qed.

Lemma run_calls_tidy cs w w' :
  tidy w -> run_calls hash wyhash64 cs w = Done (tt, w') ->
  countable_nodes (g_ui w') -> tidy w'.
Proof.
  revert w. induction cs as [|c cs IH]; intros w Ht H Hsz; simpl in H.
  - injection H as <-. assumption.
  - apply bind_Done in H as ([] & w1 & Hc & H).
    pose proof (run_calls_grows _ _ _ H) as Hg1.
    pose proof (run_call_grows _ _ _ Hc) as Hg.
    unfold countable_nodes in *.
    apply (IH w1); [|assumption|assumption].
    destruct Ht as [Hw Hn]. split.
    + eapply run_call_well_formed; eauto.
    + eapply run_call_nested; eauto. unfold countable_nodes. lia.
Qed.

End Nesting.

Lemma nested_World0 l : nested (g_ui (World0 l)).
Proof. intros j d p H. discriminate H. Qed.

Lemma tidy_World0 l : tidy (World0 l).
Proof. split; [apply well_formed_World0 | apply nested_World0]. Qed.

(** X1: after every sequence of calls of the tree builder, started on the
    empty store, that leaves a number of nodes which a [size_t] holds, the
    store is nested: the parent of every node of depth [0] is the root, and
    the parent of every node of another depth [d] is the nearest node
    before it of depth [d - 1]; and no depth is negative. *)
Theorem builder_nests_every_node
    (hash : wstring -> Z) (wyhash64 : Z -> Z -> Z)
    (cs : list BuilderCall) (listening : bool) (w : World) :
  run_calls hash wyhash64 cs (World0 listening) = Done (tt, w) ->
  countable_nodes (g_ui w) ->
  nested (g_ui w) /\ Forall (fun d => 0 <= d) (node_depth (g_ui w)).
Proof.
  intros Hrun Hsz.
  destruct (run_calls_tidy hash wyhash64 cs _ _ (tidy_World0 listening) Hrun Hsz)
    as [Hw Hn].
  split; [assumption|]. apply (linked_depth _ (wf_linked _ Hw)).
Qed.

Lemma builder_nests_every_node_witness :
  node_depth (g_ui built_by_calls) = [0; 1; 2; 2; 2; 1; 1]
  /\ nested (g_ui built_by_calls).
Proof.
  split; [vm_compute; reflexivity|].
  apply (builder_nests_every_node demo_hash demo_wyhash64 describe_calls false
           built_by_calls); vm_compute; reflexivity.
Defined.

(** ** Navigation *)

Lemma nested_depth_nonneg w j d :
  well_formed w -> node_depth (g_ui w) !! j = Some d -> 0 <= d.
Proof.
  intros Hw Hd. pose proof (linked_depth _ (wf_linked _ Hw)) as H.
  rewrite Forall_lookup in H. eauto.
Qed.

(** Two nodes of one depth with only deeper nodes between them have one
    parent. *)
Lemma nested_sibling_parent u i j d p q :
  nested u -> (i < j)%nat ->
  node_depth u !! i = Some d -> node_parent u !! i = Some p ->
  node_depth u !! j = Some d -> node_parent u !! j = Some q ->
  deeper_between u d i j -> q = p.
Proof.
  intros Hn Hij Hdi Hpi Hdj Hpj Hbetween.
  destruct (Hn _ _ _ Hdi Hpi) as [[-> ->]|(Hd & k & Hk & Hidk & Hdk & Hlast)].
  { destruct (Hn _ _ _ Hdj Hpj) as [[_ ->]|[Hd _]]; [reflexivity|congruence]. }
  destruct (Hn _ _ _ Hdj Hpj) as [[-> _]|(_ & k' & Hk' & Hidk' & Hdk' & Hlast')];
    [congruence|].
  assert (k' < i)%nat as Hlt.
  { destruct (Nat.lt_trichotomy k' i) as [H|[->|H]]; [assumption| |].
    - rewrite Hdi in Hdk'. injection Hdk'. lia.
    - specialize (Hbetween k' (d - 1) ltac:(lia) Hdk'). lia. }
  destruct (Nat.lt_trichotomy k k') as [H|[->|H]].
  - exfalso. apply (Hlast k'); [lia|assumption].
  - congruence.
  - exfalso. apply (Hlast' k); [lia|assumption].
Qed.

(** A node one level deeper than the node at [i], with only deeper nodes
    between them, is a child of the node at [i]. *)
Lemma nested_child_parent u i id j d q :
  nested u -> (i < j)%nat -> 0 <= d ->
  node_ids u !! i = Some id -> node_depth u !! i = Some d ->
  node_depth u !! j = Some (d + 1) -> node_parent u !! j = Some q ->
  deeper_between u d i j -> q = id.
Proof.
  intros Hn Hij Hd Hid Hdi Hdj Hpj Hbetween.
  destruct (Hn _ _ _ Hdj Hpj) as [[H _]|(_ & k & Hk & Hidk & Hdk & Hlast)]; [lia|].
  replace (d + 1 - 1) with d in * by lia.
  destruct (Nat.lt_trichotomy k i) as [H|[->|H]].
  - exfalso. apply (Hlast i); [lia|assumption].
  - congruence.
  - specialize (Hbetween k d ltac:(lia) Hdk). lia.
Qed.

Lemma next_sibling_loop_spec u d n i index :
  length (node_depth u) = (i + n)%nat -> (index < i)%nat ->
  deeper_between u d index i ->
  exists r, next_sibling_loop u d n i index = Done r
    /\ ((r = index /\ forall j, (index < j)%nat -> node_depth u !! j = Some d ->
                        ~ deeper_between u d index j)
        \/ ((index < r)%nat /\ node_depth u !! r = Some d /\ deeper_between u d index r)).
Proof.
  revert i. induction n as [|n IH]; intros i Hlen Hlt Hinv; simpl.
  - exists index. split; [reflexivity|]. left. split; [reflexivity|].
    intros j Hj Hdj Hb. pose proof (lookup_lt_Some _ _ _ Hdj) as Hjl.
    specialize (Hinv j d ltac:(lia) Hdj). lia.
  - destruct (lookup_lt_is_Some_2 (node_depth u) i ltac:(lia)) as [di Hdi].
    rewrite Hdi. case_decide as Hle; [case_decide as Heq|].
    + subst di. exists i. split; [reflexivity|]. right. auto.
    + destruct (IH (S i)) as (r & Hr & Hspec); [lia|lia| |eauto].
      intros m dm Hm Hdm. destruct (decide (m = i)) as [->|Hne].
      * rewrite Hdi in Hdm. injection Hdm as <-. lia.
      * apply (Hinv m); [lia|assumption].
    + exists index. split; [reflexivity|]. left. split; [reflexivity|].
      intros j Hj Hdj Hb. destruct (Nat.lt_trichotomy j i) as [H|[->|H]].
      * specialize (Hinv j d ltac:(lia) Hdj). lia.
      * rewrite Hdi in Hdj. injection Hdj as ->. lia.
      * specialize (Hb i di ltac:(lia) Hdi). lia.
Qed.

Lemma prev_sibling_loop_spec u d ri index :
  (ri <= index)%nat -> (index < length (node_depth u))%nat ->
  (forall m dm, (ri <= m < index)%nat -> node_depth u !! m = Some dm -> d < dm) ->
  exists r, prev_sibling_loop u d ri index = Done r
    /\ ((r = index /\ forall j, (j < index)%nat -> node_depth u !! j = Some d ->
                        ~ deeper_between u d j index)
        \/ ((r < index)%nat /\ node_depth u !! r = Some d /\ deeper_between u d r index)).
Proof.
  induction ri as [|i IH]; intros Hle Hlen Hinv; simpl.
  - exists index. split; [reflexivity|]. left. split; [reflexivity|].
    intros j Hj Hdj Hb. specialize (Hinv j d ltac:(lia) Hdj). lia.
  - destruct (lookup_lt_is_Some_2 (node_depth u) i ltac:(lia)) as [di Hdi].
    rewrite Hdi. case_decide as Hle'; [case_decide as Heq|].
    + subst di. exists i. split; [reflexivity|]. right.
      split; [lia|]. split; [assumption|].
      intros m dm Hm Hdm. apply (Hinv m); [lia|assumption].
    + apply IH; [lia|assumption|].
      intros m dm Hm Hdm. destruct (decide (m = i)) as [->|Hne].
      * rewrite Hdi in Hdm. injection Hdm as <-. lia.
      * apply (Hinv m); [lia|assumption].
    + exists index. split; [reflexivity|]. left. split; [reflexivity|].
      intros j Hj Hdj Hb. destruct (Nat.lt_trichotomy j i) as [H|[->|H]].
      * specialize (Hb i di ltac:(lia) Hdi). lia.
      * rewrite Hdi in Hdj. injection Hdj as ->. lia.
      * specialize (Hinv j d ltac:(lia) Hdj). lia.
Qed.

Lemma first_child_loop_spec u id d n i index :
  nested u -> 0 <= d ->
  length (node_depth u) = (i + n)%nat -> length (node_parent u) = (i + n)%nat ->
  (index < i)%nat ->
  node_ids u !! index = Some id -> node_depth u !! index = Some d ->
  deeper_between u (d + 1) index i ->
  exists r, first_child_loop u id (d + 1) n i index = Done r
    /\ (r = index
        \/ ((index < r)%nat /\ node_depth u !! r = Some (d + 1)
            /\ node_parent u !! r = Some id)).
Proof.
  intros Hn Hd. revert i. induction n as [|n IH]; intros i Hlen Hlenp Hlt Hid Hdi Hinv; simpl.
  - eauto.
  - destruct (lookup_lt_is_Some_2 (node_depth u) i ltac:(lia)) as [di Hdi'].
    destruct (lookup_lt_is_Some_2 (node_parent u) i ltac:(lia)) as [q Hq].
    rewrite Hdi'. case_decide as Hle; [case_decide as Heq|]; [| |eauto].
    + subst di. rewrite Hq.
      assert (q = id) as ->.
      { eapply (nested_child_parent u index id i d); eauto.
        intros m dm Hm Hdm. specialize (Hinv m dm Hm Hdm). lia. }
      rewrite decide_True by reflexivity. exists i. split; [reflexivity|]. right. auto.
    + apply IH; [lia|lia|lia|assumption|assumption|].
      intros m dm Hm Hdm. destruct (decide (m = i)) as [->|Hne].
      * rewrite Hdi' in Hdm. injection Hdm as <-. lia.
      * apply (Hinv m); [lia|assumption].
Qed.

Lemma last_child_loop_spec u id d n i index0 index :
  nested u -> 0 <= d ->
  length (node_depth u) = (i + n)%nat -> length (node_parent u) = (i + n)%nat ->
  (index0 < i)%nat ->
  node_ids u !! index0 = Some id -> node_depth u !! index0 = Some d ->
  deeper_between u d index0 i ->
  (index = index0
   \/ ((index0 < index)%nat /\ node_depth u !! index = Some (d + 1)
       /\ node_parent u !! index = Some id)) ->
  exists r, last_child_loop u id (d + 1) n i index = Done r
    /\ (r = index0
        \/ ((index0 < r)%nat /\ node_depth u !! r = Some (d + 1)
            /\ node_parent u !! r = Some id)).
Proof.
  intros Hn Hd. revert i index.
  induction n as [|n IH]; intros i index Hlen Hlenp Hlt Hid Hdi Hinv Hcur; simpl.
  - eauto.
  - destruct (lookup_lt_is_Some_2 (node_depth u) i ltac:(lia)) as [di Hdi'].
    destruct (lookup_lt_is_Some_2 (node_parent u) i ltac:(lia)) as [q Hq].
    assert (d + 1 <= di -> deeper_between u d index0 (S i)) as Hnext.
    { intros Hle m dm Hm Hdm. destruct (decide (m = i)) as [->|Hne].
      - rewrite Hdi' in Hdm. injection Hdm as <-. lia.
      - apply (Hinv m); [lia|assumption]. }
    rewrite Hdi'. case_decide as Hle; [case_decide as Heq|]; [| |eauto].
    + subst di. rewrite Hq.
      assert (q = id) as -> by (eapply (nested_child_parent u index0 id i d); eauto).
      rewrite decide_True by reflexivity.
      apply IH; [lia|lia|lia|assumption|assumption|auto|]. right. auto.
    + apply IH; [lia|lia|lia|assumption|assumption|auto|assumption].
Qed.

Lemma node_at_known w i id d p :
  well_formed w -> node_at (g_ui w) i id d p ->
  valid_id id = true /\ id ∈ node_ids (g_ui w) /\ id <> 0 /\ 0 <= d
  /\ (i < length (node_ids (g_ui w)))%nat.
Proof.
  intros Hw [Hid Hd Hp].
  destruct (well_formed_lookup _ _ _ Hw Hid) as (Hv & _ & _).
  split; [assumption|]. split; [eapply list_elem_of_lookup_2; eauto|].
  split; [apply valid_id_nonzero; assumption|].
  split; [eapply nested_depth_nonneg; eauto | eapply lookup_lt_Some; eauto].
Qed.

Lemma node_at_lookup w j :
  well_formed w -> (j < length (node_ids (g_ui w)))%nat ->
  exists e q dq, node_at (g_ui w) j e dq q.
Proof.
  intros Hw Hj. pose proof (wf_aligned _ Hw) as Ha.
  destruct (lookup_lt_is_Some_2 (node_ids (g_ui w)) j Hj) as [e He].
  destruct (lookup_lt_is_Some_2 (node_depth (g_ui w)) j) as [dq Hdq];
    [rewrite (aligned_depth _ Ha); assumption|].
  destruct (lookup_lt_is_Some_2 (node_parent (g_ui w)) j) as [q Hq];
    [rewrite (aligned_parent _ Ha); assumption|].
  exists e, q, dq. constructor; assumption.
Qed.

Lemma node_at_differ w i j id e d p dq q :
  well_formed w -> node_at (g_ui w) i id d p -> node_at (g_ui w) j e dq q ->
  i <> j -> e <> id.
Proof.
  intros Hw [Hid _ _] [He _ _] Hne ->. apply Hne.
  eapply NoDup_lookup; [apply (linked_nodup _ (wf_linked _ Hw))|eassumption..].
Qed.

(** The parent of a node of a nested store is the root or an earlier
    node. *)
Lemma nested_parent_known w i id d p :
  tidy w -> node_at (g_ui w) i id d p ->
  (p = 0 /\ d = 0)
  \/ exists k, (k < i)%nat /\ node_ids (g_ui w) !! k = Some p
       /\ node_depth (g_ui w) !! k = Some (d - 1)
       /\ valid_id p = true /\ p ∈ node_ids (g_ui w) /\ p <> id.
Proof.
  intros [Hw Hn] Hat. pose proof Hat as [Hid Hd Hp].
  destruct (Hn _ _ _ Hd Hp) as [[-> ->]|(_ & k & Hk & Hidk & Hdk & _)]; [left; auto|].
  right. exists k. destruct (well_formed_lookup _ _ _ Hw Hidk) as (Hv & _ & _).
  repeat (split; [first [assumption | eapply list_elem_of_lookup_2; eauto]|]).
  intros ->. assert (k = i); [|lia].
  eapply NoDup_lookup; [apply (linked_nodup _ (wf_linked _ Hw))|eassumption..].
Qed.

(** The [switch] of [Navigate] on a store that the builder left: no
    [VERIFY] fails. *)
Lemma navigate_to_spec w i id d p direction :
  tidy w -> node_at (g_ui w) i id d p ->
  exists e, navigate_to (g_ui w) id i d p direction = Done e
    /\ navigated (g_ui w) i id d p direction e
    /\ (e = 0 \/ e = id \/ (valid_id e = true /\ e ∈ node_ids (g_ui w) /\ e <> id)).
Proof.
  intros Ht Hat. pose proof Ht as [Hw Hn]. pose proof Hat as [Hid Hd Hp].
  pose proof (wf_aligned _ Hw) as Ha.
  destruct (node_at_known _ _ _ _ _ Hw Hat) as (Hv & Hin & Hnz & Hd0 & Hi).
  set (u := g_ui w) in *.
  assert (forall parent r,
            (r = i \/ ((r <> i) /\ node_parent u !! r = Some parent
                       /\ (r < length (node_ids u))%nat)) ->
            exists e, node_ids u !! r = Some e
              /\ match node_ids u !! r with
                 | None => Fail Undefined
                 | Some element_id =>
                     if decide (element_id = id) then Done element_id
                     else match node_parent u !! r with
                          | None => Fail Undefined
                          | Some p0 => if decide (p0 = parent) then Done element_id
                                       else Fail VerifyFailed
                          end
                 end = Done e
              /\ (e = id \/ (valid_id e = true /\ e ∈ node_ids u /\ e <> id)))
    as Harrive.
  { intros parent r [->|(Hne & Hpr & Hr)].
    - exists id. rewrite Hid, decide_True by reflexivity. auto.
    - destruct (lookup_lt_is_Some_2 (node_ids u) r Hr) as [e He].
      assert (e <> id) as Hdiff.
      { intros ->. apply Hne.
        eapply NoDup_lookup; [apply (linked_nodup _ (wf_linked _ Hw))|eassumption..]. }
      exists e. rewrite He, decide_False by assumption.
      rewrite Hpr, decide_True by reflexivity.
      destruct (well_formed_lookup _ _ _ Hw He) as (Hve & _ & _).
      split; [reflexivity|]. split; [reflexivity|]. right.
      split; [assumption|]. split; [eapply list_elem_of_lookup_2; eauto|assumption]. }
  unfold navigate_to. fold u. cbv zeta.
  destruct direction.
  - (* parent *)
    rewrite Hp, decide_True by reflexivity. exists p. split; [reflexivity|].
    split; [reflexivity|].
    destruct (nested_parent_known _ _ _ _ _ Ht Hat) as [[-> _]|(k & _ & _ & _ & H1 & H2 & H3)];
      auto.
  - (* next sibling *)
    destruct (next_sibling_loop_spec u d (length (node_ids u) - (i + 1)) (i + 1) i)
      as (r & -> & Hspec).
    { rewrite (aligned_depth _ Ha). lia. }
    { lia. }
    { intros m dm Hm. lia. }
    destruct Hspec as [[-> Hnone]|(Hlt & Hdr & Hbetween)].
    + destruct (Harrive p i (or_introl eq_refl)) as (e & He & -> & Hknown).
      rewrite Hid in He. injection He as <-.
      exists id. split; [reflexivity|]. split; [left; auto|auto].
    + pose proof (lookup_lt_Some _ _ _ Hdr) as Hr. rewrite (aligned_depth _ Ha) in Hr.
      destruct (lookup_lt_is_Some_2 (node_parent u) r) as [q Hq];
        [rewrite (aligned_parent _ Ha); assumption|].
      assert (q = p) as -> by (eapply (nested_sibling_parent u i r); eauto).
      destruct (Harrive p r) as (e & He & -> & Hknown); [right; split; [lia|auto]|].
      exists e. split; [reflexivity|]. split; [|tauto].
      right. exists r. split; [assumption|]. split; [constructor; assumption|assumption].
  - (* previous sibling *)
    destruct (prev_sibling_loop_spec u d i i) as (r & -> & Hspec).
    { lia. }
    { rewrite (aligned_depth _ Ha). assumption. }
    { intros m dm Hm. lia. }
    destruct Hspec as [[-> Hnone]|(Hlt & Hdr & Hbetween)].
    + destruct (Harrive p i (or_introl eq_refl)) as (e & He & -> & Hknown).
      rewrite Hid in He. injection He as <-.
      exists id. split; [reflexivity|]. split; [left; auto|auto].
    + assert (r < length (node_ids u))%nat as Hr by lia.
      destruct (lookup_lt_is_Some_2 (node_parent u) r) as [q Hq];
        [rewrite (aligned_parent _ Ha); assumption|].
      assert (p = q) as <- by (eapply (nested_sibling_parent u r i); eauto).
      destruct (Harrive p r) as (e & He & -> & Hknown); [right; split; [lia|auto]|].
      exists e. split; [reflexivity|]. split; [|tauto].
      right. exists r. split; [assumption|]. split; [constructor; assumption|assumption].
  - (* first child *)
    destruct (first_child_loop_spec u id d (length (node_ids u) - (i + 1)) (i + 1) i)
      as (r & -> & Hspec); try assumption.
    { rewrite (aligned_depth _ Ha). lia. }
    { rewrite (aligned_parent _ Ha). lia. }
    { lia. }
    { intros m dm Hm. lia. }
    destruct Hspec as [->|(Hlt & Hdr & Hpr)].
    + destruct (Harrive id i (or_introl eq_refl)) as (e & He & -> & Hknown).
      rewrite Hid in He. injection He as <-.
      exists id. split; [reflexivity|]. split; [left; auto|auto].
    + pose proof (lookup_lt_Some _ _ _ Hdr) as Hr. rewrite (aligned_depth _ Ha) in Hr.
      destruct (Harrive id r) as (e & He & -> & Hknown); [right; split; [lia|auto]|].
      exists e. split; [reflexivity|]. split; [|tauto].
      right. exists r. split; [assumption|]. constructor; assumption.
  - (* last child *)
    destruct (last_child_loop_spec u id d (length (node_ids u) - (i + 1)) (i + 1) i i)
      as (r & -> & Hspec); try assumption.
    { rewrite (aligned_depth _ Ha). lia. }
    { rewrite (aligned_parent _ Ha). lia. }
    { lia. }
    { intros m dm Hm. lia. }
    { left. reflexivity. }
    destruct Hspec as [->|(Hlt & Hdr & Hpr)].
    + destruct (Harrive id i (or_introl eq_refl)) as (e & He & -> & Hknown).
      rewrite Hid in He. injection He as <-.
      exists id. split; [reflexivity|]. split; [left; auto|auto].
    + pose proof (lookup_lt_Some _ _ _ Hdr) as Hr. rewrite (aligned_depth _ Ha) in Hr.
      destruct (Harrive id r) as (e & He & -> & Hknown); [right; split; [lia|auto]|].
      exists e. split; [reflexivity|]. split; [|tauto].
      right. exists r. split; [assumption|]. constructor; assumption.
Qed.

Lemma node_at_same_tree w w' i id d p :
  same_tree w w' -> node_at (g_ui w) i id d p -> node_at (g_ui w') i id d p.
Proof.
  intros Hs [H1 H2 H3].
  constructor; [rewrite (same_ids _ _ Hs) | rewrite (same_depth _ _ Hs)
               | rewrite (same_parent _ _ Hs)]; assumption.
Qed.

(** [Navigate] on a store that the builder left. *)
Lemma Navigate_spec w i id d p direction slot :
  tidy w -> node_at (g_ui w) i id d p ->
  exists e w',
    Navigate id direction (Some slot) w = Done (S_OK, Some (handed id e), w')
    /\ same_tree w w' /\ navigated (g_ui w) i id d p direction e
    /\ (e = 0 \/ e = id \/ (e ∈ node_ids (g_ui w) /\ e <> id)).
Proof.
  intros Ht Hat. pose proof Ht as [Hw Hn]. pose proof Hat as [Hid Hd Hp].
  destruct (ui_get_index_at _ _ _ Hw Hid) as (w1 & Hi & Hu & Hs & Hw1).
  destruct (navigate_to_spec _ _ _ _ _ direction Ht Hat) as (e & He & Hnav & Hknown).
  exists e. unfold Navigate.
  rewrite (bind_eq _ _ _ _ _ Hi).
  erewrite bind_eq by reflexivity. rewrite Hu.
  erewrite bind_eq by (apply at_eq; exact Hd).
  erewrite bind_eq by (apply at_eq; exact Hp).
  erewrite bind_eq by (apply lift_eq; exact He).
  unfold handed. case_decide as H0.
  { exists w1. split; [reflexivity|]. split; [assumption|]. split; [assumption|auto]. }
  destruct Hknown as [->|[->|(Hv & Hin & Hne)]]; [congruence| |].
  - destruct (node_at_known _ _ _ _ _ Hw Hat) as (Hv & _).
    rewrite Hv, bool_decide_eq_false_2 by auto. simpl.
    rewrite decide_True by reflexivity.
    exists w1. split; [reflexivity|]. split; [assumption|]. split; [assumption|auto].
  - rewrite Hv, bool_decide_eq_true_2 by assumption. simpl.
    rewrite decide_False by assumption.
    destruct (create_element_provider_total e w1 Hv) as (w2 & Hc).
    { rewrite Hu. assumption. }
    exists w2. rewrite (bind_eq _ _ _ _ _ Hc).
    split; [reflexivity|]. split; [|split; [assumption|auto]].
    eapply same_tree_trans; [exact Hs|]. apply (keeps_create_element_provider _ _ _ _ Hc).
Qed.

Lemma handed_provider this_id e c :
  handed this_id e = Some (AnyElementProvider c) -> e = c /\ c <> 0 /\ c <> this_id.
Proof.
  unfold handed. repeat case_decide; try discriminate. intros [= <-]. auto.
Qed.

(** X2: on a store that the builder left, [Navigate] from an element of
    the store, in every direction, answers [S_OK]: none of its [VERIFY]s
    fails and nothing but the caches changes.  Towards the parent it hands
    back the root for an element of depth [0] and else the provider of
    the node that [node_parent] names, an earlier node one level up; in
    the other directions it hands back nothing or the provider of another
    element of the store. *)
Theorem Navigate_returns_on_built_stores
    (w : World) (i : nat) (id : Id) (d : Z) (p : Id)
    (direction : NavigateDirection) (slot : option Fragment) :
  tidy w -> node_at (g_ui w) i id d p ->
  exists out w',
    Navigate id direction (Some slot) w = Done (S_OK, Some out, w')
    /\ same_tree w w'
    /\ (direction = NavigateDirection_Parent ->
        out = Some (fragment_of p)
        /\ (p = 0 <-> d = 0)
        /\ (p <> 0 -> exists k, (k < i)%nat /\ node_ids (g_ui w) !! k = Some p
                        /\ node_depth (g_ui w) !! k = Some (d - 1)))
    /\ (direction <> NavigateDirection_Parent ->
        out = None
        \/ exists e, out = Some (AnyElementProvider e)
             /\ e ∈ node_ids (g_ui w) /\ e <> id).
Proof.
  intros Ht Hat.
  destruct (Navigate_spec _ _ _ _ _ direction slot Ht Hat)
    as (e & w' & Hrun & Hs & Hnav & Hknown).
  exists (handed id e), w'. split; [assumption|]. split; [assumption|].
  destruct (node_at_known _ _ _ _ _ (tidy_wf _ Ht) Hat) as (Hv & _ & Hnz & _).
  split.
  - intros ->. simpl in Hnav. subst e.
    destruct (nested_parent_known _ _ _ _ _ Ht Hat)
      as [[-> ->]|(k & Hk & Hidk & Hdk & Hvp & _ & Hne)].
    + split; [reflexivity|]. split; [tauto|]. congruence.
    + pose proof (valid_id_nonzero _ Hvp) as Hp0.
      split.
      { unfold handed, fragment_of.
        rewrite !decide_False by assumption. reflexivity. }
      split; [|eauto].
      split; [congruence|]. intros ->.
      pose proof (nested_depth_nonneg _ _ _ (tidy_wf _ Ht) Hdk). lia.
  - intros Hdir. unfold handed.
    destruct Hknown as [->|[->|[Hin Hne]]].
    + exfalso.
      assert (exists j, node_at (g_ui w) j 0 d p \/ node_at (g_ui w) j 0 (d + 1) id)
        as (j & Hj).
      { destruct direction; simpl in Hnav; [congruence|..].
        - destruct Hnav as [[H _]|(j & _ & Hj & _)]; [congruence|eauto].
        - destruct Hnav as [[H _]|(j & _ & Hj & _)]; [congruence|eauto].
        - destruct Hnav as [H|(j & _ & Hj)]; [congruence|eauto].
        - destruct Hnav as [H|(j & _ & Hj)]; [congruence|eauto]. }
      destruct Hj as [Hj|Hj];
        destruct (node_at_known _ _ _ _ _ (tidy_wf _ Ht) Hj) as (_ & _ & H0 & _);
        congruence.
    + rewrite decide_False by assumption. rewrite decide_True by reflexivity. auto.
    + case_decide as H0.
      * exfalso. subst e.
        pose proof (linked_valid _ (wf_linked _ (tidy_wf _ Ht))) as Hall.
        rewrite Forall_forall in Hall. specialize (Hall _ Hin). discriminate Hall.
      * rewrite decide_False by assumption. right. eauto.
Qed.

Lemma described_run : ui_describe demo_hash demo_wyhash64 (World0 false) = Done (tt, described).
Proof. vm_compute. reflexivity. Qed.

Lemma described_wf : well_formed described.
Proof. exact (described_well_formed _ _ _ _ described_run). Qed.

Lemma built_by_calls_run :
  run_calls demo_hash demo_wyhash64 describe_calls (World0 false) = Done (tt, built_by_calls).
Proof. vm_compute. reflexivity. Qed.

Lemma described_tidy : tidy described.
Proof.
  split; [apply described_wf|].
  apply (nested_same_columns (g_ui built_by_calls)); try (vm_compute; reflexivity).
  apply (run_calls_tidy _ _ _ _ _ (tidy_World0 false) built_by_calls_run).
  vm_compute. reflexivity.
Qed.

Lemma Navigate_returns_on_built_stores_witness :
  exists w',
    Navigate (id_at described 3) NavigateDirection_Parent (Some None) described
    = Done (S_OK, Some (Some (AnyElementProvider (id_at described 1))), w')
    /\ same_tree described w'.
Proof.
  destruct (Navigate_returns_on_built_stores described 3 (id_at described 3) 2
              (id_at described 1) NavigateDirection_Parent None described_tidy)
    as (out & w' & Hrun & Hs & Hparent & _).
  { constructor; vm_compute; reflexivity. }
  destruct (Hparent eq_refl) as (-> & _). exists w'. split; [exact Hrun | exact Hs].
Defined.

(** X3: on a store that the builder left, the element that
    [Navigate] hands back as the first or as the last child of an element
    has that element as its parent: [Navigate] towards the parent leads
    back from it. *)
Theorem child_then_parent_leads_back
    (w : World) (i : nat) (id : Id) (d : Z) (p : Id)
    (direction : NavigateDirection) (slot slot' : option Fragment) (c : Id) (w1 : World) :
  tidy w -> node_at (g_ui w) i id d p ->
  direction = NavigateDirection_FirstChild \/ direction = NavigateDirection_LastChild ->
  Navigate id direction (Some slot) w = Done (S_OK, Some (Some (AnyElementProvider c)), w1) ->
  exists w2,
    Navigate c NavigateDirection_Parent (Some slot') w1
    = Done (S_OK, Some (Some (AnyElementProvider id)), w2).
Proof.
  intros Ht Hat Hdir Hrun.
  destruct (Navigate_spec _ _ _ _ _ direction slot Ht Hat)
    as (e & w' & Hrun' & Hs & Hnav & _).
  rewrite Hrun in Hrun'. injection Hrun' as Hh <-. symmetry in Hh.
  apply handed_provider in Hh as (-> & Hc0 & Hcid).
  assert (exists j, node_at (g_ui w) j c (d + 1) id) as (j & Hj).
  { destruct Hdir as [-> | ->]; simpl in Hnav;
      destruct Hnav as [H|(j & _ & Hj)]; try congruence; eauto. }
  destruct (Navigate_spec w1 j c (d + 1) id NavigateDirection_Parent slot')
    as (e & w2 & Hrun2 & _ & Hnav2 & _).
  { eapply tidy_same_tree; eauto. }
  { eapply node_at_same_tree; eauto. }
  simpl in Hnav2. subst e. exists w2. rewrite Hrun2.
  destruct (node_at_known _ _ _ _ _ (tidy_wf _ Ht) Hat) as (_ & _ & Hnz & _).
  unfold handed. rewrite decide_False by assumption.
  rewrite decide_False by congruence. reflexivity.
Qed.

Lemma child_then_parent_leads_back_witness :
  exists w1 w2,
    Navigate (id_at described 1) NavigateDirection_LastChild (Some None) described
    = Done (S_OK, Some (Some (AnyElementProvider (id_at described 4))), w1)
    /\ Navigate (id_at described 4) NavigateDirection_Parent (Some None) w1
       = Done (S_OK, Some (Some (AnyElementProvider (id_at described 1))), w2).
Proof.
  destruct (Navigate (id_at described 1) NavigateDirection_LastChild (Some None) described)
    as [[[hr out] w1]|f] eqn:E; [|vm_compute in E; discriminate E].
  assert (hr = S_OK /\ out = Some (Some (AnyElementProvider (id_at described 4))))
    as [-> ->].
  { vm_compute in E. injection E as <- <- _. split; reflexivity. }
  destruct (child_then_parent_leads_back described 1 (id_at described 1) 1
              (id_at described 0) NavigateDirection_LastChild None None
              (id_at described 4) w1 described_tidy) as (w2 & H2).
  { constructor; vm_compute; reflexivity. }
  { right. reflexivity. }
  { exact E. }
  exists w1, w2. split; [reflexivity | exact H2].
Defined.

(** Between two nodes of one depth with only deeper nodes between them,
    no third node of that depth qualifies. *)
Lemma deeper_between_unique u d i j j' :
  node_depth u !! i = Some d -> node_depth u !! j' = Some d ->
  (i < j)%nat -> (j' < j)%nat ->
  deeper_between u d i j -> deeper_between u d j' j -> j' = i.
Proof.
  intros Hdi Hdj' Hij Hj'j Hb Hb'.
  destruct (Nat.lt_trichotomy j' i) as [H|[->|H]]; [|reflexivity|].
  - specialize (Hb' i d ltac:(lia) Hdi). lia.
  - specialize (Hb j' d ltac:(lia) Hdj'). lia.
Qed.

Lemma deeper_between_unique_r u d i j j' :
  node_depth u !! j = Some d -> node_depth u !! j' = Some d ->
  (i < j)%nat -> (i < j')%nat ->
  deeper_between u d i j -> deeper_between u d i j' -> j' = j.
Proof.
  intros Hdj Hdj' Hij Hij' Hb Hb'.
  destruct (Nat.lt_trichotomy j' j) as [H|[->|H]]; [|reflexivity|].
  - specialize (Hb j' d ltac:(lia) Hdj'). lia.
  - specialize (Hb' j d ltac:(lia) Hdj). lia.
Qed.

(** X4: on a store that the builder left, [Navigate] to the next
    sibling and [Navigate] to the previous sibling undo each other: from
    the element that one of them hands back, the other one hands back
    the element of the start. *)
Theorem sibling_navigation_round_trip
    (w : World) (i : nat) (id : Id) (d : Z) (p : Id)
    (slot slot' : option Fragment) (s : Id) (w1 : World) :
  tidy w -> node_at (g_ui w) i id d p ->
  (Navigate id NavigateDirection_NextSibling (Some slot) w
   = Done (S_OK, Some (Some (AnyElementProvider s)), w1) ->
   exists w2, Navigate s NavigateDirection_PreviousSibling (Some slot') w1
              = Done (S_OK, Some (Some (AnyElementProvider id)), w2))
  /\ (Navigate id NavigateDirection_PreviousSibling (Some slot) w
      = Done (S_OK, Some (Some (AnyElementProvider s)), w1) ->
      exists w2, Navigate s NavigateDirection_NextSibling (Some slot') w1
                 = Done (S_OK, Some (Some (AnyElementProvider id)), w2)).
Proof.
  intros Ht Hat. pose proof Hat as [Hid Hd Hp].
  destruct (node_at_known _ _ _ _ _ (tidy_wf _ Ht) Hat) as (_ & _ & Hnz & _).
  split; intros Hrun.
  - destruct (Navigate_spec _ _ _ _ _ NavigateDirection_NextSibling slot Ht Hat)
      as (e & w' & Hrun' & Hs & Hnav & _).
    rewrite Hrun in Hrun'. injection Hrun' as Hh <-. symmetry in Hh.
    apply handed_provider in Hh as (-> & Hc0 & Hcid).
    destruct Hnav as [[H _]|(j & Hij & Hj & Hb)]; [congruence|].
    destruct (Navigate_spec w1 j s d p NavigateDirection_PreviousSibling slot')
      as (e & w2 & Hrun2 & _ & Hnav2 & _).
    { eapply tidy_same_tree; eauto. }
    { eapply node_at_same_tree; eauto. }
    exists w2. rewrite Hrun2. do 4 f_equal.
    assert (e = id) as ->.
    { unfold navigated, deeper_between in Hnav2.
      rewrite (same_depth _ _ Hs) in Hnav2.
      destruct Hnav2 as [[_ Hnone]|(j' & Hj' & [Hidj' Hdj' _] & Hb')].
      - exfalso. apply (Hnone i Hij Hd). exact Hb.
      - rewrite (same_ids _ _ Hs) in Hidj'. rewrite (same_depth _ _ Hs) in Hdj'.
        assert (j' = i) as -> by (eapply (deeper_between_unique (g_ui w) d i j); eauto).
        congruence. }
    unfold handed. rewrite decide_False by assumption.
    rewrite decide_False by congruence. reflexivity.
  - destruct (Navigate_spec _ _ _ _ _ NavigateDirection_PreviousSibling slot Ht Hat)
      as (e & w' & Hrun' & Hs & Hnav & _).
    rewrite Hrun in Hrun'. injection Hrun' as Hh <-. symmetry in Hh.
    apply handed_provider in Hh as (-> & Hc0 & Hcid).
    destruct Hnav as [[H _]|(j & Hij & Hj & Hb)]; [congruence|].
    destruct (Navigate_spec w1 j s d p NavigateDirection_NextSibling slot')
      as (e & w2 & Hrun2 & _ & Hnav2 & _).
    { eapply tidy_same_tree; eauto. }
    { eapply node_at_same_tree; eauto. }
    exists w2. rewrite Hrun2. do 4 f_equal.
    assert (e = id) as ->.
    { unfold navigated, deeper_between in Hnav2.
      rewrite (same_depth _ _ Hs) in Hnav2.
      destruct Hnav2 as [[_ Hnone]|(j' & Hj' & [Hidj' Hdj' _] & Hb')].
      - exfalso. apply (Hnone i Hij Hd). exact Hb.
      - rewrite (same_ids _ _ Hs) in Hidj'. rewrite (same_depth _ _ Hs) in Hdj'.
        destruct Hj as [_ Hdj _].
        assert (j' = i) as -> by (eapply (deeper_between_unique_r (g_ui w) d j i); eauto).
        congruence. }
    unfold handed. rewrite decide_False by assumption.
    rewrite decide_False by congruence. reflexivity.
Qed.

Lemma sibling_navigation_round_trip_witness :
  exists w1 w2,
    Navigate (id_at described 1) NavigateDirection_NextSibling (Some None) described
    = Done (S_OK, Some (Some (AnyElementProvider (id_at described 5))), w1)
    /\ Navigate (id_at described 5) NavigateDirection_PreviousSibling (Some None) w1
       = Done (S_OK, Some (Some (AnyElementProvider (id_at described 1))), w2).
Proof.
  destruct (Navigate (id_at described 1) NavigateDirection_NextSibling (Some None) described)
    as [[[hr out] w1]|f] eqn:E; [|vm_compute in E; discriminate E].
  assert (hr = S_OK /\ out = Some (Some (AnyElementProvider (id_at described 5))))
    as [-> ->].
  { vm_compute in E. injection E as <- <- _. split; reflexivity. }
  destruct (sibling_navigation_round_trip described 1 (id_at described 1) 1
              (id_at described 0) None None (id_at described 5) w1 described_tidy)
    as [Hnext _].
  { constructor; vm_compute; reflexivity. }
  destruct (Hnext E) as (w2 & H2).
  exists w1, w2. split; [reflexivity | exact H2].
Defined.

(** The first node of a nested store is a top-level one. *)
Lemma nested_first_node u d p :
  nested u -> node_depth u !! 0%nat = Some d -> node_parent u !! 0%nat = Some p ->
  d = 0 /\ p = 0.
Proof.
  intros Hn Hd Hp. destruct (Hn _ _ _ Hd Hp) as [H|(_ & k & Hk & _)]; [assumption|lia].
Qed.

Lemma nested_top_level u j p :
  nested u -> node_depth u !! j = Some 0 -> node_parent u !! j = Some p -> p = 0.
Proof.
  intros Hn Hd Hp. destruct (Hn _ _ _ Hd Hp) as [[_ H]|(H & _)]; [assumption|congruence].
Qed.

Lemma root_last_child_loop_spec w ri :
  tidy w -> (0 < ri <= length (node_ids (g_ui w)))%nat ->
  exists k e, root_last_child_loop (g_ui w) ri = Done e
    /\ (k < ri)%nat /\ node_at (g_ui w) k e 0 0
    /\ forall m, (k < m < ri)%nat -> node_depth (g_ui w) !! m <> Some 0.
Proof.
  intros [Hw Hn]. induction ri as [|i IH]; intros Hri; [lia|].
  destruct (node_at_lookup w i Hw ltac:(lia)) as (e & q & dq & [Hid Hd Hp]).
  simpl. rewrite Hd. case_decide as H0.
  - subst dq. rewrite Hp, Hid.
    pose proof (nested_top_level _ _ _ Hn Hd Hp) as ->.
    rewrite decide_True by reflexivity.
    exists i, e. split; [reflexivity|]. split; [lia|]. split; [constructor; assumption|].
    intros m Hm. lia.
  - destruct i as [|i].
    { destruct (nested_first_node _ _ _ Hn Hd Hp) as [-> _]. congruence. }
    destruct IH as (k & e' & Hrun & Hk & Hat & Hnone); [lia|].
    exists k, e'. split; [assumption|]. split; [lia|]. split; [assumption|].
    intros m Hm. destruct (decide (m = S i)) as [->|Hne].
    + rewrite Hd. congruence.
    + apply Hnone. lia.
Qed.

Lemma valid_id_invalid_id : valid_id invalid_id = false.
Proof. reflexivity. Qed.

(** X5: on a store that the builder left, [RootProvider::Navigate] to
    the first child hands back the provider of the first node of the
    store, and to the last child that of the last node of depth [0]; from
    either, [Navigate] towards the parent hands back the root, the first
    child has no previous sibling and the last child no next sibling.
    On the empty store, and in every other direction, it hands back
    nothing. *)
Theorem root_children_are_the_top_level_ends (w : World) (slot : option Fragment) :
  tidy w ->
  (forall direction,
     node_ids (g_ui w) = []
     \/ (direction <> NavigateDirection_FirstChild
         /\ direction <> NavigateDirection_LastChild) ->
     Root_Navigate direction (Some slot) w = Done (S_OK, Some None, w))
  /\ (forall first, node_ids (g_ui w) !! 0%nat = Some first ->
        exists w1 w2 w3,
          Root_Navigate NavigateDirection_FirstChild (Some slot) w
          = Done (S_OK, Some (Some (AnyElementProvider first)), w1)
          /\ Navigate first NavigateDirection_Parent (Some slot) w1
             = Done (S_OK, Some (Some RootProvider), w2)
          /\ Navigate first NavigateDirection_PreviousSibling (Some slot) w2
             = Done (S_OK, Some None, w3))
  /\ (node_ids (g_ui w) <> [] ->
        exists k last w1 w2 w3,
          node_at (g_ui w) k last 0 0
          /\ (forall m, (k < m)%nat -> node_depth (g_ui w) !! m <> Some 0)
          /\ Root_Navigate NavigateDirection_LastChild (Some slot) w
             = Done (S_OK, Some (Some (AnyElementProvider last)), w1)
          /\ Navigate last NavigateDirection_Parent (Some slot) w1
             = Done (S_OK, Some (Some RootProvider), w2)
          /\ Navigate last NavigateDirection_NextSibling (Some slot) w2
             = Done (S_OK, Some None, w3)).
Proof.
  intros Ht. pose proof Ht as [Hw Hn]. split; [|split].
  - intros direction Hcase. unfold Root_Navigate.
    erewrite bind_eq by reflexivity.
    destruct Hcase as [Hempty|[H1 H2]].
    + rewrite Hempty. destruct direction; reflexivity.
    + destruct direction; try congruence; reflexivity.
  - intros first Hfirst.
    destruct (node_at_lookup w 0 Hw) as (e & q & dq & Hat).
    { eapply lookup_lt_Some; eauto. }
    pose proof Hat as [Hid Hd Hp].
    rewrite Hfirst in Hid. injection Hid as <-.
    destruct (nested_first_node _ _ _ Hn Hd Hp) as [-> ->].
    destruct (node_at_known _ _ _ _ _ Hw Hat) as (Hv & Hin & Hnz & _ & Hlen).
    destruct (create_element_provider_total first w Hv Hin) as (w1 & Hc).
    pose proof (keeps_create_element_provider _ _ _ _ Hc) as Hs1.
    destruct (Navigate_spec w1 0 first 0 0 NavigateDirection_Parent slot)
      as (e & w2 & Hrun2 & Hs2 & Hnav2 & _).
    { eapply tidy_same_tree; eauto. }
    { eapply node_at_same_tree; eauto. }
    simpl in Hnav2. subst e.
    destruct (Navigate_spec w2 0 first 0 0 NavigateDirection_PreviousSibling slot)
      as (e & w3 & Hrun3 & _ & Hnav3 & _).
    { eapply tidy_same_tree; [|exact Ht]. eapply same_tree_trans; eauto. }
    { eapply node_at_same_tree; [|exact Hat]. eapply same_tree_trans; eauto. }
    destruct Hnav3 as [[-> _]|(j & Hj & _)]; [|lia].
    exists w1, w2, w3. split; [|split].
    + unfold Root_Navigate. erewrite bind_eq by reflexivity.
      destruct (length (node_ids (g_ui w))) as [|n] eqn:El; [lia|].
      erewrite bind_eq.
      2:{ apply lift_eq. simpl. rewrite Hd, decide_True by reflexivity.
          rewrite Hp, Hfirst, decide_True by reflexivity. reflexivity. }
      rewrite Hv. rewrite (bind_eq _ _ _ _ _ Hc). reflexivity.
    + rewrite Hrun2. reflexivity.
    + rewrite Hrun3. unfold handed. rewrite decide_False by assumption.
      rewrite decide_True by reflexivity. reflexivity.
  - intros Hne.
    destruct (root_last_child_loop_spec w (length (node_ids (g_ui w))) Ht)
      as (k & last & Hloop & Hk & Hat & Hnone).
    { destruct (node_ids (g_ui w)); [congruence|simpl; lia]. }
    destruct (node_at_known _ _ _ _ _ Hw Hat) as (Hv & Hin & Hnz & _ & Hlen).
    destruct (create_element_provider_total last w Hv Hin) as (w1 & Hc).
    pose proof (keeps_create_element_provider _ _ _ _ Hc) as Hs1.
    destruct (Navigate_spec w1 k last 0 0 NavigateDirection_Parent slot)
      as (e & w2 & Hrun2 & Hs2 & Hnav2 & _).
    { eapply tidy_same_tree; eauto. }
    { eapply node_at_same_tree; eauto. }
    simpl in Hnav2. subst e.
    assert (same_tree w w2) as Hs by (eapply same_tree_trans; eauto).
    destruct (Navigate_spec w2 k last 0 0 NavigateDirection_NextSibling slot)
      as (e & w3 & Hrun3 & _ & Hnav3 & _).
    { eapply tidy_same_tree; eauto. }
    { eapply node_at_same_tree; eauto. }
    assert (forall m, (k < m)%nat -> node_depth (g_ui w) !! m <> Some 0) as Hnone'.
    { intros m Hm Hdm. pose proof (lookup_lt_Some _ _ _ Hdm) as Hml.
      rewrite (aligned_depth _ (wf_aligned _ Hw)) in Hml.
      apply (Hnone m); [lia|assumption]. }
    assert (e = last) as ->.
    { destruct Hnav3 as [[-> _]|(j & Hj & [_ Hdj _] & _)]; [reflexivity|].
      rewrite (same_depth _ _ Hs) in Hdj. exfalso. apply (Hnone' j Hj Hdj). }
    exists k, last, w1, w2, w3.
    split; [assumption|]. split; [assumption|]. split; [|split].
    + unfold Root_Navigate. erewrite bind_eq by reflexivity.
      erewrite bind_eq by (apply lift_eq; exact Hloop).
      rewrite Hv. rewrite (bind_eq _ _ _ _ _ Hc). reflexivity.
    + rewrite Hrun2. reflexivity.
    + rewrite Hrun3. unfold handed. rewrite decide_False by assumption.
      rewrite decide_True by reflexivity. reflexivity.
Qed.

Lemma root_children_are_the_top_level_ends_witness :
  exists w1 w2 w3,
    Root_Navigate NavigateDirection_FirstChild (Some None) described
    = Done (S_OK, Some (Some (AnyElementProvider (id_at described 0))), w1)
    /\ Navigate (id_at described 0) NavigateDirection_Parent (Some None) w1
       = Done (S_OK, Some (Some RootProvider), w2)
    /\ Navigate (id_at described 0) NavigateDirection_PreviousSibling (Some None) w2
       = Done (S_OK, Some None, w3).
Proof.
  destruct (root_children_are_the_top_level_ends described None described_tidy)
    as (_ & Hfirst & _).
  apply (Hfirst (id_at described 0)). vm_compute. reflexivity.
Defined.

(** ** The focus *)

Lemma same_but_focus_refl w : same_but_focus w w.
Proof. constructor; auto. Qed.

Lemma same_but_focus_trans w1 w2 w3 :
  same_but_focus w1 w2 -> same_but_focus w2 w3 -> same_but_focus w1 w3.
Proof. intros [] []. constructor; try congruence. auto. Qed.

Lemma same_tree_but_focus w w' : same_tree w w' -> same_but_focus w w'.
Proof. intros []. constructor; assumption. Qed.

Lemma well_formed_same_but_focus w w' :
  same_but_focus w w' -> well_formed w -> well_formed w'.
Proof.
  intros Hs. apply well_formed_same_columns; try apply Hs.
  rewrite (sbf_rect _ _ Hs). reflexivity.
Qed.

(** The counts of the cached providers after a change of the focus to
    [id], announced to a client. *)
Lemma balanced_after_announcement (cache : gmap Z Z) id :
  map_Forall (fun _ rc => rc = 1) cache ->
  map_Forall (fun _ rc => rc = 1)
    (alter (fun rc => (rc - 1) mod 2 ^ 32) id
       (alter (fun rc => (rc - 1) mod 2 ^ 32) id
          (alter (fun rc => (rc + 1) mod 2 ^ 32) id
             (alter (fun rc => (rc + 1) mod 2 ^ 32) id
                (match cache !! id with
                 | Some _ => cache
                 | None => <[id := 1]> cache
                 end))))).
Proof.
  intros Hb k rc. destruct (decide (k = id)) as [->|Hne].
  - rewrite !lookup_alter_eq.
    assert ((match cache !! id with Some _ => cache | None => <[id := 1]> cache end) !! id
            = Some 1) as ->.
    { destruct (cache !! id) as [rc0|] eqn:E; [|apply lookup_insert_eq].
      rewrite E. f_equal. apply (Hb _ _ E). }
    simpl. intros [= <-]. reflexivity.
  - rewrite !lookup_alter_ne by congruence.
    destruct (cache !! id); [|rewrite lookup_insert_ne by congruence]; apply Hb.
Qed.

(** A change of the focus to another element of the store. *)
Lemma ui_set_focus_to_moves id w :
  valid_id id = true -> id ∈ node_ids (g_ui w) -> id <> focused_id (g_ui w) ->
  exists w', ui_set_focus_to id w = Done (tt, w')
    /\ focused_id (g_ui w') = id
    /\ same_but_focus w w'
    /\ raised w' = told w UIA_AutomationFocusChangedEventId id ++ raised w
    /\ (balanced (g_ui w) -> balanced (g_ui w')).
Proof.
  intros Hv Hin Hne.
  unfold ui_set_focus_to, create_simple_element_provider, create_element_provider,
    exists_id, contains_id, UiaRaiseAutomationEvent, AddRef, Release, told, balanced.
  unfold bind, gets, modify, get, ret. simpl.
  rewrite decide_False by assumption.
  destruct (clients_listening w) eqn:El; simpl.
  - rewrite Hv, bool_decide_eq_true_2 by assumption. simpl.
    destruct (providers (g_ui w) !! id) as [rc|] eqn:E; simpl.
    + eexists. split; [reflexivity|]. simpl. split; [reflexivity|].
      split; [constructor; simpl; auto|]. split; [reflexivity|].
      intros Hb. pose proof (balanced_after_announcement _ id Hb) as H.
      rewrite E in H. exact H.
    + eexists. split; [reflexivity|]. simpl. split; [reflexivity|].
      split; [constructor; simpl; auto|]. split; [reflexivity|].
      intros Hb. pose proof (balanced_after_announcement _ id Hb) as H.
      rewrite E in H. exact H.
  - eexists. split; [reflexivity|]. simpl. split; [reflexivity|].
    split; [constructor; simpl; auto|]. split; [reflexivity|]. auto.
Qed.

(** A change of the focus to an element of the store, the focused one
    or not. *)
Lemma ui_set_focus_to_total id w :
  valid_id id = true -> id ∈ node_ids (g_ui w) ->
  exists w', ui_set_focus_to id w = Done (tt, w')
    /\ focused_id (g_ui w') = id /\ same_but_focus w w'
    /\ (balanced (g_ui w) -> balanced (g_ui w')).
Proof.
  intros Hv Hin. destruct (decide (id = focused_id (g_ui w))) as [Heq|Hne].
  - exists w. unfold ui_set_focus_to, bind, gets.
    rewrite decide_True by assumption.
    split; [reflexivity|]. split; [auto|]. split; [apply same_but_focus_refl|auto].
  - destruct (ui_set_focus_to_moves id w Hv Hin Hne) as (w' & H1 & H2 & H3 & _ & H5).
    eauto 6.
Qed.

Lemma ui_focus_next_moves w i nxt :
  well_formed w -> countable_nodes (g_ui w) ->
  node_ids (g_ui w) !! i = Some (focused_id (g_ui w)) ->
  node_ids (g_ui w) !! S i = Some nxt ->
  exists w1,
    ui_focus_next w = Done (tt, w1)
    /\ focused_id (g_ui w1) = nxt
    /\ same_but_focus w w1
    /\ raised w1 = told w UIA_AutomationFocusChangedEventId nxt ++ raised w
    /\ (balanced (g_ui w) -> balanced (g_ui w1)).
Proof.
  intros Hw Hsz Hfoc Hnxt.
  destruct (ui_get_index_at _ _ _ Hw Hfoc) as (wa & Hi & Hu & Hs & Hwa).
  destruct (well_formed_lookup _ _ _ Hw Hnxt) as (Hv & _ & _).
  assert (nxt ∈ node_ids (g_ui wa)) as Hin
    by (rewrite Hu; eapply list_elem_of_lookup_2; eauto).
  assert (nxt <> focused_id (g_ui wa)) as Hne.
  { rewrite Hu. intros ->. assert (S i = i); [|lia].
    eapply NoDup_lookup; [apply (linked_nodup _ (wf_linked _ Hw))|eassumption..]. }
  destruct (ui_set_focus_to_moves nxt wa Hv Hin Hne) as (w1 & Hset & Hf1 & Hs1 & Hr1 & Hb1).
  exists w1. unfold ui_focus_next.
  erewrite bind_eq by reflexivity. rewrite (bind_eq _ _ _ _ _ Hi).
  erewrite bind_eq by reflexivity. rewrite Hu.
  pose proof (lookup_lt_Some _ _ _ Hnxt) as Hlt. unfold countable_nodes in Hsz.
  rewrite to_size_t_small by lia. rewrite decide_False by lia.
  erewrite bind_eq by (apply at_eq; exact Hnxt).
  split; [exact Hset|]. split; [assumption|].
  split; [eapply same_but_focus_trans; [apply same_tree_but_focus; exact Hs|exact Hs1]|].
  split.
  - rewrite Hr1. unfold told. rewrite (same_listening _ _ Hs), (same_raised _ _ Hs).
    reflexivity.
  - intros Hb. apply Hb1. unfold balanced. rewrite Hu. exact Hb.
Qed.

Lemma ui_focus_prev_moves w i prv :
  well_formed w ->
  node_ids (g_ui w) !! S i = Some (focused_id (g_ui w)) ->
  node_ids (g_ui w) !! i = Some prv ->
  exists w1,
    ui_focus_prev w = Done (tt, w1)
    /\ focused_id (g_ui w1) = prv
    /\ same_but_focus w w1
    /\ raised w1 = told w UIA_AutomationFocusChangedEventId prv ++ raised w
    /\ (balanced (g_ui w) -> balanced (g_ui w1)).
Proof.
  intros Hw Hfoc Hprv.
  destruct (ui_get_index_at _ _ _ Hw Hfoc) as (wa & Hi & Hu & Hs & Hwa).
  destruct (well_formed_lookup _ _ _ Hw Hprv) as (Hv & _ & _).
  assert (prv ∈ node_ids (g_ui wa)) as Hin
    by (rewrite Hu; eapply list_elem_of_lookup_2; eauto).
  assert (prv <> focused_id (g_ui wa)) as Hne.
  { rewrite Hu. intros ->. assert (S i = i); [|lia].
    eapply NoDup_lookup; [apply (linked_nodup _ (wf_linked _ Hw))|eassumption..]. }
  destruct (ui_set_focus_to_moves prv wa Hv Hin Hne) as (w1 & Hset & Hf1 & Hs1 & Hr1 & Hb1).
  exists w1. unfold ui_focus_prev.
  erewrite bind_eq by reflexivity. rewrite (bind_eq _ _ _ _ _ Hi).
  erewrite bind_eq by reflexivity. rewrite Hu.
  rewrite decide_False by lia. simpl pred.
  erewrite bind_eq by (apply at_eq; exact Hprv).
  split; [exact Hset|]. split; [assumption|].
  split; [eapply same_but_focus_trans; [apply same_tree_but_focus; exact Hs|exact Hs1]|].
  split.
  - rewrite Hr1. unfold told. rewrite (same_listening _ _ Hs), (same_raised _ _ Hs).
    reflexivity.
  - intros Hb. apply Hb1. unfold balanced. rewrite Hu. exact Hb.
Qed.

(** X6: on a well-formed store of a size that a [size_t] holds, with
    the focus on a node that is not the last one, [ui_focus_next] moves
    the focus to the node that follows in the order of the store and
    tells a listening client one focus change, for the provider of that
    node; [ui_focus_prev] then moves the focus back to where it was, and
    the tree is as before. *)
Theorem focus_next_then_prev_round_trip (w : World) (i : nat) (nxt : Id) :
  well_formed w -> countable_nodes (g_ui w) ->
  node_ids (g_ui w) !! i = Some (focused_id (g_ui w)) ->
  node_ids (g_ui w) !! S i = Some nxt ->
  exists w1 w2,
    ui_focus_next w = Done (tt, w1)
    /\ focused_id (g_ui w1) = nxt
    /\ raised w1 = told w UIA_AutomationFocusChangedEventId nxt ++ raised w
    /\ ui_focus_prev w1 = Done (tt, w2)
    /\ focused_id (g_ui w2) = focused_id (g_ui w)
    /\ same_but_focus w w2.
Proof.
  intros Hw Hsz Hfoc Hnxt.
  destruct (ui_focus_next_moves w i nxt Hw Hsz Hfoc Hnxt)
    as (w1 & Hnext & Hf1 & Hs1 & Hr1 & _).
  destruct (ui_focus_prev_moves w1 i (focused_id (g_ui w))) as (w2 & Hprev & Hf2 & Hs2 & _).
  { eapply well_formed_same_but_focus; eauto. }
  { rewrite (sbf_ids _ _ Hs1), Hf1. assumption. }
  { rewrite (sbf_ids _ _ Hs1). assumption. }
  exists w1, w2. repeat (split; [assumption|]).
  eapply same_but_focus_trans; eauto.
Qed.

Lemma focus_next_then_prev_round_trip_witness :
  exists w1 w2,
    ui_focus_next described = Done (tt, w1)
    /\ focused_id (g_ui w1) = id_at described 3
    /\ ui_focus_prev w1 = Done (tt, w2)
    /\ focused_id (g_ui w2) = id_at described 2.
Proof.
  destruct (focus_next_then_prev_round_trip described 2 (id_at described 3) described_wf)
    as (w1 & w2 & H1 & H2 & _ & H3 & H4 & _);
    [vm_compute; reflexivity..|].
  exists w1, w2. split; [exact H1|]. split; [exact H2|]. split; [exact H3|].
  rewrite H4. vm_compute. reflexivity.
Defined.

Lemma GetFocus_focused w slot :
  valid_id (focused_id (g_ui w)) = true -> focused_id (g_ui w) ∈ node_ids (g_ui w) ->
  exists w', GetFocus (Some slot) w
             = Done (S_OK, Some (Some (AnyElementProvider (focused_id (g_ui w)))), w')
             /\ same_tree w w'.
Proof.
  intros Hv Hin. destruct (create_element_provider_total _ w Hv Hin) as (w' & Hc).
  exists w'. split; [|apply (keeps_create_element_provider _ _ _ _ Hc)].
  unfold GetFocus. erewrite bind_eq by reflexivity.
  rewrite decide_True by (apply valid_id_nonzero; assumption).
  rewrite (bind_eq _ _ _ _ _ Hc). reflexivity.
Qed.

Section Properties.

Variable UIA_TextControlTypeId : Z.
Variable UIA_DocumentControlTypeId : Z.
Variable UIA_ButtonControlTypeId : Z.
Variable UIA_PaneControlTypeId : Z.

Abbreviation GetPropertyValue' :=
  (GetPropertyValue UIA_TextControlTypeId UIA_DocumentControlTypeId
     UIA_ButtonControlTypeId UIA_PaneControlTypeId).

Lemma GetPropertyValue_HasKeyboardFocus w i id type v :
  well_formed w -> node_ids (g_ui w) !! i = Some id ->
  node_type (g_ui w) !! i = Some type -> type <> kNone ->
  exists w', GetPropertyValue' id UIA_HasKeyboardFocusPropertyId (Some v) w
             = Done (S_OK, Some (VT_BOOL (bool_decide (focused_id (g_ui w) = id))), w')
             /\ same_tree w w'.
Proof.
  intros Hw Hid Htype Hne.
  destruct (ui_get_index_at _ _ _ Hw Hid) as (w1 & Hi & Hu & Hs & _).
  exists w1. split; [|assumption]. unfold GetPropertyValue.
  rewrite (bind_eq _ _ _ _ _ Hi). erewrite bind_eq by reflexivity. rewrite Hu.
  erewrite bind_eq by (apply at_eq; exact Htype).
  erewrite bind_eq by (rewrite bool_decide_eq_true_2 by assumption; reflexivity).
  reflexivity.
Qed.

(** X7: after [SetFocus] on an element of a well-formed store, the
    root's [GetFocus] hands back the provider of that element; the root
    answers [FALSE] to [UIA_HasKeyboardFocusPropertyId], and an element of
    the store (of a type other than [kNone]) answers [TRUE] exactly when it
    is that element: the keyboard focus has one holder. *)
Theorem SetFocus_gives_the_focus_one_holder
    (w : World) (i : nat) (id : Id) (slot : option Fragment) (v : VARIANT) :
  well_formed w -> node_ids (g_ui w) !! i = Some id ->
  exists w1 w2,
    SetFocus id w = Done (S_OK, w1)
    /\ same_but_focus w w1
    /\ GetFocus (Some slot) w1 = Done (S_OK, Some (Some (AnyElementProvider id)), w2)
    /\ Root_GetPropertyValue UIA_HasKeyboardFocusPropertyId (Some v) w1
       = Done (S_OK, Some (VT_BOOL false), w1)
    /\ forall j e type,
         node_ids (g_ui w) !! j = Some e -> node_type (g_ui w) !! j = Some type ->
         type <> kNone ->
         exists w3,
           GetPropertyValue' e UIA_HasKeyboardFocusPropertyId (Some v) w1
           = Done (S_OK, Some (VT_BOOL (bool_decide (j = i))), w3).
Proof.
  intros Hw Hid.
  destruct (well_formed_lookup _ _ _ Hw Hid) as (Hv & _ & _).
  assert (id ∈ node_ids (g_ui w)) as Hin by (eapply list_elem_of_lookup_2; eauto).
  destruct (ui_set_focus_to_total id w Hv Hin) as (w1 & Hset & Hf1 & Hs1 & _).
  assert (well_formed w1) as Hw1 by (eapply well_formed_same_but_focus; eauto).
  destruct (GetFocus_focused w1 slot) as (w2 & Hget & _).
  { rewrite Hf1. assumption. }
  { rewrite Hf1, (sbf_ids _ _ Hs1). assumption. }
  rewrite Hf1 in Hget.
  exists w1, w2. split; [|split; [assumption|split; [assumption|split]]].
  - unfold SetFocus. rewrite (bind_eq _ _ _ _ _ Hset). reflexivity.
  - unfold Root_GetPropertyValue. erewrite bind_eq by reflexivity.
    rewrite Hf1, bool_decide_eq_false_2 by (apply valid_id_nonzero; assumption).
    reflexivity.
  - intros j e type He Htype Hne.
    destruct (GetPropertyValue_HasKeyboardFocus w1 j e type v Hw1) as (w3 & Hp & _).
    { rewrite (sbf_ids _ _ Hs1). assumption. }
    { rewrite (sbf_type _ _ Hs1). assumption. }
    { assumption. }
    exists w3. rewrite Hp, Hf1.
    assert (bool_decide (id = e) = bool_decide (j = i)) as ->; [|reflexivity].
    apply bool_decide_ext. split.
    + intros <-. eapply NoDup_lookup; [apply (linked_nodup _ (wf_linked _ Hw))|eassumption..].
    + intros ->. congruence.
Qed.

End Properties.

Lemma SetFocus_gives_the_focus_one_holder_witness :
  exists w1 w2 w3,
    SetFocus (id_at described 5) described = Done (S_OK, w1)
    /\ GetFocus (Some None) w1
       = Done (S_OK, Some (Some (AnyElementProvider (id_at described 5))), w2)
    /\ GetPropertyValue 1 2 3 4 (id_at described 2) UIA_HasKeyboardFocusPropertyId
         (Some VT_EMPTY) w1
       = Done (S_OK, Some (VT_BOOL false), w3).
Proof.
  destruct (SetFocus_gives_the_focus_one_holder 1 2 3 4 described 5 (id_at described 5)
              None VT_EMPTY described_wf)
    as (w1 & w2 & H1 & _ & H2 & _ & H3); [vm_compute; reflexivity|].
  destruct (H3 2%nat (id_at described 2) kText) as (w3 & H4);
    [vm_compute; reflexivity | vm_compute; reflexivity | discriminate|].
  exists w1, w2, w3. split; [exact H1|]. split; [exact H2 | exact H4].
Defined.

(** ** The references to the cached providers *)

Lemma release_each_balanced l w :
  NoDup l -> (forall id, id ∈ l -> providers (g_ui w) !! id = Some 1) ->
  exists w', release_each l w = Done (tt, w') /\ same_tree w w'.
Proof.
  revert w. induction l as [|id l IH]; intros w Hnd Hall; simpl.
  - exists w. split; [reflexivity | apply same_tree_refl].
  - apply NoDup_cons in Hnd as [Hnotin Hnd].
    unfold bind at 1. unfold Release, modify.
    unfold bind at 1. unfold gets at 1. simpl.
    rewrite lookup_alter_eq, (Hall id) by (left; reflexivity). simpl.
    destruct (IH (set_g_ui (set_providers
                    (alter (fun rc => (rc - 1) mod 2 ^ 32) id (providers (g_ui w))) (g_ui w)) w)
                Hnd) as (w' & Hrun & Hs).
    { intros id' Hin. simpl. rewrite lookup_alter_ne by (intros ->; contradiction).
      apply Hall. right. assumption. }
    exists w'. split; [exact Hrun|].
    eapply same_tree_trans; [|exact Hs].
    apply (keeps_Release id w tt). reflexivity.
Qed.

Lemma release_each_held l w id rc :
  id ∈ l -> providers (g_ui w) !! id = Some rc -> (rc - 1) mod 2 ^ 32 <> 0 ->
  NoDup l -> release_each l w = Fail VerifyFailed.
Proof.
  revert w. induction l as [|h l IH]; intros w Hin Hrc Hne Hnd; simpl.
  - inversion Hin.
  - apply NoDup_cons in Hnd as [Hnotin Hnd].
    unfold bind at 1. unfold Release, modify.
    unfold bind at 1. unfold gets at 1. simpl.
    destruct (bool_decide _) eqn:E; simpl; [|reflexivity].
    apply bool_decide_eq_true in E.
    assert (id <> h) as Hdiff.
    { intros ->. rewrite lookup_alter_eq, Hrc in E. simpl in E. congruence. }
    apply IH; [|simpl; rewrite lookup_alter_ne by congruence|..]; try assumption.
    apply elem_of_cons in Hin as [?|?]; [congruence|assumption].
Qed.

Lemma elem_of_cached (cache : gmap Z Z) id rc :
  cache !! id = Some rc -> id ∈ (map_to_list cache).*1.
Proof.
  intros H. apply list_elem_of_fmap. exists (id, rc). split; [reflexivity|].
  apply elem_of_map_to_list. assumption.
Qed.

Lemma cached_elem_of (cache : gmap Z Z) id :
  id ∈ (map_to_list cache).*1 -> exists rc, cache !! id = Some rc.
Proof.
  intros H. apply list_elem_of_fmap in H as ([id' rc] & -> & H).
  apply elem_of_map_to_list in H. eauto.
Qed.

Lemma ui_set_focus_to_balanced id w w' :
  balanced (g_ui w) -> ui_set_focus_to id w = Done (tt, w') -> balanced (g_ui w').
Proof.
  intros Hb. unfold ui_set_focus_to, create_simple_element_provider,
    create_element_provider, exists_id, contains_id, UiaRaiseAutomationEvent, AddRef,
    Release, balanced.
  unfold bind, gets, modify, get, ret. simpl.
  case_decide; [intros [= <-]; exact Hb|].
  destruct (clients_listening w); simpl; [|intros [= <-]; exact Hb].
  destruct (valid_id id && bool_decide _); simpl; [|discriminate].
  pose proof (balanced_after_announcement _ id Hb) as H'.
  destruct (providers (g_ui w) !! id); simpl; intros [= <-]; exact H'.
Qed.

Lemma ui_activate_balanced id w r w' :
  balanced (g_ui w) -> ui_activate id w = Done (r, w') -> balanced (g_ui w').
Proof.
  intros Hb. unfold ui_activate, create_simple_element_provider,
    create_element_provider, exists_id, contains_id, UiaRaiseAutomationEvent, AddRef,
    Release, balanced.
  unfold bind, gets, modify, get, ret. simpl.
  destruct (actions (g_ui w) !! id); [|intros [= _ <-]; exact Hb].
  destruct (clients_listening w); simpl; [|intros [= _ <-]; exact Hb].
  destruct (valid_id _ && bool_decide _); simpl; [|discriminate].
  pose proof (balanced_after_announcement _ (focused_id (g_ui w)) Hb) as H'.
  destruct (providers (g_ui w) !! focused_id (g_ui w)); simpl; intros [= _ <-]; exact H'.
Qed.

Lemma ui_get_index_providers id w i w' :
  ui_get_index id w = Done (i, w') -> providers (g_ui w') = providers (g_ui w).
Proof. intros H. apply ui_get_index_same_nodes in H as [-> _]. reflexivity. Qed.

Lemma ui_focus_next_balanced w w' :
  balanced (g_ui w) -> ui_focus_next w = Done (tt, w') -> balanced (g_ui w').
Proof.
  intros Hb H. unfold ui_focus_next in H.
  apply bind_Done in H as (focused & w0 & [= <- <-] & H).
  apply bind_Done in H as (i & w1 & Hi & H).
  apply ui_get_index_providers in Hi.
  apply bind_Done in H as (ids & w2 & [= <- <-] & H).
  assert (balanced (g_ui w1)) as Hb1 by (unfold balanced; rewrite Hi; exact Hb).
  case_decide; [injection H as <-; assumption|].
  apply bind_Done in H as (id & w3 & Hat & H).
  apply at_Done in Hat as (id' & _ & [= <- <-]).
  eapply ui_set_focus_to_balanced; eauto.
Qed.

Lemma ui_focus_prev_balanced w w' :
  balanced (g_ui w) -> ui_focus_prev w = Done (tt, w') -> balanced (g_ui w').
Proof.
  intros Hb H. unfold ui_focus_prev in H.
  apply bind_Done in H as (focused & w0 & [= <- <-] & H).
  apply bind_Done in H as (i & w1 & Hi & H).
  apply ui_get_index_providers in Hi.
  apply bind_Done in H as (ids & w2 & [= <- <-] & H).
  assert (balanced (g_ui w1)) as Hb1 by (unfold balanced; rewrite Hi; exact Hb).
  case_decide; [injection H as <-; assumption|].
  apply bind_Done in H as (id & w3 & Hat & H).
  apply at_Done in Hat as (id' & _ & [= <- <-]).
  eapply ui_set_focus_to_balanced; eauto.
Qed.

Lemma release_providers_balanced w :
  balanced (g_ui w) -> exists w', release_providers w = Done (tt, w').
Proof.
  intros Hb. unfold release_providers. erewrite bind_eq by reflexivity.
  destruct (release_each_balanced (map_to_list (providers (g_ui w))).*1 w)
    as (w' & Hrun & _); [apply NoDup_fst_map_to_list| |eauto].
  intros id Hin. apply cached_elem_of in Hin as [rc Hrc].
  rewrite Hrc. f_equal. apply (Hb _ _ Hrc).
Qed.

(** X8: when every cached provider is held by the cache alone (each
    reference count is [1]), it stays so after [ui_set_focus_to],
    [ui_focus_next], [ui_focus_prev] and [ui_activate], which give back
    every reference that they take to announce an event; and then the
    loop that releases the providers at the end of [wWinMain] passes its
    [VERIFY]s. *)
Theorem engine_gives_back_its_references (w : World) :
  balanced (g_ui w) ->
  (forall w', (exists id, ui_set_focus_to id w = Done (tt, w'))
              \/ ui_focus_next w = Done (tt, w') \/ ui_focus_prev w = Done (tt, w')
              \/ (exists id r, ui_activate id w = Done (r, w')) ->
     balanced (g_ui w') /\ exists w'', release_providers w' = Done (tt, w''))
  /\ exists w'', release_providers w = Done (tt, w'').
Proof.
  intros Hb. split; [|apply release_providers_balanced; assumption].
  intros w' Hcase.
  assert (balanced (g_ui w')) as Hb'.
  { destruct Hcase as [[id H]|[H|[H|(id & r & H)]]].
    - eapply ui_set_focus_to_balanced; eauto.
    - eapply ui_focus_next_balanced; eauto.
    - eapply ui_focus_prev_balanced; eauto.
    - eapply ui_activate_balanced; eauto. }
  split; [assumption | apply release_providers_balanced; assumption].
Qed.

Lemma engine_gives_back_its_references_witness :
  clients_listening (World0 true) = true
  /\ exists w w' w'',
       ui_describe demo_hash demo_wyhash64 (World0 true) = Done (tt, w)
       /\ ui_focus_next w = Done (tt, w')
       /\ providers (g_ui w') = {[ id_at described 2 := 1; id_at described 3 := 1 ]}
       /\ release_providers w' = Done (tt, w'').
Proof.
  split; [reflexivity|].
  destruct (ui_describe demo_hash demo_wyhash64 (World0 true)) as [[[] w]|f] eqn:E;
    [|vm_compute in E; discriminate E].
  destruct (ui_focus_next w) as [[[] w']|f] eqn:E';
    [|vm_compute in E; injection E as <-; vm_compute in E'; discriminate E'].
  assert (balanced (g_ui w)) as Hb.
  { vm_compute in E. injection E as <-.
    match goal with |- ?P => apply (bool_decide_unpack P) end. vm_compute. exact I. }
  destruct (engine_gives_back_its_references w Hb) as [Hall _].
  destruct (Hall w') as (_ & w'' & Hrel); [right; left; exact E'|].
  exists w, w', w''. split; [reflexivity|]. split; [exact E'|]. split; [|exact Hrel].
  vm_compute in E. injection E as <-. vm_compute in E'. injection E' as <-.
  vm_compute. reflexivity.
Defined.

(** X9: a provider that [GetFocus] hands to a client carries one
    reference more than the cache holds: while the client keeps it, the
    loop that releases the providers at the end of [wWinMain] stops at its
    [VERIFY]; once the client has released it, every count is [1] again
    and the loop passes. *)
Theorem client_reference_stops_the_shutdown
    (w : World) (slot : option Fragment) (id : Id) (w1 : World) :
  balanced (g_ui w) ->
  GetFocus (Some slot) w = Done (S_OK, Some (Some (AnyElementProvider id)), w1) ->
  providers (g_ui w1) !! id = Some 2
  /\ release_providers w1 = Fail VerifyFailed
  /\ exists w2 w3, Release id w1 = Done (tt, w2)
       /\ balanced (g_ui w2) /\ release_providers w2 = Done (tt, w3).
Proof.
  intros Hb H. unfold GetFocus in H.
  apply bind_Done in H as (focused & w0 & [= <- <-] & H).
  case_decide as Hnz; [|discriminate].
  apply bind_Done in H as (p & wc & Hc & H).
  pose proof (create_element_provider_Done _ _ _ _ Hc) as ->.
  injection H as Hid Hwc. subst wc. subst id.
  unfold create_element_provider, exists_id, contains_id, AddRef in Hc.
  unfold bind, gets, modify, ret in Hc. simpl in Hc.
  destruct (valid_id _ && bool_decide _); simpl in Hc; [|discriminate].
  set (id := focused_id (g_ui w)) in *.
  assert (providers (g_ui w1)
          = alter (fun rc => (rc + 1) mod 2 ^ 32) id
              (match providers (g_ui w) !! id with
               | Some _ => providers (g_ui w)
               | None => <[id := 1]> (providers (g_ui w))
               end)) as Hp.
  { destruct (providers (g_ui w) !! id); simpl in Hc; injection Hc as <-; reflexivity. }
  assert ((match providers (g_ui w) !! id with
           | Some _ => providers (g_ui w)
           | None => <[id := 1]> (providers (g_ui w))
           end) !! id = Some 1) as Hone.
  { destruct (providers (g_ui w) !! id) as [rc|] eqn:E; [|apply lookup_insert_eq].
    rewrite E. f_equal. apply (Hb _ _ E). }
  assert (providers (g_ui w1) !! id = Some 2) as Htwo.
  { rewrite Hp, lookup_alter_eq, Hone. reflexivity. }
  split; [assumption|]. split.
  - unfold release_providers. erewrite bind_eq by reflexivity.
    apply (release_each_held _ _ id 2); [|assumption|discriminate|].
    + eapply elem_of_cached; eauto.
    + apply NoDup_fst_map_to_list.
  - assert (balanced (g_ui (set_g_ui (set_providers
               (alter (fun rc => (rc - 1) mod 2 ^ 32) id (providers (g_ui w1))) (g_ui w1)) w1)))
      as Hb2.
    { unfold balanced. simpl. intros k rc. rewrite Hp.
      destruct (decide (k = id)) as [->|Hne].
      - rewrite !lookup_alter_eq, Hone. simpl. intros [= <-]. reflexivity.
      - rewrite !lookup_alter_ne by congruence.
        destruct (providers (g_ui w) !! id); [|rewrite lookup_insert_ne by congruence];
          apply Hb. }
    destruct (release_providers_balanced _ Hb2) as (w3 & Hrel).
    eexists. exists w3. split; [reflexivity|]. split; [exact Hb2 | exact Hrel].
Qed.

Lemma client_reference_stops_the_shutdown_witness :
  exists w1,
    GetFocus (Some None) described
    = Done (S_OK, Some (Some (AnyElementProvider (id_at described 2))), w1)
    /\ release_providers w1 = Fail VerifyFailed.
Proof.
  destruct (GetFocus (Some None) described) as [[[hr out] w1]|f] eqn:E;
    [|vm_compute in E; discriminate E].
  assert (hr = S_OK /\ out = Some (Some (AnyElementProvider (id_at described 2))))
    as [-> ->] by (vm_compute in E; injection E as <- <- _; split; reflexivity).
  destruct (client_reference_stops_the_shutdown described None (id_at described 2) w1)
    as (_ & Hfail & _).
  { match goal with |- ?P => apply (bool_decide_unpack P) end. vm_compute. exact I. }
  { exact E. }
  exists w1. split; [reflexivity | exact Hfail].
Defined.

(** ** What a client reads of an element *)

Lemma SysAllocString_whole psz : 0 ∉ psz -> SysAllocString psz = psz.
Proof.
  induction psz as [|c psz IH]; intros H; simpl; [reflexivity|].
  apply not_elem_of_cons in H as [Hc H].
  rewrite decide_False by congruence. f_equal. auto.
Qed.

Section BuiltElement.

Variable hash : wstring -> Z.
Variable wyhash64 : Z -> Z -> Z.

(** The node that [ui_named_element] has added is the last one. *)
Lemma ui_named_element_last name type w id w' :
  well_formed w -> ui_named_element hash wyhash64 name type w = Done (id, w') ->
  well_formed w'
  /\ node_ids (g_ui w') !! length (node_ids (g_ui w)) = Some id
  /\ node_names (g_ui w') !! length (node_ids (g_ui w)) = Some name
  /\ node_type (g_ui w') !! length (node_ids (g_ui w)) = Some type
  /\ actions (g_ui w') = actions (g_ui w)
  /\ focused_id (g_ui w') = focused_id (g_ui w)
  /\ clients_listening w' = clients_listening w.
Proof.
  intros Hw H. pose proof (wf_aligned _ Hw) as Ha.
  split; [eapply ui_named_element_well_formed; eauto|].
  apply ui_named_element_Done in H as (p & _ & _ & _ & _ & Hadd & _).
  destruct Hadd as [e1 e2 e3 _ _ _ _ e8 _ e10 _ e12 _].
  rewrite e1, e2, e3.
  split; [apply list_lookup_middle; reflexivity|].
  split; [apply list_lookup_middle; symmetry; apply Ha|].
  split; [apply list_lookup_middle; symmetry; apply Ha|]. auto.
Qed.

End BuiltElement.

Section Reading.

Variable hash : wstring -> Z.
Variable wyhash64 : Z -> Z -> Z.
Variable UIA_TextControlTypeId : Z.
Variable UIA_DocumentControlTypeId : Z.
Variable UIA_ButtonControlTypeId : Z.
Variable UIA_PaneControlTypeId : Z.

Abbreviation GetPropertyValue'' :=
  (GetPropertyValue UIA_TextControlTypeId UIA_DocumentControlTypeId
     UIA_ButtonControlTypeId UIA_PaneControlTypeId).

(** X10: the element that [ui_named_element] has added to a
    well-formed store, under a name without a null character, reads back
    as built: [GetPropertyValue] answers its name to [UIA_NamePropertyId],
    as does [get_Value] of its value provider, and to
    [UIA_ControlTypePropertyId] the control type of the type it was built
    with.  An element built with the type [kNone] cannot be read: every
    [GetPropertyValue] stops at the [VERIFY]. *)
Theorem built_element_reads_back
    (name : wstring) (type : UiType) (w : World) (id : Id) (w' : World)
    (v : VARIANT) (slot : option wstring) :
  well_formed w -> 0 ∉ name ->
  ui_named_element hash wyhash64 name type w = Done (id, w') ->
  (type <> kNone ->
   exists w1 w2 w3,
     GetPropertyValue'' id UIA_NamePropertyId (Some v) w'
     = Done (S_OK, Some (VT_BSTR name), w1)
     /\ get_Value id (Some slot) w' = Done (S_OK, Some (Some name), w2)
     /\ GetPropertyValue'' id UIA_ControlTypePropertyId (Some v) w'
        = Done (S_OK,
                Some (VT_I4 match type with
                            | kText => UIA_TextControlTypeId
                            | kDocument => UIA_DocumentControlTypeId
                            | kButton => UIA_ButtonControlTypeId
                            | _ => UIA_PaneControlTypeId
                            end), w3))
  /\ (type = kNone ->
      forall propertyId,
        GetPropertyValue'' id propertyId (Some v) w' = Fail VerifyFailed).
Proof.
  intros Hw Hname H.
  destruct (ui_named_element_last hash wyhash64 _ _ _ _ _ Hw H)
    as (Hw' & Hid & Hnm & Hty & _).
  destruct (ui_get_index_at _ _ _ Hw' Hid) as (w1 & Hi & Hu & Hs & _).
  split.
  - intros Hne. exists w1, w1, w1. split; [|split].
    + unfold GetPropertyValue.
      rewrite (bind_eq _ _ _ _ _ Hi). erewrite bind_eq by reflexivity. rewrite Hu.
      erewrite bind_eq by (apply at_eq; exact Hty).
      erewrite bind_eq by (rewrite bool_decide_eq_true_2 by assumption; reflexivity).
      erewrite (bind_eq (let* name0 := at_ _ _ in _))
        by (erewrite bind_eq by (apply at_eq; exact Hnm); reflexivity).
      rewrite SysAllocString_whole by assumption. reflexivity.
    + unfold get_Value.
      rewrite (bind_eq _ _ _ _ _ Hi). erewrite bind_eq by reflexivity. rewrite Hu.
      erewrite bind_eq by (apply at_eq; exact Hnm).
      rewrite SysAllocString_whole by assumption. reflexivity.
    + unfold GetPropertyValue.
      rewrite (bind_eq _ _ _ _ _ Hi). erewrite bind_eq by reflexivity. rewrite Hu.
      erewrite bind_eq by (apply at_eq; exact Hty).
      erewrite bind_eq by (rewrite bool_decide_eq_true_2 by assumption; reflexivity).
      destruct type; try congruence; reflexivity.
  - intros -> propertyId. unfold GetPropertyValue.
    rewrite (bind_eq _ _ _ _ _ Hi). erewrite bind_eq by reflexivity. rewrite Hu.
    erewrite bind_eq by (apply at_eq; exact Hty).
    reflexivity.
Qed.

End Reading.

Lemma described_one_level_down_wf : well_formed described_one_level_down.
Proof.
  apply (well_formed_same_columns described);
    [vm_compute; reflexivity | vm_compute; reflexivity | vm_compute; reflexivity
    | vm_compute; reflexivity | vm_compute; reflexivity | vm_compute; reflexivity
    | vm_compute; reflexivity | intros _; by_running | apply described_wf].
Qed.

Lemma One_more_is_a_string : 0 ∉ L "One more".
Proof.
  vm_compute. intros H. repeat (apply elem_of_cons in H as [H|H]; [discriminate H|]).
  inversion H.
Qed.

Lemma built_element_reads_back_witness :
  exists id w' w1,
    ui_named_element demo_hash demo_wyhash64 (L "One more") kText described_one_level_down
    = Done (id, w')
    /\ GetPropertyValue 1 2 3 4 id UIA_NamePropertyId (Some VT_EMPTY) w'
       = Done (S_OK, Some (VT_BSTR (L "One more")), w1).
Proof.
  destruct (ui_named_element demo_hash demo_wyhash64 (L "One more") kText
              described_one_level_down) as [[id w']|f] eqn:E;
    [|exfalso; vm_compute in E; discriminate E].
  destruct (built_element_reads_back demo_hash demo_wyhash64 1 2 3 4 (L "One more") kText
              described_one_level_down id w' VT_EMPTY None described_one_level_down_wf
              One_more_is_a_string E) as [H _].
  destruct (H ltac:(discriminate)) as (w1 & _ & _ & H1 & _).
  exists id, w', w1. split; [reflexivity | exact H1].
Defined.

(** ** The order of the end points *)

Lemma lexicographic_antisym i a j b :
  lexicographic j b i a = CompOpp (lexicographic i a j b).
Proof.
  unfold lexicographic. rewrite (Nat.compare_antisym i j).
  destruct (Nat.compare i j); simpl; [apply Z.compare_antisym|reflexivity..].
Qed.

Lemma TextPoint_compare_spec w a b i j :
  well_formed w ->
  node_ids (g_ui w) !! i = Some (point_id a) ->
  node_ids (g_ui w) !! j = Some (point_id b) ->
  exists w', TextPoint_compare a b w
             = Done (lexicographic i (point_offset a) j (point_offset b), w')
             /\ same_tree w w'.
Proof.
  intros Hw Ha Hb. unfold TextPoint_compare, lexicographic.
  case_decide as Heq.
  - assert (i = j) as ->.
    { rewrite <- Heq in Hb.
      eapply NoDup_lookup; [apply (linked_nodup _ (wf_linked _ Hw))|eassumption..]. }
    rewrite Nat.compare_refl. exists w. split; [reflexivity | apply same_tree_refl].
  - destruct (ui_get_index_at _ _ _ Hw Ha) as (w1 & Hi & Hu1 & Hs1 & Hw1).
    destruct (ui_get_index_at w1 j (point_id b) Hw1) as (w2 & Hj & Hu2 & Hs2 & _).
    { rewrite Hu1. assumption. }
    exists w2. split; [|eapply same_tree_trans; eauto].
    rewrite (bind_eq _ _ _ _ _ Hi), (bind_eq _ _ _ _ _ Hj).
    destruct (Nat.compare i j) eqn:E; try reflexivity.
    apply Nat.compare_eq in E. subst j. congruence.
Qed.

(** X11: on a well-formed store, [CompareEndpoints] orders two end
    points that lie on nodes of the store by the position of their nodes
    in the store and, on one node, by their offsets: it answers [-1], [0]
    or [1] for less, equal or greater; and with the two end points
    exchanged it answers the opposite number. *)
Theorem CompareEndpoints_orders_by_position
    (w : World) (this other : AnyElementTextRangeProvider)
    (endpoint targetEndpoint : TextPatternRangeEndpoint) (i j : nat) (slot : Z) :
  well_formed w ->
  node_ids (g_ui w) !! i = Some (point_id (get_endpoint this endpoint)) ->
  node_ids (g_ui w) !! j = Some (point_id (get_endpoint other targetEndpoint)) ->
  let answer :=
    match lexicographic i (point_offset (get_endpoint this endpoint))
            j (point_offset (get_endpoint other targetEndpoint)) with
    | Lt => -1
    | Eq => 0
    | Gt => 1
    end in
  exists w' w'',
    CompareEndpoints this endpoint (Some other) targetEndpoint (Some slot) w
    = Done (S_OK, Some answer, w')
    /\ same_tree w w'
    /\ CompareEndpoints other targetEndpoint (Some this) endpoint (Some slot) w'
       = Done (S_OK, Some (- answer), w'').
Proof.
  intros Hw Ha Hb answer.
  destruct (TextPoint_compare_spec w _ _ i j Hw Ha Hb) as (w' & Hc & Hs).
  destruct (TextPoint_compare_spec w' (get_endpoint other targetEndpoint)
              (get_endpoint this endpoint) j i) as (w'' & Hc' & _).
  { eapply well_formed_same_tree; eauto. }
  { rewrite (same_ids _ _ Hs). assumption. }
  { rewrite (same_ids _ _ Hs). assumption. }
  exists w', w''. unfold CompareEndpoints.
  rewrite (bind_eq _ _ _ _ _ Hc), (bind_eq _ _ _ _ _ Hc').
  split; [reflexivity|]. split; [assumption|].
  rewrite lexicographic_antisym. subst answer.
  destruct (lexicographic _ _ _ _); reflexivity.
Qed.

Lemma CompareEndpoints_orders_by_position_witness :
  exists w' w'',
    CompareEndpoints (whole_node described 1) TextPatternRangeEndpoint_End
      (Some (whole_node described 2)) TextPatternRangeEndpoint_Start (Some 7) described
    = Done (S_OK, Some (-1), w')
    /\ CompareEndpoints (whole_node described 2) TextPatternRangeEndpoint_Start
         (Some (whole_node described 1)) TextPatternRangeEndpoint_End (Some 7) w'
       = Done (S_OK, Some 1, w'').
Proof.
  destruct (CompareEndpoints_orders_by_position described (whole_node described 1)
              (whole_node described 2) TextPatternRangeEndpoint_End
              TextPatternRangeEndpoint_Start 1 2 7 described_wf)
    as (w' & w'' & H1 & _ & H2); [vm_compute; reflexivity..|].
  exists w', w''. split; [exact H1 | exact H2].
Defined.

Lemma CompareEndpoints_spec_aux w this other i i' j j' slot :
  well_formed w ->
  node_ids (g_ui w) !! i = Some (point_id (start this)) ->
  node_ids (g_ui w) !! i' = Some (point_id (end_ this)) ->
  node_ids (g_ui w) !! j = Some (point_id (start other)) ->
  node_ids (g_ui w) !! j' = Some (point_id (end_ other)) ->
  result_of (CompareEndpoints this TextPatternRangeEndpoint_Start (Some other)
               TextPatternRangeEndpoint_Start (Some slot)) w
  = Some (S_OK, Some match lexicographic i (point_offset (start this))
                             j (point_offset (start other)) with
                     | Lt => -1 | Eq => 0 | Gt => 1 end)
  /\ result_of (CompareEndpoints this TextPatternRangeEndpoint_End (Some other)
                  TextPatternRangeEndpoint_End (Some slot)) w
     = Some (S_OK, Some match lexicographic i' (point_offset (end_ this))
                                j' (point_offset (end_ other)) with
                        | Lt => -1 | Eq => 0 | Gt => 1 end).
Proof.
  intros Hw Hi Hi' Hj Hj'.
  destruct (TextPoint_compare_spec w (start this) (start other) i j Hw Hi Hj)
    as (w1 & H1 & _).
  destruct (TextPoint_compare_spec w (end_ this) (end_ other) i' j' Hw Hi' Hj')
    as (w2 & H2 & _).
  unfold result_of, CompareEndpoints. simpl get_endpoint.
  rewrite (bind_eq _ _ _ _ _ H1), (bind_eq _ _ _ _ _ H2). split; reflexivity.
Qed.

(** X12: on a well-formed store, for two ranges whose end points lie on
    nodes of the store, [Compare] answers [TRUE] exactly when
    [CompareEndpoints] answers [0] for the two starts and for the two
    ends; and a range compares [TRUE] with its [Clone]. *)
Theorem Compare_agrees_with_CompareEndpoints
    (w : World) (this other : AnyElementTextRangeProvider) (b : bool) (slot : Z)
    (i i' j j' : nat) :
  well_formed w ->
  node_ids (g_ui w) !! i = Some (point_id (start this)) ->
  node_ids (g_ui w) !! i' = Some (point_id (end_ this)) ->
  node_ids (g_ui w) !! j = Some (point_id (start other)) ->
  node_ids (g_ui w) !! j' = Some (point_id (end_ other)) ->
  (Compare this (Some other) (Some b) = (S_OK, Some true)
   <-> result_of (CompareEndpoints this TextPatternRangeEndpoint_Start (Some other)
                    TextPatternRangeEndpoint_Start (Some slot)) w = Some (S_OK, Some 0)
       /\ result_of (CompareEndpoints this TextPatternRangeEndpoint_End (Some other)
                       TextPatternRangeEndpoint_End (Some slot)) w = Some (S_OK, Some 0))
  /\ (forall r, Clone this (Some None) = (S_OK, Some (Some r)) ->
        Compare this (Some r) (Some b) = (S_OK, Some true)).
Proof.
  intros Hw Hi Hi' Hj Hj'.
  assert (forall a c k l,
            node_ids (g_ui w) !! k = Some (point_id a) ->
            node_ids (g_ui w) !! l = Some (point_id c) ->
            (lexicographic k (point_offset a) l (point_offset c) = Eq <-> c = a)) as Hlex.
  { intros [ia oa] [ic oc] k l Hk Hl. simpl in *. unfold lexicographic. split.
    - destruct (Nat.compare k l) eqn:E; try discriminate.
      apply Nat.compare_eq in E. subst l. intros Ho. apply Z.compare_eq in Ho.
      congruence.
    - intros [= -> ->].
      assert (k = l) as -> by
        (eapply NoDup_lookup; [apply (linked_nodup _ (wf_linked _ Hw))|eassumption..]).
      rewrite Nat.compare_refl. apply Z.compare_refl. }
  split.
  - destruct (CompareEndpoints_spec_aux w this other i i' j j' slot Hw Hi Hi' Hj Hj')
      as [Hs He].
    unfold Compare. rewrite Hs, He.
    pose proof (Hlex (start this) (start other) i j Hi Hj) as H1.
    pose proof (Hlex (end_ this) (end_ other) i' j' Hi' Hj') as H2.
    split.
    + intros [= Hb]. apply andb_true_iff in Hb as [Hb1 Hb2].
      apply bool_decide_eq_true in Hb1, Hb2.
      apply H1 in Hb1. apply H2 in Hb2. rewrite Hb1, Hb2. auto.
    + intros [Hr1 Hr2].
      assert (start other = start this) as ->.
      { apply H1. destruct (lexicographic i _ j _); [reflexivity|discriminate..]. }
      assert (end_ other = end_ this) as ->.
      { apply H2. destruct (lexicographic i' _ j' _); [reflexivity|discriminate..]. }
      rewrite !bool_decide_eq_true_2 by reflexivity. reflexivity.
  - intros r [= <-]. unfold Compare, create_text_range. simpl.
    rewrite !bool_decide_eq_true_2 by reflexivity. reflexivity.
Qed.

Lemma Compare_agrees_with_CompareEndpoints_witness :
  Compare (whole_node described 2) (Some (whole_node described 3)) (Some true)
  = (S_OK, Some false)
  /\ Compare (whole_node described 2) (Some (whole_node described 2)) (Some false)
     = (S_OK, Some true).
Proof.
  split; [vm_compute; reflexivity|].
  destruct (Compare_agrees_with_CompareEndpoints described (whole_node described 2)
              (whole_node described 2) false 7 2 2 2 2 described_wf) as [_ H];
    [vm_compute; reflexivity..|].
  apply H. reflexivity.
Defined.

(** ** The text of a range *)

Lemma children_text_len_nonneg parents lens id :
  Forall (fun len => 0 <= len) lens -> 0 <= children_text_len parents lens id.
Proof.
  revert lens. induction parents as [|p parents IH]; intros [|l lens] H; simpl; try lia.
  apply Forall_cons in H as [Hl H]. specialize (IH _ H). case_decide; lia.
Qed.

(** The aggregate of a node is at least the length of its name and at
    most the length of all names. *)
Lemma text_len_bounds w i name len :
  well_formed w -> total_name_len (node_names (g_ui w)) < size_max ->
  node_names (g_ui w) !! i = Some name -> node_text_len (g_ui w) !! i = Some len ->
  Z.of_nat (length name) <= len <= total_name_len (node_names (g_ui w)).
Proof.
  intros Hw HT Hname Hlen.
  destruct (wf_aggregated _ Hw HT) as [Hagg Hbd].
  pose proof (lookup_lt_Some _ _ _ Hname) as Hi.
  rewrite (aligned_names _ (wf_aligned _ Hw)) in Hi.
  destruct (lookup_lt_is_Some_2 _ _ Hi) as [id Hid].
  rewrite (Hagg i id name len Hid Hname Hlen).
  pose proof (children_text_len_nonneg (node_parent (g_ui w)) (node_text_len (g_ui w)) id)
    as Hc.
  rewrite Forall_lookup in Hbd. pose proof (Hbd _ _ Hlen) as Hb.
  rewrite (Hagg i id name len Hid Hname Hlen) in Hb.
  split; [|lia]. apply Z.le_sub_le_add_l. rewrite Z.sub_diag. apply Hc.
  apply Forall_lookup. intros k l Hl. apply (Hbd _ _ Hl).
Qed.

(** X13: on a well-formed store whose names together are shorter than
    the largest [int], [get_DocumentRange] of the text provider of a
    Document answers the range from offset [0] to the aggregate
    [node_text_len] of the Document, both end points on the Document; and
    [GetText] of that range is the own name of the Document alone, not the
    text of the nodes below it.  For an element of another type
    [get_DocumentRange] answers [S_OK] and no range. *)
Theorem document_range_reads_the_own_name
    (w : World) (i : nat) (id : Id) (type : UiType) (name : wstring) (len : Z)
    (slot : option AnyElementTextRangeProvider) (slot' : option wstring) :
  well_formed w -> total_name_len (node_names (g_ui w)) < 2 ^ 31 ->
  node_ids (g_ui w) !! i = Some id -> node_type (g_ui w) !! i = Some type ->
  node_names (g_ui w) !! i = Some name -> node_text_len (g_ui w) !! i = Some len ->
  (type = kDocument ->
   exists w1 w2,
     get_DocumentRange id (Some slot) w
     = Done (S_OK, Some (Some {| start := {| point_id := id; point_offset := 0 |};
                                 end_ := {| point_id := id; point_offset := len |} |}), w1)
     /\ GetText {| start := {| point_id := id; point_offset := 0 |};
                   end_ := {| point_id := id; point_offset := len |} |} (-1) (Some slot') w1
        = Done (S_OK, Some (Some name), w2))
  /\ (type <> kDocument ->
      exists w1, get_DocumentRange id (Some slot) w = Done (S_OK, Some None, w1)).
Proof.
  intros Hw HT Hid Htype Hname Hlen.
  destruct (ui_get_index_at _ _ _ Hw Hid) as (w1 & Hi & Hu & Hs & Hw1).
  assert (total_name_len (node_names (g_ui w)) < size_max) as HT'
    by (unfold size_max; lia).
  pose proof (text_len_bounds _ _ _ _ Hw HT' Hname Hlen) as Hb.
  split.
  - intros ->.
    destruct (GetText_within_node
                {| start := {| point_id := id; point_offset := 0 |};
                   end_ := {| point_id := id; point_offset := len |} |}
                (-1) slot' w1 i name Hw1) as (w2 & Hrun & _).
    { reflexivity. }
    { simpl. rewrite Hu. assumption. }
    { rewrite Hu. assumption. }
    { simpl. unfold to_size_t. rewrite Z.mod_0_l by (unfold size_max; lia). lia. }
    { lia. }
    exists w1, w2. split.
    + unfold get_DocumentRange.
      rewrite (bind_eq _ _ _ _ _ Hi). erewrite bind_eq by reflexivity. rewrite Hu.
      erewrite bind_eq by (apply at_eq; exact Htype).
      rewrite decide_True by reflexivity.
      erewrite bind_eq by reflexivity. rewrite Hu.
      erewrite bind_eq by (apply at_eq; exact Hlen).
      rewrite to_int_small by lia. reflexivity.
    + rewrite Hrun. cbn [point_offset start end_].
      assert (take (Z.to_nat (to_size_t (len - 0))) (drop (Z.to_nat (to_size_t 0)) name)
              = name) as ->.
      { rewrite Z.sub_0_r, (to_size_t_small len) by (unfold size_max; lia).
        change (to_size_t 0) with 0. simpl drop. apply take_ge. lia. }
      rewrite Z.mod_small by lia. rewrite Nat2Z.id, take_ge by lia. reflexivity.
  - intros Hne. exists w1. unfold get_DocumentRange.
    rewrite (bind_eq _ _ _ _ _ Hi). erewrite bind_eq by reflexivity. rewrite Hu.
    erewrite bind_eq by (apply at_eq; exact Htype).
    rewrite decide_False by assumption. reflexivity.
Qed.

Lemma document_range_reads_the_own_name_witness :
  exists w1 w2,
    get_DocumentRange (id_at described 1) (Some None) described
    = Done (S_OK, Some (Some {| start := {| point_id := id_at described 1; point_offset := 0 |};
                                end_ := {| point_id := id_at described 1;
                                           point_offset := 78 |} |}), w1)
    /\ GetText {| start := {| point_id := id_at described 1; point_offset := 0 |};
                  end_ := {| point_id := id_at described 1; point_offset := 78 |} |}
         (-1) (Some None) w1
       = Done (S_OK, Some (Some (L "Main")), w2).
Proof.
  destruct (document_range_reads_the_own_name described 1 (id_at described 1) kDocument
              (L "Main") 78 None None described_wf) as [H _];
    [vm_compute; reflexivity..|].
  apply H. reflexivity.
Defined.

(** X14: on a well-formed store, [ExpandToEnclosingUnit], whatever the
    unit, moves the start of a range to offset [0] of its node and the end
    to the length of the own name of the node of the end; a second call
    changes nothing; and when both end points lie on one node, [GetText] of
    the expanded range is the whole name of that node. *)
Theorem ExpandToEnclosingUnit_takes_whole_names
    (w : World) (this : AnyElementTextRangeProvider) (unit unit' : TextUnit)
    (j : nat) (name : wstring) (slot : option wstring) :
  well_formed w ->
  node_ids (g_ui w) !! j = Some (point_id (end_ this)) ->
  node_names (g_ui w) !! j = Some name -> Z.of_nat (length name) < 2 ^ 31 ->
  let expanded :=
    {| start := {| point_id := point_id (start this); point_offset := 0 |};
       end_ := {| point_id := point_id (end_ this);
                  point_offset := Z.of_nat (length name) |} |} in
  exists w1 w2,
    ExpandToEnclosingUnit this unit w = Done (S_OK, expanded, w1)
    /\ ExpandToEnclosingUnit expanded unit' w1 = Done (S_OK, expanded, w2)
    /\ (point_id (start this) = point_id (end_ this) ->
        exists w3, GetText expanded (-1) (Some slot) w2 = Done (S_OK, Some (Some name), w3)).
Proof.
  intros Hw Hid Hname Hshort expanded.
  destruct (ui_get_index_at _ _ _ Hw Hid) as (w1 & Hi & Hu & Hs & Hw1).
  destruct (ui_get_index_at w1 j (point_id (end_ this)) Hw1) as (w2 & Hi2 & Hu2 & Hs2 & Hw2).
  { rewrite Hu. assumption. }
  exists w1, w2. split; [|split].
  - unfold ExpandToEnclosingUnit.
    rewrite (bind_eq _ _ _ _ _ Hi). erewrite bind_eq by reflexivity. rewrite Hu.
    erewrite bind_eq by (apply at_eq; exact Hname).
    rewrite to_int_small by lia. reflexivity.
  - unfold ExpandToEnclosingUnit. simpl.
    rewrite (bind_eq _ _ _ _ _ Hi2). erewrite bind_eq by reflexivity. rewrite Hu2, Hu.
    erewrite bind_eq by (apply at_eq; exact Hname).
    rewrite to_int_small by lia. reflexivity.
  - intros Heq.
    destruct (GetText_within_node expanded (-1) slot w2 j name Hw2) as (w3 & Hrun & _).
    { simpl. symmetry. assumption. }
    { simpl. rewrite Hu2, Hu, Heq. assumption. }
    { rewrite Hu2, Hu. assumption. }
    { simpl. unfold to_size_t. rewrite Z.mod_0_l by (unfold size_max; lia). lia. }
    { lia. }
    exists w3. rewrite Hrun. cbn [point_offset start end_ expanded].
    assert (take (Z.to_nat (to_size_t (Z.of_nat (length name) - 0)))
              (drop (Z.to_nat (to_size_t 0)) name) = name) as ->.
    { rewrite Z.sub_0_r, to_size_t_small by (unfold size_max; lia).
      change (to_size_t 0) with 0. simpl drop. apply take_ge. lia. }
    rewrite Z.mod_small by lia. rewrite Nat2Z.id, take_ge by lia. reflexivity.
Qed.

Lemma ExpandToEnclosingUnit_takes_whole_names_witness :
  let this := range_between described 3 7 3 14 in
  let name := L "Hello, Dreamer of dreams." in
  let expanded :=
    {| start := {| point_id := point_id (start this); point_offset := 0 |};
       end_ := {| point_id := point_id (end_ this);
                  point_offset := Z.of_nat (length name) |} |} in
  exists w1 w2 w3,
    ExpandToEnclosingUnit this TextUnit_Word described = Done (S_OK, expanded, w1)
    /\ ExpandToEnclosingUnit expanded TextUnit_Line w1 = Done (S_OK, expanded, w2)
    /\ GetText expanded (-1) (Some None) w2 = Done (S_OK, Some (Some name), w3).
Proof.
  intros this name expanded.
  destruct (ExpandToEnclosingUnit_takes_whole_names described this TextUnit_Word
              TextUnit_Line 3 name None described_wf)
    as (w1 & w2 & H1 & H2 & H3); [vm_compute; reflexivity..|].
  destruct H3 as (w3 & H4); [vm_compute; reflexivity|].
  exists w1, w2, w3. split; [exact H1|]. split; [exact H2 | exact H4].
Defined.

Lemma drop_concat_step {A} (names : list (list A)) k n name :
  names !! k = Some name ->
  concat (take (S n) (drop k names)) = name ++ concat (take n (drop (S k) names)).
Proof.
  intros H. rewrite (drop_S _ _ _ H). reflexivity.
Qed.

(** The loop of [GetText] from the start of the node at [k] to the end
    of the range, on the node at [j]. *)
Lemma GetText_loop_tail this w j nj fuel k idk text :
  well_formed w ->
  node_ids (g_ui w) !! j = Some (point_id (end_ this)) ->
  node_names (g_ui w) !! j = Some nj ->
  (k <= j)%nat -> (j - k < fuel)%nat ->
  node_ids (g_ui w) !! k = Some idk ->
  exists w',
    GetText_loop fuel this idk 0 text w
    = Done (text ++ concat (take (j - k) (drop k (node_names (g_ui w))))
              ++ take (Z.to_nat (to_size_t (point_offset (end_ this)))) nj, w')
    /\ same_tree w w'.
Proof.
  intros Hw Hj Hnj. revert k idk text w Hw Hj Hnj.
  induction fuel as [|fuel IH]; intros k idk text w Hw Hj Hnj Hk Hfuel Hidk; [lia|].
  destruct (ui_get_index_at _ _ _ Hw Hidk) as (w1 & Hi & Hu & Hs & Hw1).
  destruct (well_formed_lookup _ _ _ Hw Hidk) as (_ & _ & nk & Hnk).
  assert (to_size_t 0 = 0) as Hz
    by (unfold to_size_t; apply Z.mod_0_l; unfold size_max; lia).
  simpl GetText_loop.
  rewrite (bind_eq _ _ _ _ _ Hi). erewrite bind_eq by reflexivity. rewrite Hu.
  erewrite bind_eq by (apply at_eq; exact Hnk).
  destruct (decide (k = j)) as [->|Hne].
  - assert (idk = point_id (end_ this)) as -> by congruence.
    assert (nk = nj) as -> by congruence.
    rewrite !decide_True by reflexivity.
    unfold wstring_append. rewrite Hz, decide_False by lia.
    erewrite bind_eq by reflexivity. erewrite bind_eq by reflexivity.
    rewrite decide_True by reflexivity.
    exists w1. split; [|assumption].
    rewrite Nat.sub_diag, Z.sub_0_r. simpl. reflexivity.
  - assert (idk <> point_id (end_ this)) as Hdiff.
    { intros ->. apply Hne.
      eapply NoDup_lookup; [apply (linked_nodup _ (wf_linked _ Hw))|eassumption..]. }
    rewrite !decide_False by assumption.
    unfold wstring_append. rewrite Hz, decide_False by lia.
    erewrite bind_eq by reflexivity. erewrite bind_eq by reflexivity.
    rewrite decide_False by assumption.
    pose proof (lookup_lt_Some _ _ _ Hj) as Hjl.
    rewrite Hu. rewrite decide_False by lia.
    destruct (lookup_lt_is_Some_2 (node_ids (g_ui w)) (k + 1)) as [id' Hid']; [lia|].
    erewrite bind_eq by (apply at_eq; exact Hid').
    destruct (IH (k + 1)%nat id' (text ++ take (Z.to_nat (Z.of_nat (length nk))) (drop (Z.to_nat 0) nk))
                w1 Hw1) as (w' & Hrun & Hs').
    { rewrite Hu. assumption. }
    { rewrite (same_names _ _ Hs). assumption. }
    { lia. }
    { lia. }
    { rewrite Hu. assumption. }
    exists w'. split; [|eapply same_tree_trans; eauto].
    rewrite Hrun. rewrite (same_names _ _ Hs). f_equal.
    replace (j - k)%nat with (S (j - (k + 1))) by lia.
    rewrite (drop_concat_step _ k _ nk Hnk).
    rewrite Nat.add_1_r. simpl drop. rewrite Nat2Z.id, firstn_all.
    rewrite <- !app_assoc. reflexivity.
Qed.

(** X15: on a well-formed store, for a range that starts on one node
    and ends on a later one, [GetText] joins the rest of the name of the
    first node from the start offset on, the whole names of the nodes
    between them in the order of the store, and the name of the last node
    up to the end offset; a [maxLength] that is not negative cuts the text
    at that length. *)
Theorem GetText_joins_the_names
    (w : World) (this : AnyElementTextRangeProvider) (i j : nat) (ni nj : wstring)
    (maxLength : Z) (slot : option wstring) :
  well_formed w ->
  node_ids (g_ui w) !! i = Some (point_id (start this)) ->
  node_ids (g_ui w) !! j = Some (point_id (end_ this)) -> (i < j)%nat ->
  node_names (g_ui w) !! i = Some ni -> node_names (g_ui w) !! j = Some nj ->
  0 <= point_offset (start this) <= Z.of_nat (length ni) ->
  point_offset (start this) < 2 ^ 31 -> 0 <= point_offset (end_ this) < 2 ^ 31 ->
  let text :=
    drop (Z.to_nat (point_offset (start this))) ni
    ++ concat (take (j - S i) (drop (S i) (node_names (g_ui w))))
    ++ take (Z.to_nat (point_offset (end_ this))) nj in
  Z.of_nat (length text) < 2 ^ 32 -> maxLength < 2 ^ 31 ->
  exists w',
    GetText this maxLength (Some slot) w
    = Done (S_OK,
            Some (Some (if decide (maxLength < 0) then text
                        else take (Z.to_nat maxLength) text)), w')
    /\ same_tree w w'.
Proof.
  intros Hw Hi Hj Hij Hni Hnj Ha Ha' Hb text Hlen Hmax.
  destruct (ui_get_index_at _ _ _ Hw Hi) as (w1 & Hgi & Hu & Hs & Hw1).
  pose proof (lookup_lt_Some _ _ _ Hj) as Hjl.
  destruct (lookup_lt_is_Some_2 (node_ids (g_ui w)) (i + 1)) as [id' Hid']; [lia|].
  assert (point_id (start this) <> point_id (end_ this)) as Hdiff.
  { intros Heq. rewrite Heq in Hi. assert (i = j); [|lia].
    eapply NoDup_lookup; [apply (linked_nodup _ (wf_linked _ Hw))|eassumption..]. }
  destruct (GetText_loop_tail this w1 j nj (length (node_ids (g_ui w))) (i + 1) id'
              ([] ++ take (Z.to_nat (Z.of_nat (length ni)))
                       (drop (Z.to_nat (to_size_t (point_offset (start this)))) ni)) Hw1)
    as (w' & Hrun & Hs').
  { rewrite Hu. assumption. }
  { rewrite (same_names _ _ Hs). assumption. }
  { lia. }
  { lia. }
  { rewrite Hu. assumption. }
  exists w'. split; [|eapply same_tree_trans; eauto].
  unfold GetText. erewrite bind_eq by reflexivity.
  erewrite bind_eq.
  2:{ simpl GetText_loop.
      rewrite (bind_eq _ _ _ _ _ Hgi). erewrite bind_eq by reflexivity. rewrite Hu.
      erewrite bind_eq by (apply at_eq; exact Hni).
      rewrite !decide_False by assumption.
      unfold wstring_append.
      rewrite (to_size_t_small (point_offset (start this))) by (unfold size_max; lia).
      rewrite decide_False by lia.
      erewrite bind_eq by reflexivity. erewrite bind_eq by reflexivity.
      rewrite decide_False by assumption.
      rewrite Hu. rewrite decide_False by lia.
      erewrite bind_eq by (apply at_eq; exact Hid').
      rewrite (to_size_t_small (point_offset (start this))) in Hrun
        by (unfold size_max; lia).
      exact Hrun. }
  assert (([] ++ take (Z.to_nat (Z.of_nat (length ni)))
                   (drop (Z.to_nat (point_offset (start this))) ni))
          ++ concat (take (j - (i + 1)) (drop (i + 1) (node_names (g_ui w1))))
          ++ take (Z.to_nat (to_size_t (point_offset (end_ this)))) nj = text) as Htext.
  { subst text. rewrite (same_names _ _ Hs). rewrite app_nil_l.
    rewrite Nat2Z.id, take_ge by (rewrite length_drop; lia).
    rewrite to_size_t_small by (unfold size_max; lia).
    rewrite Nat.add_1_r. reflexivity. }
  rewrite Htext.
  case_decide as Hneg.
  - rewrite Z.min_id, Z.mod_small by lia. rewrite Nat2Z.id, firstn_all. reflexivity.
  - rewrite (to_size_t_small maxLength) by (unfold size_max; lia).
    rewrite Z.mod_small by lia. do 4 f_equal.
    destruct (Z.min_spec (Z.of_nat (length text)) maxLength) as [[Hlt ->]|[Hge ->]].
    + rewrite Nat2Z.id, firstn_all. rewrite take_ge by lia. reflexivity.
    + reflexivity.
Qed.

Lemma GetText_joins_the_names_witness :
  exists w',
    GetText (range_between described 2 12 4 11) (-1) (Some None) described
    = Done (S_OK, Some (Some (L "first paragraph.Hello, Dreamer of dreams.Yet another")),
            w').
Proof.
  destruct (GetText_joins_the_names described (range_between described 2 12 4 11) 2 4
              (L "This is the first paragraph.") (L "Yet another paragraph") (-1) None
              described_wf) as (w' & H & _);
    [vm_compute; reflexivity | vm_compute; reflexivity | lia
    | vm_compute; reflexivity | vm_compute; reflexivity
    | vm_compute; split; discriminate | vm_compute; reflexivity
    | vm_compute; split; [discriminate|reflexivity]
    | vm_compute; reflexivity | reflexivity |].
  exists w'. rewrite H. vm_compute. reflexivity.
Defined.

(** ** Ranges over more than one node *)

Lemma bind_Fail {A B} (c : M A) (k : A -> M B) w f : c w = Fail f -> bind c k w = Fail f.
Proof. unfold bind. intros ->. reflexivity. Qed.

Lemma ui_get_parent_index_at w i id p k :
  well_formed w ->
  node_ids (g_ui w) !! i = Some id -> node_parent (g_ui w) !! i = Some p ->
  node_ids (g_ui w) !! k = Some p ->
  exists w', ui_get_parent_index id w = Done (k, w')
             /\ g_ui w' = g_ui w /\ same_tree w w' /\ well_formed w'.
Proof.
  intros Hw Hid Hp Hk.
  destruct (ui_get_index_at _ _ _ Hw Hid) as (w1 & Hi & Hu & Hs & Hw1).
  destruct (ui_get_index_at w1 k p Hw1) as (w2 & Hk2 & Hu2 & Hs2 & Hw2).
  { rewrite Hu. assumption. }
  exists w2. unfold ui_get_parent_index.
  rewrite (bind_eq _ _ _ _ _ Hi). erewrite bind_eq by reflexivity. rewrite Hu.
  erewrite bind_eq by (apply at_eq; exact Hp).
  split; [assumption|]. split; [congruence|].
  split; [eapply same_tree_trans; eauto | assumption].
Qed.

Lemma ui_get_parent_index_top w i id :
  well_formed w ->
  node_ids (g_ui w) !! i = Some id -> node_parent (g_ui w) !! i = Some 0 ->
  ui_get_parent_index id w = Fail VerifyFailed.
Proof.
  intros Hw Hid Hp.
  destruct (ui_get_index_at _ _ _ Hw Hid) as (w1 & Hi & Hu & Hs & Hw1).
  unfold ui_get_parent_index.
  rewrite (bind_eq _ _ _ _ _ Hi). erewrite bind_eq by reflexivity. rewrite Hu.
  erewrite bind_eq by (apply at_eq; exact Hp). reflexivity.
Qed.

(** The loop that lifts the shallower end point never ends: it exits at
    the root. *)
Lemma lift_while_shallower_exits fuel w i j id di dj :
  tidy w ->
  node_ids (g_ui w) !! i = Some id ->
  node_depth (g_ui w) !! i = Some di ->
  node_depth (g_ui w) !! j = Some dj ->
  di < dj -> (i < fuel)%nat ->
  lift_while_shallower fuel i j id w = Fail VerifyFailed.
Proof.
  revert w i id di.
  induction fuel as [|fuel IH]; intros w i id di Ht Hid Hdi Hdj Hlt Hfuel; [lia|].
  destruct Ht as [Hw Hn].
  simpl lift_while_shallower.
  erewrite bind_eq by reflexivity.
  erewrite bind_eq by (apply at_eq; exact Hdi).
  erewrite bind_eq by (apply at_eq; exact Hdj).
  rewrite decide_True by assumption.
  destruct (lookup_lt_is_Some_2 (node_parent (g_ui w)) i) as [p Hp].
  { rewrite (aligned_parent _ (wf_aligned _ Hw)). eapply lookup_lt_Some; eauto. }
  destruct (Hn i di p Hdi Hp) as [[-> ->]|(Hne & k & Hk & Hpk & Hdk & _)].
  - apply bind_Fail. eapply ui_get_parent_index_top; eauto.
  - destruct (ui_get_parent_index_at w i id p k Hw Hid Hp Hpk) as (w2 & Hk2 & Hu2 & Hs2 & Hw2).
    rewrite (bind_eq _ _ _ _ _ Hk2). erewrite bind_eq by reflexivity. rewrite Hu2.
    erewrite bind_eq by (apply at_eq; exact Hpk).
    apply (IH w2 k p (di - 1)).
    + split; [assumption|]. rewrite Hu2. assumption.
    + rewrite Hu2. assumption.
    + rewrite Hu2. assumption.
    + rewrite Hu2. assumption.
    + lia.
    + lia.
Qed.

(** X16: on a store that the builder left, [GetEnclosingElement] asked
    with an output slot for a range whose end points lie on nodes of
    different depths does not return: the loop that should lift the
    deeper end point to the depth of the other one lifts the shallower
    one, up to the root, where [ui_get_index] fails its [VERIFY] and the
    process exits. *)
Theorem GetEnclosingElement_exits_across_depths
    (w : World) (this : AnyElementTextRangeProvider) (slot : option Fragment)
    (i j : nat) (di dj : Z) :
  tidy w ->
  node_ids (g_ui w) !! i = Some (point_id (start this)) ->
  node_ids (g_ui w) !! j = Some (point_id (end_ this)) ->
  node_depth (g_ui w) !! i = Some di ->
  node_depth (g_ui w) !! j = Some dj ->
  di <> dj ->
  GetEnclosingElement this (Some slot) w = Fail VerifyFailed.
Proof.
  intros Ht Hi Hj Hdi Hdj Hne.
  pose proof (tidy_wf _ Ht) as Hw.
  unfold GetEnclosingElement.
  rewrite decide_False.
  2:{ intros Heq. rewrite <- Heq in Hj.
      assert (i = j) as ->
        by (eapply NoDup_lookup; [apply (linked_nodup _ (wf_linked _ Hw))|eassumption..]).
      congruence. }
  destruct (ui_get_index_at _ _ _ Hw Hi) as (w1 & Hi1 & Hu1 & Hs1 & Hw1).
  destruct (ui_get_index_at w1 j (point_id (end_ this)) Hw1) as (w2 & Hj2 & Hu2 & Hs2 & Hw2).
  { rewrite Hu1. assumption. }
  rewrite (bind_eq _ _ _ _ _ Hi1), (bind_eq _ _ _ _ _ Hj2).
  erewrite bind_eq by reflexivity.
  assert (tidy w2) as Ht2.
  { split; [assumption|]. rewrite Hu2, Hu1. apply Ht. }
  pose proof (lookup_lt_Some _ _ _ Hi) as Hil.
  pose proof (lookup_lt_Some _ _ _ Hj) as Hjl.
  rewrite Hu2, Hu1.
  destruct (Z.lt_total di dj) as [Hlt|[Heq|Hgt]]; [|contradiction|].
  - apply bind_Fail.
    apply (lift_while_shallower_exits _ w2 i j _ di dj Ht2);
      rewrite ?Hu2, ?Hu1; try assumption; lia.
  - erewrite bind_eq.
    2:{ simpl lift_while_shallower.
        erewrite bind_eq by reflexivity. rewrite Hu2, Hu1.
        erewrite bind_eq by (apply at_eq; exact Hdi).
        erewrite bind_eq by (apply at_eq; exact Hdj).
        rewrite decide_False by lia. reflexivity. }
    apply bind_Fail.
    apply (lift_while_shallower_exits _ w2 j i _ dj di Ht2);
      rewrite ?Hu2, ?Hu1; try assumption; lia.
Qed.

Lemma GetEnclosingElement_exits_across_depths_witness :
  GetEnclosingElement (range_between described 1 0 4 21) (Some None) described
  = Fail VerifyFailed.
Proof.
  apply (GetEnclosingElement_exits_across_depths described _ None 1 4 1 2 described_tidy);
    try (vm_compute; reflexivity).
  discriminate.
Defined.

(** ** Move, from the element of the unit *)

Lemma Move_normalize_here fuel type id index w :
  node_type (g_ui w) !! index = Some type ->
  Move_normalize fuel type id index w = Done (id, w).
Proof.
  intros Ht. destruct fuel; simpl.
  - case_decide; [reflexivity|].
    erewrite bind_eq by reflexivity. erewrite bind_eq by (apply at_eq; exact Ht).
    rewrite decide_True by reflexivity. reflexivity.
  - case_decide; [reflexivity|].
    erewrite bind_eq by reflexivity. erewrite bind_eq by (apply at_eq; exact Ht).
    rewrite decide_True by reflexivity. reflexivity.
Qed.

(** One step, forwards or backwards, is taken at the node where the walk
    starts. *)
Lemma advance_by_type_one w i id type count :
  well_formed w ->
  node_ids (g_ui w) !! i = Some id -> node_type (g_ui w) !! i = Some type ->
  count = 1 \/ count = -1 ->
  exists w', advance_by_type id count type w
             = Done ({| new_id := id; steps_taken := count |}, w')
             /\ g_ui w' = g_ui w /\ same_tree w w' /\ well_formed w'.
Proof.
  intros Hw Hid Ht Hc.
  destruct (ui_get_index_at _ _ _ Hw Hid) as (w1 & Hi & Hu & Hs & Hw1).
  pose proof (lookup_lt_Some _ _ _ Hid) as Hlt.
  exists w1. split; [|auto]. unfold advance_by_type.
  rewrite (bind_eq _ _ _ _ _ Hi). erewrite bind_eq by reflexivity. rewrite Hu.
  erewrite bind_eq by (apply at_eq; exact Ht).
  rewrite bool_decide_eq_true_2 by reflexivity.
  erewrite bind_eq by reflexivity.
  rewrite decide_False by (destruct Hc as [-> | ->]; discriminate).
  rewrite decide_False by (destruct Hc as [-> | ->]; discriminate).
  erewrite bind_eq by reflexivity. rewrite Hu.
  assert (Z.abs count = 1) as -> by lia.
  rewrite Z.quot_1_r.
  assert (advance_loop (S (length (node_ids (g_ui w)))) type 1 count (Z.of_nat i) id 0 w1
          = Done ((id, 1), w1)) as Hloop.
  { simpl advance_loop.
    erewrite bind_eq by reflexivity. rewrite Hu.
    rewrite decide_True by lia.
    erewrite bind_eq by reflexivity. rewrite Hu, Nat2Z.id.
    erewrite bind_eq by (apply at_eq; exact Ht).
    rewrite decide_True by reflexivity.
    erewrite bind_eq by (apply at_eq; exact Hid).
    destruct (length (node_ids (g_ui w))); simpl advance_loop.
    - erewrite bind_eq by reflexivity. rewrite decide_False by lia. reflexivity.
    - erewrite bind_eq by reflexivity. rewrite decide_False by lia. reflexivity. }
  rewrite (bind_eq _ _ _ _ _ Hloop). cbn [fst snd]. rewrite Z.mul_1_r. reflexivity.
Qed.

(** X17: on a well-formed store, [Move] by [TextUnit_Document] or
    [TextUnit_Paragraph] of a non-degenerate range that starts on an
    element of the type of the unit counts that element as the first
    step: with a count of [1] or [-1] the range does not leave the
    element and becomes the range over its whole text, with [S_OK]; with
    a count of [0] the step of the walk is [0 / 0], which is undefined. *)
Theorem Move_counts_the_start_element
    (w : World) (this : AnyElementTextRangeProvider) (unit : TextUnit) (type : UiType)
    (slot : Z) (i : nat) (len : Z) :
  well_formed w ->
  start this <> end_ this ->
  unit_type unit = Some type ->
  node_ids (g_ui w) !! i = Some (point_id (start this)) ->
  node_type (g_ui w) !! i = Some type ->
  node_text_len (g_ui w) !! i = Some len ->
  (forall count, count = 1 \/ count = -1 ->
     exists w',
       Move this unit count (Some slot) w
       = Done (S_OK,
               {| start := {| point_id := point_id (start this); point_offset := 0 |};
                  end_ := {| point_id := point_id (start this);
                             point_offset := to_int len |} |},
               Some slot, w')
       /\ same_tree w w')
  /\ Move this unit 0 (Some slot) w = Fail Undefined.
Proof.
  intros Hw Hne Hunit Hid Ht Hlen.
  pose proof (well_formed_lookup _ _ _ Hw Hid) as (Hv & _ & _).
  pose proof (valid_id_nonzero _ Hv) as Hnz.
  destruct (ui_get_index_at _ _ _ Hw Hid) as (w1 & Hi & Hu & Hs & Hw1).
  assert (forall count,
            Move this unit count (Some slot) w
            = (let* advance := advance_by_type (point_id (start this)) count type in
               let new_start := {| point_id := new_id advance; point_offset := 0 |} in
               let* index := ui_get_index (point_id new_start) in
               let* lens := gets node_text_len in
               let* len := at_ lens index in
               let new_end := {| point_id := point_id new_start;
                                 point_offset := to_int len |} in
               ret (S_OK, {| start := new_start; end_ := new_end |}, Some slot)) w1)
    as Hmove.
  { intros count. unfold Move. rewrite decide_False by assumption.
    assert (forall k : M (HRESULT * AnyElementTextRangeProvider * option Z),
              match unit with
              | TextUnit_Line | TextUnit_Word | TextUnit_Character | TextUnit_Format =>
                  ret (E_NOTIMPL, this, Some slot)
              | _ => k
              end = k) as ->.
    { intros k. destruct unit; try discriminate Hunit; reflexivity. }
    rewrite Hunit. erewrite bind_eq by reflexivity.
    erewrite bind_eq; [reflexivity|].
    rewrite (bind_eq _ _ _ _ _ Hi).
    erewrite bind_eq by (apply Move_normalize_here; rewrite Hu; exact Ht).
    rewrite decide_True by assumption. reflexivity. }
  split.
  - intros count Hc. rewrite Hmove.
    destruct (advance_by_type_one w1 i (point_id (start this)) type count Hw1)
      as (w2 & Ha & Hu2 & Hs2 & Hw2); [rewrite Hu; assumption..|assumption|].
    rewrite (bind_eq _ _ _ _ _ Ha). cbn [new_id point_id].
    destruct (ui_get_index_at w2 i (point_id (start this)) Hw2)
      as (w3 & Hi3 & Hu3 & Hs3 & Hw3); [rewrite Hu2, Hu; assumption|].
    rewrite (bind_eq _ _ _ _ _ Hi3). erewrite bind_eq by reflexivity.
    rewrite Hu3, Hu2, Hu. erewrite bind_eq by (apply at_eq; exact Hlen).
    exists w3. split; [reflexivity|].
    eapply same_tree_trans; [exact Hs|]. eapply same_tree_trans; eauto.
  - rewrite Hmove. apply bind_Fail. unfold advance_by_type.
    destruct (ui_get_index_at w1 i (point_id (start this)) Hw1)
      as (w2 & Hi2 & Hu2 & Hs2 & Hw2); [rewrite Hu; assumption|].
    rewrite (bind_eq _ _ _ _ _ Hi2). erewrite bind_eq by reflexivity. rewrite Hu2, Hu.
    erewrite bind_eq by (apply at_eq; exact Ht).
    rewrite bool_decide_eq_true_2 by reflexivity.
    erewrite bind_eq by reflexivity.
    rewrite decide_False by discriminate. reflexivity.
Qed.

Lemma Move_counts_the_start_element_witness :
  let this := whole_node described 2 in
  (exists w',
     Move this TextUnit_Paragraph 1 (Some 0) described
     = Done (S_OK,
             {| start := {| point_id := point_id (start this); point_offset := 0 |};
                end_ := {| point_id := point_id (start this);
                           point_offset := to_int 28 |} |},
             Some 0, w'))
  /\ Move this TextUnit_Paragraph 0 (Some 0) described = Fail Undefined.
Proof.
  intros this.
  destruct (Move_counts_the_start_element described this TextUnit_Paragraph kText 0 2 28
              described_wf) as [H1 H0]; try (vm_compute; reflexivity).
  { vm_compute. discriminate. }
  split; [|exact H0].
  destruct (H1 1 (or_introl eq_refl)) as (w' & H & _). exists w'. exact H.
Defined.

(** The walk up to an element of the type of the unit exits at the root
    when there is none. *)
Lemma Move_normalize_exits u type id :
  no_such_ancestor u type id ->
  forall fuel index w,
    g_ui w = u -> well_formed w -> node_ids u !! index = Some id -> (index < fuel)%nat ->
    Move_normalize fuel type id index w = Fail VerifyFailed.
Proof.
  induction 1 as [|id i t p Hi Ht Hne Hp Hno IH]; intros fuel index w Eu Hw Hid Hfuel.
  - subst u. apply well_formed_lookup in Hid as (Hv & _); [discriminate Hv | assumption].
  - subst u.
    assert (index = i) as ->
      by (eapply NoDup_lookup; [apply (linked_nodup _ (wf_linked _ Hw))|eassumption..]).
    pose proof (well_formed_lookup _ _ _ Hw Hid) as (Hv & _ & _).
    destruct fuel as [|fuel]; [lia|]. simpl Move_normalize.
    rewrite decide_False by (apply valid_id_nonzero; assumption).
    erewrite bind_eq by reflexivity. erewrite bind_eq by (apply at_eq; exact Ht).
    rewrite decide_False by assumption.
    erewrite bind_eq by reflexivity. erewrite bind_eq by (apply at_eq; exact Hp).
    destruct (linked_parent _ (wf_linked _ Hw) _ _ Hp) as [->|(k & Hk & Hpk)].
    + apply bind_Fail. apply ui_get_index_invalid. reflexivity.
    + destruct (ui_get_index_at _ _ _ Hw Hpk) as (w1 & Hk1 & Hu & Hs & Hw1).
      rewrite (bind_eq _ _ _ _ _ Hk1).
      apply IH; [assumption|assumption|assumption|lia].
Qed.

(** X18: on a well-formed store, [Move] by [TextUnit_Document] or
    [TextUnit_Paragraph] of a non-degenerate range that starts on an
    element which is not of the type of the unit, and none of whose
    ancestors is, does not return: the walk up the parents asks
    [ui_get_index] for the index of the root, whose [VERIFY] fails, and
    the process exits. *)
Theorem Move_exits_without_an_element_of_the_unit
    (w : World) (this : AnyElementTextRangeProvider) (unit : TextUnit) (type : UiType)
    (count slot : Z) (i : nat) :
  well_formed w ->
  start this <> end_ this ->
  unit_type unit = Some type ->
  node_ids (g_ui w) !! i = Some (point_id (start this)) ->
  no_such_ancestor (g_ui w) type (point_id (start this)) ->
  Move this unit count (Some slot) w = Fail VerifyFailed.
Proof.
  intros Hw Hne Hunit Hid Hno.
  destruct (ui_get_index_at _ _ _ Hw Hid) as (w1 & Hi & Hu & Hs & Hw1).
  unfold Move. rewrite decide_False by assumption.
  assert (forall k : M (HRESULT * AnyElementTextRangeProvider * option Z),
            match unit with
            | TextUnit_Line | TextUnit_Word | TextUnit_Character | TextUnit_Format =>
                ret (E_NOTIMPL, this, Some slot)
            | _ => k
            end = k) as ->.
  { intros k. destruct unit; try discriminate Hunit; reflexivity. }
  rewrite Hunit. erewrite bind_eq by reflexivity.
  apply bind_Fail. rewrite (bind_eq _ _ _ _ _ Hi). apply bind_Fail.
  apply (Move_normalize_exits (g_ui w)); try assumption.
  eapply lookup_lt_Some; eauto.
Qed.

Lemma Move_exits_without_an_element_of_the_unit_witness :
  Move (range_between described 1 0 4 21) TextUnit_Paragraph 1 (Some 0) described
  = Fail VerifyFailed.
Proof.
  apply (Move_exits_without_an_element_of_the_unit described _ TextUnit_Paragraph kText
           1 0 1 described_wf); try (vm_compute; reflexivity).
  - vm_compute. discriminate.
  - apply (no_such_ancestor_node _ _ _ 1%nat kDocument (id_at described 0));
      try (vm_compute; reflexivity); [discriminate|].
    apply (no_such_ancestor_node _ _ _ 0%nat kPane 0);
      try (vm_compute; reflexivity); [discriminate|].
    apply no_such_ancestor_root.
Defined.

(** ** The children of a range *)

Lemma create_simple_element_provider_at x w k :
  well_formed w -> node_ids (g_ui w) !! k = Some (focused_id (g_ui w)) ->
  exists w', create_simple_element_provider x w
             = Done (AnyElementProvider (focused_id (g_ui w)), w')
             /\ same_tree w w' /\ well_formed w'.
Proof.
  intros Hw Hk.
  destruct (well_formed_lookup _ _ _ Hw Hk) as (Hv & _ & _).
  destruct (create_simple_element_provider_total x w Hv) as (w' & H).
  { eapply list_elem_of_lookup_2; eauto. }
  assert (same_tree w w') as Hs
    by (exact (keeps_create_simple_element_provider x _ _ _ H)).
  exists w'. split; [assumption|]. split; [assumption|].
  eapply well_formed_same_tree; eauto.
Qed.

Lemma GetChildren_loop_counts this w j fuel k idk children :
  well_formed w ->
  node_ids (g_ui w) !! j = Some (point_id (end_ this)) ->
  (point_offset (start this) = 0 ->
   exists f, node_ids (g_ui w) !! f = Some (focused_id (g_ui w))) ->
  (k <= j)%nat -> (j - k < fuel)%nat ->
  node_ids (g_ui w) !! k = Some idk ->
  exists w',
    GetChildren_loop fuel this idk (point_offset (start this)) children w
    = Done (children
              ++ replicate (if decide (point_offset (start this) = 0) then S (j - k) else 0)
                   (AnyElementProvider (focused_id (g_ui w))), w')
    /\ same_tree w w'.
Proof.
  revert k idk children w.
  induction fuel as [|fuel IH]; intros k idk children w Hw Hj Hfoc Hk Hfuel Hidk; [lia|].
  destruct (ui_get_index_at _ _ _ Hw Hidk) as (w1 & Hi & Hu & Hs & Hw1).
  simpl GetChildren_loop. rewrite (bind_eq _ _ _ _ _ Hi).
  assert (exists w2,
            (if decide (point_offset (start this) = 0)
             then let* focused := gets focused_id in
                  let* sp := create_simple_element_provider focused in
                  ret (children ++ [sp])
             else ret children) w1
            = Done (children
                      ++ replicate (if decide (point_offset (start this) = 0) then 1%nat else 0%nat)
                           (AnyElementProvider (focused_id (g_ui w))), w2)
            /\ same_tree w1 w2 /\ well_formed w2) as (w2 & Hadd & Hs2 & Hw2).
  { case_decide as Hz.
    - destruct (Hfoc Hz) as (f & Hf).
      destruct (create_simple_element_provider_at (focused_id (g_ui w1)) w1 f Hw1)
        as (w2 & Hsp & Hs2 & Hw2); [rewrite Hu; assumption|].
      exists w2. split; [|auto].
      erewrite bind_eq by reflexivity. rewrite (bind_eq _ _ _ _ _ Hsp).
      rewrite Hu. reflexivity.
    - exists w1. split; [|split; [apply same_tree_refl | assumption]].
      simpl. rewrite app_nil_r. reflexivity. }
  rewrite (bind_eq _ _ _ _ _ Hadd). erewrite bind_eq by reflexivity.
  rewrite (same_ids _ _ Hs2), Hu.
  destruct (decide (k = j)) as [->|Hne].
  - assert (idk = point_id (end_ this)) as -> by congruence.
    rewrite decide_True by reflexivity.
    exists w2. split; [|eapply same_tree_trans; eauto].
    rewrite Nat.sub_diag. reflexivity.
  - assert (idk <> point_id (end_ this)) as Hdiff.
    { intros ->. apply Hne.
      eapply NoDup_lookup; [apply (linked_nodup _ (wf_linked _ Hw))|eassumption..]. }
    rewrite decide_False by assumption.
    pose proof (lookup_lt_Some _ _ _ Hj) as Hjl.
    rewrite decide_False by lia.
    destruct (lookup_lt_is_Some_2 (node_ids (g_ui w)) (k + 1)) as [id' Hid']; [lia|].
    erewrite bind_eq by (apply at_eq; exact Hid').
    assert (same_tree w w2) as Hs02 by (eapply same_tree_trans; eauto).
    destruct (IH (k + 1)%nat id'
                (children
                   ++ replicate (if decide (point_offset (start this) = 0) then 1%nat else 0%nat)
                        (AnyElementProvider (focused_id (g_ui w)))) w2 Hw2)
      as (w' & Hrun & Hs').
    { rewrite (same_ids _ _ Hs02). assumption. }
    { rewrite (same_ids _ _ Hs02), (same_focused _ _ Hs02). assumption. }
    { lia. }
    { lia. }
    { rewrite (same_ids _ _ Hs02). assumption. }
    exists w'. split; [|eapply same_tree_trans; eauto].
    rewrite Hrun. rewrite (same_focused _ _ Hs02). f_equal. f_equal.
    rewrite <- app_assoc. f_equal.
    case_decide; [|reflexivity].
    rewrite <- replicate_add. f_equal. lia.
Qed.

(** X19: on a well-formed store, [GetChildren] of a range that starts on
    one node and ends on the same or a later one walks the nodes from the
    first to the second; when the start offset is [0] and the focused
    element is a node of the store it answers, with [S_OK], one entry for
    each node walked, each the provider of the focused element; when the
    start offset is not [0] it answers [S_OK] with no entry at all. *)
Theorem GetChildren_counts_the_nodes_walked
    (w : World) (this : AnyElementTextRangeProvider) (slot : option (list Fragment))
    (i j : nat) :
  well_formed w ->
  node_ids (g_ui w) !! i = Some (point_id (start this)) ->
  node_ids (g_ui w) !! j = Some (point_id (end_ this)) ->
  (i <= j)%nat ->
  (point_offset (start this) = 0 ->
   exists f, node_ids (g_ui w) !! f = Some (focused_id (g_ui w))) ->
  exists w',
    GetChildren this (Some slot) w
    = Done (S_OK,
            Some (Some (replicate
                          (if decide (point_offset (start this) = 0) then S (j - i) else 0)
                          (AnyElementProvider (focused_id (g_ui w))))), w')
    /\ same_tree w w'.
Proof.
  intros Hw Hi Hj Hle Hfoc.
  pose proof (lookup_lt_Some _ _ _ Hj) as Hjl.
  destruct (GetChildren_loop_counts this w j (S (length (node_ids (g_ui w)))) i
              (point_id (start this)) [] Hw Hj Hfoc Hle) as (w' & Hrun & Hs);
    [lia|assumption|].
  exists w'. split; [|assumption].
  unfold GetChildren. erewrite bind_eq by reflexivity.
  rewrite (bind_eq _ _ _ _ _ Hrun). reflexivity.
Qed.

Lemma GetChildren_counts_the_nodes_walked_witness :
  let this := range_between described 2 0 4 21 in
  exists w',
    GetChildren this (Some None) described
    = Done (S_OK,
            Some (Some (replicate
                          (if decide (point_offset (start this) = 0) then S (4 - 2) else 0)
                          (AnyElementProvider (focused_id (g_ui described))))), w').
Proof.
  intros this.
  destruct (GetChildren_counts_the_nodes_walked described this None 2 4 described_wf)
    as (w' & H & _); try (vm_compute; reflexivity).
  - lia.
  - intros _. exists 2%nat. vm_compute. reflexivity.
  - exists w'. exact H.
Defined.

(** ** Hit testing without rectangles *)

Lemma inside_empty r x y : empty_rect r -> inside r x y = false.
Proof.
  intros He. unfold inside, Qltb. rewrite !negb_involutive.
  destruct (Qle_bool (inject_Z (top r)) y) eqn:E1; [|reflexivity].
  destruct (Qle_bool (inject_Z (bottom r)) y) eqn:E2; [reflexivity|].
  destruct (Qle_bool (inject_Z (left r)) x) eqn:E3; [|reflexivity].
  destruct (Qle_bool (inject_Z (right r)) x) eqn:E4; [reflexivity|].
  exfalso. apply Qle_bool_iff in E1, E3.
  destruct He as [He|He]; rewrite Zle_Qle in He.
  - apply (Qle_trans _ _ _ He) in E3. apply Qle_bool_iff in E3. congruence.
  - apply (Qle_trans _ _ _ He) in E1. apply Qle_bool_iff in E1. congruence.
Qed.

Lemma locate_from_empty u x y rects i depth id :
  Forall empty_rect rects -> (i + length rects <= length (node_depth u))%nat ->
  locate_from u x y rects i depth id = Done (depth, id).
Proof.
  intros He. revert i. induction He as [|r rects Hr He IH]; intros i Hlen; [reflexivity|].
  rewrite locate_from_cons. simpl in Hlen.
  destruct (lookup_lt_is_Some_2 (node_depth u) i) as [d ->]; [lia|].
  rewrite (inside_empty _ _ _ Hr).
  case_decide; apply IH; lia.
Qed.

Section NoRectangles.

Variable hash : wstring -> Z.
Variable wyhash64 : Z -> Z -> Z.

Lemma run_call_no_rect c w w' :
  sets_no_rect c = true ->
  run_call hash wyhash64 c w = Done (tt, w') ->
  Forall empty_rect (node_rect (g_ui w)) -> Forall empty_rect (node_rect (g_ui w')).
Proof.
  intros Hc H He. destruct c as [name type|text action| | |id rect]; simpl in H;
    [| | | |discriminate Hc].
  - apply bind_Done in H as (id & w1 & Hn & [= <-]).
    apply ui_named_element_Done in Hn as (p & _ & _ & _ & _ & Hadd & _).
    rewrite (na_rect _ _ _ _ _ _ _ Hadd). apply Forall_app. split; [assumption|].
    constructor; [|constructor]. left. reflexivity.
  - apply bind_Done in H as (id & w1 & Hn & [= <-]).
    apply ui_button_columns in Hn as (w2 & Hn & -> & _).
    apply ui_named_element_Done in Hn as (p & _ & _ & _ & _ & Hadd & _).
    simpl. rewrite (na_rect _ _ _ _ _ _ _ Hadd). apply Forall_app. split; [assumption|].
    constructor; [|constructor]. left. reflexivity.
  - injection H as <-. assumption.
  - injection H as <-. assumption.
Qed.

Lemma run_calls_no_rect cs w w' :
  forallb sets_no_rect cs = true ->
  run_calls hash wyhash64 cs w = Done (tt, w') ->
  Forall empty_rect (node_rect (g_ui w)) -> Forall empty_rect (node_rect (g_ui w')).
Proof.
  revert w. induction cs as [|c cs IH]; intros w Hcs H He; simpl in H.
  - injection H as <-. assumption.
  - simpl in Hcs. apply andb_true_iff in Hcs as [Hc Hcs].
    apply bind_Done in H as ([] & w1 & H1 & H).
    eapply IH; [assumption|exact H|]. eapply run_call_no_rect; eauto.
Qed.

(** X20: after calls of the builder without a call of [ui_set_rect]
    (the program as shipped, whose [kEnableUiRects] is [false]), started
    on the empty store, every node has the empty rectangle, and
    [ElementProviderFromPoint] answers the root provider, with [S_OK],
    for every point, and leaves the store as it is. *)
Theorem hit_test_without_rectangles_answers_the_root
    (cs : list BuilderCall) (listening : bool) (w : World)
    (LeftTop : POINT) (x y : Q) (slot : option Fragment) :
  forallb sets_no_rect cs = true ->
  run_calls hash wyhash64 cs (World0 listening) = Done (tt, w) ->
  ElementProviderFromPoint LeftTop x y (Some slot) w
  = Done (S_OK, Some (Some RootProvider), w).
Proof.
  intros Hcs Hrun.
  pose proof (run_calls_well_formed _ _ _ _ _ (well_formed_World0 listening) Hrun) as Hw.
  pose proof (run_calls_no_rect _ _ _ Hcs Hrun (Forall_nil_2 _)) as He.
  unfold ElementProviderFromPoint. erewrite bind_eq by reflexivity.
  unfold locate. rewrite locate_from_empty.
  - rewrite decide_False by (intros Hne; apply Hne; reflexivity). reflexivity.
  - assumption.
  - rewrite (aligned_rect _ (wf_aligned _ Hw)), (aligned_depth _ (wf_aligned _ Hw)). lia.
Qed.

End NoRectangles.

Lemma hit_test_without_rectangles_answers_the_root_witness :
  ElementProviderFromPoint (mkPOINT 100 200) (130 # 1) (225 # 1) (Some None) built_by_calls
  = Done (S_OK, Some (Some RootProvider), built_by_calls).
Proof.
  apply (hit_test_without_rectangles_answers_the_root demo_hash demo_wyhash64
           describe_calls false).
  - reflexivity.
  - exact built_by_calls_run.
Defined.

(** ** Rectangles *)

Section Rectangles.

Variable ClientToScreen : POINT -> POINT.
Variable ClientRect : RECT.

(** X21: on a well-formed store, the rectangle that [ui_set_rect] has
    given to a node is the one that [get_BoundingRectangle] of that node
    reports: its left top corner as [ClientToScreen] maps it, with its
    width and its height; the rectangles of the other nodes stay what
    they were, and the store stays well formed. *)
Theorem set_rect_reads_back_as_bounding_rectangle
    (w : World) (i : nat) (id : Id) (rect : RECT) (slot : UiaRect) :
  well_formed w ->
  node_ids (g_ui w) !! i = Some id ->
  exists w1 w2,
    ui_set_rect id rect w = Done (tt, w1)
    /\ well_formed w1
    /\ (forall j, j <> i -> node_rect (g_ui w1) !! j = node_rect (g_ui w) !! j)
    /\ get_BoundingRectangle ClientToScreen id (Some slot) w1
       = Done (S_OK,
               Some {| uia_left := px (ClientToScreen {| px := left rect; py := top rect |});
                       uia_top := py (ClientToScreen {| px := left rect; py := top rect |});
                       uia_width := right rect - left rect;
                       uia_height := bottom rect - top rect |}, w2).
Proof.
  intros Hw Hid.
  destruct (ui_get_index_at _ _ _ Hw Hid) as (w0 & Hi & Hu & Hs & Hw0).
  pose proof (lookup_lt_Some _ _ _ Hid) as Hlt.
  pose proof (aligned_rect _ (wf_aligned _ Hw)) as Hlen.
  assert (ui_set_rect id rect w
          = Done (tt, set_g_ui (set_node_rect (<[i := rect]> (node_rect (g_ui w))) (g_ui w0)) w0))
    as Hset.
  { unfold ui_set_rect. rewrite (bind_eq _ _ _ _ _ Hi).
    erewrite bind_eq by reflexivity. unfold modify. rewrite Hu.
    replace (S i - length (node_rect (g_ui w)))%nat with 0%nat by lia.
    simpl replicate. rewrite app_nil_r. reflexivity. }
  set (w1 := set_g_ui _ w0) in Hset.
  assert (well_formed w1) as Hw1 by exact (ui_set_rect_well_formed id rect w w1 Hw Hset).
  assert (node_ids (g_ui w1) !! i = Some id) as Hid1 by (subst w1; simpl; rewrite Hu; exact Hid).
  destruct (ui_get_index_at _ _ _ Hw1 Hid1) as (w2 & Hi2 & Hu2 & Hs2 & Hw2).
  exists w1, w2. split; [assumption|]. split; [assumption|]. split.
  - intros j Hj. subst w1. simpl. apply list_lookup_insert_ne. congruence.
  - unfold get_BoundingRectangle. rewrite (bind_eq _ _ _ _ _ Hi2).
    erewrite bind_eq by reflexivity.
    erewrite bind_eq; [reflexivity|].
    apply at_eq. rewrite Hu2. subst w1. simpl.
    apply list_lookup_insert_eq. lia.
Qed.

End Rectangles.

Lemma set_rect_reads_back_as_bounding_rectangle_witness :
  exists w1 w2,
    ui_set_rect (id_at described 3) (mkRECT 20 20 1220 40) described = Done (tt, w1)
    /\ get_BoundingRectangle (fun p => mkPOINT (px p + 100) (py p + 200)) (id_at described 3)
         (Some (mkUiaRect 0 0 0 0)) w1
       = Done (S_OK,
               Some {| uia_left := 20 + 100; uia_top := 20 + 200;
                       uia_width := 1220 - 20; uia_height := 40 - 20 |}, w2).
Proof.
  destruct (set_rect_reads_back_as_bounding_rectangle
              (fun p => mkPOINT (px p + 100) (py p + 200)) described 3 (id_at described 3)
              (mkRECT 20 20 1220 40) (mkUiaRect 0 0 0 0) described_wf)
    as (w1 & w2 & H1 & _ & _ & H2); [vm_compute; reflexivity|].
  exists w1, w2. split; [exact H1 | exact H2].
Defined.

Lemma LONG_add_fits a b : fits_LONG (a + b) -> LONG_add a b = Done (a + b).
Proof. intros H. unfold LONG_add. rewrite decide_True by exact H. reflexivity. Qed.

Section BoundingRectangles.

Variable ClientToScreen : POINT -> POINT.
Variable ClientRect : RECT.

(** X22: on a well-formed store, [GetBoundingRectangles] of a range
    within one node, whose rectangle and the client rectangle of the
    window are upright, reports the node whenever the two rectangles
    overlap horizontally, wherever the node lies vertically: the bottom
    of the rectangle reported is the larger of the two bottoms, so that
    the rectangle is not cut at the bottom of the window.  Without a
    horizontal overlap the array is empty. *)
Theorem GetBoundingRectangles_does_not_cut_at_the_bottom
    (w : World) (this : AnyElementTextRangeProvider) (slot : option (list Z))
    (i : nat) (nr : RECT) :
  well_formed w ->
  node_ids (g_ui w) !! i = Some (point_id (start this)) ->
  point_id (end_ this) = point_id (start this) ->
  node_rect (g_ui w) !! i = Some nr ->
  top nr <= bottom nr -> top ClientRect <= bottom ClientRect ->
  let LeftTop := ClientToScreen {| px := left ClientRect; py := top ClientRect |} in
  let l := Z.max (left nr) (left ClientRect) in
  let t := Z.max (top nr) (top ClientRect) in
  let r := Z.min (right nr) (right ClientRect) in
  let b := Z.max (bottom nr) (bottom ClientRect) in
  (l <= r ->
   fits_LONG (l + px LeftTop) -> fits_LONG (t + py LeftTop) ->
   fits_LONG (r + px LeftTop) -> fits_LONG (b + py LeftTop) ->
   exists w',
     GetBoundingRectangles ClientToScreen ClientRect this (Some slot) w
     = Done (S_OK,
             Some (Some [l + px LeftTop; t + py LeftTop; r + px LeftTop; b + py LeftTop]),
             w'))
  /\ (r < l ->
      exists w',
        GetBoundingRectangles ClientToScreen ClientRect this (Some slot) w
        = Done (S_OK, Some (Some []), w')).
Proof.
  intros Hw Hid Hend Hnr Hup Hupc LeftTop l t r b.
  destruct (ui_get_index_at _ _ _ Hw Hid) as (w1 & Hi & Hu & Hs & Hw1).
  assert (forall rects,
            (if decide (left (intersection nr ClientRect) <= right (intersection nr ClientRect)
                        /\ top (intersection nr ClientRect)
                           <= bottom (intersection nr ClientRect))
             then let* moved := lift (RECT_plus (intersection nr ClientRect) LeftTop) in
                  ret ([] ++ [moved])
             else ret []) w1 = Done (rects, w1) ->
            GetBoundingRectangles ClientToScreen ClientRect this (Some slot) w
            = Done (S_OK,
                    Some (Some (rects ≫= fun r => [left r; top r; right r; bottom r])), w1))
    as Hrun.
  { intros rects Hpush. unfold GetBoundingRectangles.
    erewrite bind_eq by reflexivity.
    erewrite bind_eq; [reflexivity|].
    simpl GetBoundingRectangles_loop.
    rewrite (bind_eq _ _ _ _ _ Hi). erewrite bind_eq by reflexivity. rewrite Hu.
    erewrite bind_eq by (apply at_eq; exact Hnr).
    fold LeftTop. rewrite (bind_eq _ _ _ _ _ Hpush).
    erewrite bind_eq by reflexivity. rewrite Hu.
    destruct (decide (i + 1 < length (node_ids (g_ui w)))%nat) as [Hnext|Hlast];
      [|reflexivity].
    destruct (lookup_lt_is_Some_2 (node_ids (g_ui w)) (i + 1)) as [id' Hid']; [assumption|].
    erewrite bind_eq by (apply at_eq; exact Hid').
    rewrite decide_True by (symmetry; assumption). reflexivity. }
  cbn [intersection left top right bottom] in Hrun. fold l t r b in Hrun.
  split.
  - intros Hlr Hfl Hft Hfr Hfb. exists w1.
    rewrite (Hrun [ {| left := l + px LeftTop; top := t + py LeftTop;
                       right := r + px LeftTop; bottom := b + py LeftTop |} ]);
      [reflexivity|].
    rewrite decide_True by (split; [assumption | subst t b; lia]).
    unfold RECT_plus. cbn [left top right bottom].
    rewrite !LONG_add_fits by assumption. reflexivity.
  - intros Hrl. exists w1. rewrite (Hrun []); [reflexivity|].
    rewrite decide_False by lia. reflexivity.
Qed.

End BoundingRectangles.

Lemma described_third_placed_wf : well_formed described_third_placed.
Proof.
  apply (ui_set_rect_well_formed (id_at described 4) (mkRECT 20 40 1220 60) described);
    [apply described_wf | vm_compute; reflexivity].
Qed.

Lemma GetBoundingRectangles_does_not_cut_at_the_bottom_witness :
  exists w',
    GetBoundingRectangles (fun p => mkPOINT (px p + 100) (py p + 200)) (mkRECT 0 0 800 30)
      (whole_node described_third_placed 4) (Some None) described_third_placed
    = Done (S_OK, Some (Some [20 + 100; 40 + 200; 800 + 100; 60 + 200]), w').
Proof.
  destruct (GetBoundingRectangles_does_not_cut_at_the_bottom
              (fun p => mkPOINT (px p + 100) (py p + 200)) (mkRECT 0 0 800 30)
              described_third_placed (whole_node described_third_placed 4) None 4
              (mkRECT 20 40 1220 60) described_third_placed_wf) as [H _];
    try (vm_compute; reflexivity); try (vm_compute; discriminate).
  apply H; [vm_compute; discriminate | vm_compute; split; [discriminate | reflexivity] ..].
Defined.

(** ** Runtime ids *)

Lemma bits_low x w : bits x 0 32 w = Done (x mod 2 ^ 32, w).
Proof.
  unfold bits. change (to_size_t (0 + 32) <? 64) with true.
  unfold VERIFY, bind, ret.
  rewrite decide_False by lia.
  rewrite Z.shiftr_0_r. change (Z.shiftl 1 32 - 1) with (Z.ones 32).
  rewrite Z.land_ones by lia. reflexivity.
Qed.

Lemma to_int_low_inj a b :
  to_int (a mod 2 ^ 32) = to_int (b mod 2 ^ 32) <-> a mod 2 ^ 32 = b mod 2 ^ 32.
Proof.
  split; [|intros ->; reflexivity]. unfold to_int.
  pose proof (Z.mod_pos_bound a (2 ^ 32) ltac:(lia)) as Ha.
  pose proof (Z.mod_pos_bound b (2 ^ 32) ltac:(lia)) as Hb.
  revert Ha Hb. generalize (a mod 2 ^ 32) (b mod 2 ^ 32). intros m n Hm Hn H.
  destruct (Z_lt_ge_dec m (2 ^ 31)), (Z_lt_ge_dec n (2 ^ 31)).
  - rewrite !Z.mod_small in H by lia. lia.
  - rewrite (Z.mod_small (m + _)) in H by lia.
    replace (n + 2 ^ 31) with (n - 2 ^ 31 + 1 * 2 ^ 32) in H by lia.
    rewrite Z.mod_add, Z.mod_small in H by lia. lia.
  - rewrite (Z.mod_small (n + _)) in H by lia.
    replace (m + 2 ^ 31) with (m - 2 ^ 31 + 1 * 2 ^ 32) in H by lia.
    rewrite Z.mod_add, Z.mod_small in H by lia. lia.
  - replace (n + 2 ^ 31) with (n - 2 ^ 31 + 1 * 2 ^ 32) in H by lia.
    replace (m + 2 ^ 31) with (m - 2 ^ 31 + 1 * 2 ^ 32) in H by lia.
    rewrite !Z.mod_add, !Z.mod_small in H by lia. lia.
Qed.

Section RuntimeIds.

Variable UiaAppendRuntimeId : Z.

(** X23: [GetRuntimeId] always answers [S_OK], with
    [UiaAppendRuntimeId] followed by the low 32 bits of the id of the
    element as a [LONG], and changes nothing; so two elements have the
    same runtime id exactly when their 64-bit ids agree modulo [2^32]. *)
Theorem GetRuntimeId_keeps_the_low_half_of_the_id
    (id1 id2 : Id) (slot1 slot2 : option (list Z)) (w : World) :
  exists r1 r2,
    GetRuntimeId UiaAppendRuntimeId id1 (Some slot1) w = Done (S_OK, Some (Some r1), w)
    /\ GetRuntimeId UiaAppendRuntimeId id2 (Some slot2) w = Done (S_OK, Some (Some r2), w)
    /\ r1 = [UiaAppendRuntimeId; to_int (id1 mod 2 ^ 32)]
    /\ (r1 = r2 <-> id1 mod 2 ^ 32 = id2 mod 2 ^ 32).
Proof.
  exists [UiaAppendRuntimeId; to_int (id1 mod 2 ^ 32)],
         [UiaAppendRuntimeId; to_int (id2 mod 2 ^ 32)].
  unfold GetRuntimeId.
  split; [rewrite (bind_eq _ _ _ _ _ (bits_low id1 w)); reflexivity|].
  split; [rewrite (bind_eq _ _ _ _ _ (bits_low id2 w)); reflexivity|].
  split; [reflexivity|].
  rewrite <- to_int_low_inj. split; [intros [= H]; exact H | intros ->; reflexivity].
Qed.

End RuntimeIds.

(** ** Ancestors *)

Lemma ancestor_of_step w c i id p :
  well_formed w ->
  node_ids (g_ui w) !! i = Some id -> node_parent (g_ui w) !! i = Some p ->
  ancestor_of (g_ui w) c id <-> p = c \/ ancestor_of (g_ui w) c p.
Proof.
  intros Hw Hid Hp. split.
  - intros H. inversion H as [id' i' Hid' Hp'|id' i' p' Hid' Hp' Hanc]; subst id'.
    + assert (i' = i) as ->
        by (eapply NoDup_lookup; [apply (linked_nodup _ (wf_linked _ Hw))|eassumption..]).
      left. congruence.
    + assert (i' = i) as ->
        by (eapply NoDup_lookup; [apply (linked_nodup _ (wf_linked _ Hw))|eassumption..]).
      right. congruence.
  - intros [->|H]; [eapply ancestor_parent | eapply ancestor_further]; eauto.
Qed.

Lemma ancestor_of_root_none w c : well_formed w -> ~ ancestor_of (g_ui w) c 0.
Proof.
  intros Hw H.
  assert (exists i, node_ids (g_ui w) !! i = Some 0) as (i & Hi)
    by (inversion H; eauto).
  apply well_formed_lookup in Hi as (Hv & _); [discriminate Hv | assumption].
Qed.

Lemma ancestor_of_earlier w c id i :
  well_formed w -> ancestor_of (g_ui w) c id -> node_ids (g_ui w) !! i = Some id ->
  c = 0 \/ exists k, (k < i)%nat /\ node_ids (g_ui w) !! k = Some c.
Proof.
  intros Hw H. revert i.
  induction H as [id i' Hid' Hp'|id i' p Hid' Hp' Hanc IH]; intros i Hid.
  - assert (i' = i) as ->
      by (eapply NoDup_lookup; [apply (linked_nodup _ (wf_linked _ Hw))|eassumption..]).
    apply (linked_parent _ (wf_linked _ Hw) _ _ Hp').
  - assert (i' = i) as ->
      by (eapply NoDup_lookup; [apply (linked_nodup _ (wf_linked _ Hw))|eassumption..]).
    destruct (linked_parent _ (wf_linked _ Hw) _ _ Hp') as [->|(k & Hk & Hpk)].
    + exfalso. exact (ancestor_of_root_none w c Hw Hanc).
    + destruct (IH k Hpk) as [->|(m & Hm & Hc)]; [left; reflexivity|].
      right. exists m. split; [lia | assumption].
Qed.

Lemma ancestor_of_root w i id :
  well_formed w -> node_ids (g_ui w) !! i = Some id -> ancestor_of (g_ui w) 0 id.
Proof.
  intros Hw. revert id. induction i as [i IH] using lt_wf_ind. intros id Hid.
  destruct (lookup_lt_is_Some_2 (node_parent (g_ui w)) i) as [p Hp].
  { rewrite (aligned_parent _ (wf_aligned _ Hw)). eapply lookup_lt_Some; eauto. }
  destruct (linked_parent _ (wf_linked _ Hw) _ _ Hp) as [->|(k & Hk & Hpk)].
  - eapply ancestor_parent; eauto.
  - eapply ancestor_further; eauto.
Qed.

Lemma ui_is_ancestor_from_spec c fuel :
  forall i id w,
    well_formed w -> node_ids (g_ui w) !! i = Some id -> (i < fuel)%nat ->
    exists b w', ui_is_ancestor_from fuel c id w = Done (b, w')
                 /\ (b = true <-> ancestor_of (g_ui w) c id)
                 /\ same_tree w w'.
Proof.
  induction fuel as [|fuel IH]; intros i id w Hw Hid Hfuel; [lia|].
  pose proof (well_formed_lookup _ _ _ Hw Hid) as (Hv & _ & _).
  destruct (ui_get_index_at _ _ _ Hw Hid) as (w1 & Hi & Hu & Hs & Hw1).
  destruct (lookup_lt_is_Some_2 (node_parent (g_ui w)) i) as [p Hp].
  { rewrite (aligned_parent _ (wf_aligned _ Hw)). eapply lookup_lt_Some; eauto. }
  pose proof (ancestor_of_step w c i id p Hw Hid Hp) as Hstep.
  simpl ui_is_ancestor_from.
  rewrite decide_False by (apply valid_id_nonzero; assumption).
  rewrite (bind_eq _ _ _ _ _ Hi). erewrite bind_eq by reflexivity. rewrite Hu.
  erewrite bind_eq by (apply at_eq; exact Hp).
  destruct (decide (p = c)) as [Hpc|Hpc].
  - exists true, w1. split; [reflexivity|]. split; [|assumption]. tauto.
  - destruct (linked_parent _ (wf_linked _ Hw) _ _ Hp) as [->|(k & Hk & Hpk)].
    + exists false, w1. split; [destruct fuel; reflexivity|]. split; [|assumption].
      split; [discriminate|]. intros H. apply Hstep in H as [H|H]; [congruence|].
      exfalso. exact (ancestor_of_root_none w c Hw H).
    + destruct (IH k p w1 Hw1) as (b & w' & Hrun & Hb & Hs'); [rewrite Hu; assumption|lia|].
      exists b, w'. split; [assumption|]. split; [|eapply same_tree_trans; eauto].
      rewrite Hb, Hu. tauto.
Qed.

(** X24: on a well-formed store, [ui_is_ancestor] asked about a node
    returns, keeps the tree, and answers [true] exactly when the
    candidate is the parent of the node or of one of its ancestors: the
    root, of id [0], is an ancestor of every node, and no node is an
    ancestor of itself. *)
Theorem ui_is_ancestor_follows_the_parents (w : World) (c id : Id) (i : nat) :
  well_formed w ->
  node_ids (g_ui w) !! i = Some id ->
  exists b w',
    ui_is_ancestor c id w = Done (b, w')
    /\ same_tree w w'
    /\ (b = true <-> ancestor_of (g_ui w) c id)
    /\ (c = 0 -> b = true)
    /\ (c = id -> b = false).
Proof.
  intros Hw Hid.
  pose proof (lookup_lt_Some _ _ _ Hid) as Hlt.
  destruct (ui_is_ancestor_from_spec c (S (length (node_ids (g_ui w)))) i id w Hw Hid)
    as (b & w' & Hrun & Hb & Hs); [lia|].
  exists b, w'. split; [|split; [assumption|split; [assumption|split]]].
  - unfold ui_is_ancestor. erewrite bind_eq by reflexivity. exact Hrun.
  - intros ->. apply Hb. eapply ancestor_of_root; eauto.
  - intros ->. destruct b; [|reflexivity]. exfalso.
    destruct (ancestor_of_earlier w id id i Hw) as [->|(k & Hk & Hc)];
      [tauto|assumption| |].
    + apply well_formed_lookup in Hid as (Hv & _); [discriminate Hv | assumption].
    + assert (k = i)
        by (eapply NoDup_lookup; [apply (linked_nodup _ (wf_linked _ Hw))|eassumption..]).
      lia.
Qed.

Lemma ui_is_ancestor_follows_the_parents_witness :
  exists w', ui_is_ancestor (id_at described 1) (id_at described 3) described
             = Done (true, w').
Proof.
  destruct (ui_is_ancestor_follows_the_parents described (id_at described 1)
              (id_at described 3) 3 described_wf) as (b & w' & H & _ & Hb & _);
    [vm_compute; reflexivity|].
  exists w'. rewrite H. f_equal. f_equal. apply Hb.
  apply (ancestor_parent _ _ _ 3%nat); vm_compute; reflexivity.
Defined.

(** ** Buttons *)

Lemma ui_activate_runs id fn w :
  actions (g_ui w) !! id = Some fn ->
  (clients_listening w = true ->
   valid_id (focused_id (g_ui w)) = true /\ focused_id (g_ui w) ∈ node_ids (g_ui w)) ->
  exists w', ui_activate id w = Done (true, Some fn, w')
             /\ raised w' = told w UIA_Invoke_InvokedEventId (focused_id (g_ui w)) ++ raised w.
Proof.
  intros Hfn Hfoc.
  unfold ui_activate, create_simple_element_provider, create_element_provider,
    exists_id, contains_id, UiaRaiseAutomationEvent, AddRef, Release, told.
  unfold bind, gets, modify, get, ret. simpl. rewrite Hfn.
  destruct (clients_listening w) eqn:El; simpl; [|eauto].
  destruct (Hfoc eq_refl) as [Hv Hin].
  rewrite Hv, bool_decide_eq_true_2 by assumption. simpl.
  destruct (providers (g_ui w) !! focused_id (g_ui w)); simpl; eauto.
Qed.

Section Buttons.

Variable hash : wstring -> Z.
Variable wyhash64 : Z -> Z -> Z.

(** X25: the element that [ui_button] has added to a well-formed store
    offers the invoke pattern: [GetPatternProvider] answers its invoke
    provider to [UIA_InvokePatternId], and [Invoke] of that provider runs
    the action that the button was built with and answers [S_OK]; when a
    client listens, the focused element being a node of the store, the
    event [UIA_Invoke_InvokedEventId] is raised once, for the focused
    element. *)
Theorem button_runs_its_action
    (text : wstring) (action : Action) (w : World) (id : Id) (w1 : World)
    (slot : option PatternProvider) :
  well_formed w ->
  ui_button hash wyhash64 text action w = Done (id, w1) ->
  (clients_listening w = true ->
   exists f, node_ids (g_ui w) !! f = Some (focused_id (g_ui w))) ->
  exists w2 w3,
    GetPatternProvider id UIA_InvokePatternId (Some slot) w1
    = Done (S_OK, Some (Some (AnyElementInvokeProvider id)), w2)
    /\ Invoke id w2 = Done (S_OK, Some action, w3)
    /\ raised w3 = told w UIA_Invoke_InvokedEventId (focused_id (g_ui w)) ++ raised w.
Proof.
  intros Hw Hb Hfoc.
  pose proof (ui_button_well_formed hash wyhash64 _ _ _ _ _ Hw Hb) as Hw1.
  apply ui_button_columns in Hb as (w0 & Hn & Hu1 & _ & _ & Hl1 & Hr1).
  destruct (ui_named_element_last hash wyhash64 _ _ _ _ _ Hw Hn)
    as (_ & Hid & _ & Hty & _ & Hf0 & Hl0).
  pose proof (ui_named_element_Done _ _ _ _ _ _ _ Hn) as (p & _ & _ & _ & _ & Hadd & _).
  assert (node_ids (g_ui w1) !! length (node_ids (g_ui w)) = Some id) as Hid1
    by (rewrite Hu1; exact Hid).
  destruct (ui_get_index_at _ _ _ Hw1 Hid1) as (w2 & Hi & Hu2 & Hs2 & Hw2).
  pose proof (well_formed_lookup _ _ _ Hw1 Hid1) as (Hv & _ & _).
  assert (actions (g_ui w2) !! id = Some action) as Hact.
  { rewrite Hu2, Hu1. simpl. apply lookup_insert_eq. }
  assert (focused_id (g_ui w2) = focused_id (g_ui w)) as Hfw.
  { rewrite Hu2, Hu1. simpl. exact Hf0. }
  assert (clients_listening w2 = clients_listening w) as Hlw.
  { rewrite (same_listening _ _ Hs2), Hl1. exact Hl0. }
  assert (raised w2 = raised w) as Hrw.
  { rewrite (same_raised _ _ Hs2), Hr1. apply (na_raised _ _ _ _ _ _ _ Hadd). }
  destruct (ui_activate_runs id action w2 Hact) as (w3 & Hrun & Hraised).
  { rewrite Hlw, Hfw. intros El. destruct (Hfoc El) as (f & Hf).
    pose proof (well_formed_lookup _ _ _ Hw Hf) as (Hvf & _ & _).
    split; [assumption|]. rewrite Hu2, Hu1. simpl.
    rewrite (na_ids _ _ _ _ _ _ _ Hadd). apply elem_of_app. left.
    eapply list_elem_of_lookup_2; eauto. }
  exists w2, w3. split; [|split].
  - unfold GetPatternProvider.
    rewrite (bind_eq _ _ _ _ _ Hi). erewrite bind_eq by reflexivity.
    rewrite Hu2, Hu1. simpl node_type.
    erewrite bind_eq by (apply at_eq; exact Hty).
    erewrite bind_eq by reflexivity.
    assert (create_element_invoke_provider id w2 = Done (AnyElementInvokeProvider id, w2))
      as Hcreate.
    { unfold create_element_invoke_provider, exists_id, contains_id, bind, gets, ret.
      rewrite Hv, bool_decide_eq_true_2; [reflexivity|].
      rewrite Hu2. eapply list_elem_of_lookup_2; eauto. }
    erewrite bind_eq; [reflexivity|].
    rewrite (bind_eq _ _ _ _ _ Hcreate). reflexivity.
  - unfold Invoke. rewrite (bind_eq _ _ _ _ _ Hrun). reflexivity.
  - rewrite Hraised. unfold told. rewrite Hlw, Hfw, Hrw. reflexivity.
Qed.

End Buttons.

Lemma button_runs_its_action_witness :
  exists id w1 w2 w3,
    ui_button demo_hash demo_wyhash64 (L "Quit") CloseApplication described = Done (id, w1)
    /\ GetPatternProvider id UIA_InvokePatternId (Some None) w1
       = Done (S_OK, Some (Some (AnyElementInvokeProvider id)), w2)
    /\ Invoke id w2 = Done (S_OK, Some CloseApplication, w3).
Proof.
  assert (exists id w1,
            ui_button demo_hash demo_wyhash64 (L "Quit") CloseApplication described
            = Done (id, w1)) as (id & w1 & Hb)
    by (vm_compute; eexists _, _; reflexivity).
  destruct (button_runs_its_action demo_hash demo_wyhash64 _ _ _ _ _ None described_wf Hb)
    as (w2 & w3 & H1 & H2 & _).
  - intros El. vm_compute in El. discriminate El.
  - exists id, w1, w2, w3. split; [exact Hb|]. split; [exact H1 | exact H2].
Defined.

(** ** Names of siblings *)

Section Siblings.

Variable hash : wstring -> Z.
Variable wyhash64 : Z -> Z -> Z.


End Siblings.


(** ** The text pattern of a paragraph *)

(** X27: on a well-formed store, an element of the type [kText] offers
    the text pattern: [GetPatternProvider] answers its text provider to
    [UIA_TextPatternId]; but [get_DocumentRange] of that provider answers
    [S_OK] with no range, since it makes a range for an element of the
    type [kDocument] only; and the element offers no value pattern. *)
Theorem paragraph_has_a_text_provider_without_a_range
    (w : World) (i : nat) (id : Id)
    (slot : option PatternProvider) (slot' : option AnyElementTextRangeProvider) :
  well_formed w ->
  node_ids (g_ui w) !! i = Some id ->
  node_type (g_ui w) !! i = Some kText ->
  exists w1 w2 w3,
    GetPatternProvider id UIA_TextPatternId (Some slot) w
    = Done (S_OK, Some (Some (AnyElementTextProvider id)), w1)
    /\ get_DocumentRange id (Some slot') w1 = Done (S_OK, Some None, w2)
    /\ GetPatternProvider id UIA_ValuePatternId (Some slot) w = Done (S_OK, Some None, w3).
Proof.
  intros Hw Hid Hty.
  destruct (ui_get_index_at _ _ _ Hw Hid) as (w1 & Hi & Hu & Hs & Hw1).
  pose proof (well_formed_lookup _ _ _ Hw Hid) as (Hv & _ & _).
  assert (node_ids (g_ui w1) !! i = Some id) as Hid1 by (rewrite Hu; exact Hid).
  destruct (ui_get_index_at _ _ _ Hw1 Hid1) as (w2 & Hi2 & Hu2 & Hs2 & Hw2).
  exists w1, w2, w1. split; [|split].
  - unfold GetPatternProvider.
    rewrite (bind_eq _ _ _ _ _ Hi). erewrite bind_eq by reflexivity. rewrite Hu.
    erewrite bind_eq by (apply at_eq; exact Hty).
    erewrite bind_eq by reflexivity.
    assert (create_element_text_provider id w1 = Done (AnyElementTextProvider id, w1))
      as Hcreate.
    { unfold create_element_text_provider, exists_id, contains_id, bind, gets, ret.
      rewrite Hv, bool_decide_eq_true_2; [reflexivity|].
      eapply list_elem_of_lookup_2; eauto. }
    erewrite bind_eq; [reflexivity|].
    rewrite (bind_eq _ _ _ _ _ Hcreate). reflexivity.
  - unfold get_DocumentRange.
    rewrite (bind_eq _ _ _ _ _ Hi2). erewrite bind_eq by reflexivity. rewrite Hu2, Hu.
    erewrite bind_eq by (apply at_eq; exact Hty).
    rewrite decide_False by discriminate. reflexivity.
  - unfold GetPatternProvider.
    rewrite (bind_eq _ _ _ _ _ Hi). erewrite bind_eq by reflexivity. rewrite Hu.
    erewrite bind_eq by (apply at_eq; exact Hty).
    erewrite bind_eq by reflexivity. reflexivity.
Qed.

Lemma paragraph_has_a_text_provider_without_a_range_witness :
  exists w1 w2,
    GetPatternProvider (id_at described 2) UIA_TextPatternId (Some None) described
    = Done (S_OK, Some (Some (AnyElementTextProvider (id_at described 2))), w1)
    /\ get_DocumentRange (id_at described 2) (Some None) w1 = Done (S_OK, Some None, w2).
Proof.
  destruct (paragraph_has_a_text_provider_without_a_range described 2 (id_at described 2)
              None None described_wf) as (w1 & w2 & _ & H1 & H2 & _);
    [vm_compute; reflexivity | vm_compute; reflexivity |].
  exists w1, w2. split; [exact H1 | exact H2].
Defined.
